(** * flexsql: operator model, precedence-directed rendering and rewriting

    A shallow embedding of [operator.go] and [grammar.go].

    - Go's [uint] values ([OperatorType], [Associativity], precedences) are
      natural numbers [N]; the code only compares them, it never does
      arithmetic on them, so no wrap-around is involved.
    - Every Go struct that implements [Node] is a constructor of [Node]; a
      field of a concrete pointer type ([*FromClauseItem], [*SelectStmt])
      has the corresponding Rocq type, a pointer that the source tests
      against [nil] is an [option].  A pointer or interface value that the
      source dereferences without a test is taken to be non-nil.
    - Go's [int], the length given to [generatePlaceholders], is a 64-bit
      signed integer: a [Z] in that range, with the wrap-around of [i+1]
      written out; the [make] sized by it can fail, see [makeslice].
    - [Stringify] threads the [*Compiler] explicitly and returns Go's
      [error]; an index out of range is the outcome [Panicked].
    - [Transform] mutates nodes in place and returns them; on a tree (no
      node reachable along two paths) this is the function that rebuilds
      the node, which is what is modelled. *)

From Stdlib Require Import String List NArith ZArith Bool Arith Lia DecimalString.
From Stdlib Require DecimalZ DecimalPos Finite.
Import ListNotations.

Set Implicit Arguments.
Open Scope string_scope.
Open Scope N_scope.

(** ** operator.go: operator kinds and associativity *)

Definition OperatorType := N.

Definition OpMul : OperatorType := 1.
Definition OpDiv : OperatorType := 2.
Definition OpMod : OperatorType := 3.
Definition OpAdd : OperatorType := 4.
Definition OpSub : OperatorType := 5.
Definition OpIsNull : OperatorType := 6.
Definition OpIsNotNull : OperatorType := 7.
Definition OpIsTrue : OperatorType := 8.
Definition OpIsNotTrue : OperatorType := 9.
Definition OpIsFalse : OperatorType := 10.
Definition OpIsNotFalse : OperatorType := 11.
Definition OpIn : OperatorType := 12.
Definition OpNotIn : OperatorType := 13.
Definition OpBetween : OperatorType := 14.
Definition OpNotBetween : OperatorType := 15.
Definition OpLike : OperatorType := 16.
Definition OpNotLike : OperatorType := 17.
Definition OpILike : OperatorType := 18.
Definition OpNotILike : OperatorType := 19.
Definition OpLt : OperatorType := 20.
Definition OpLte : OperatorType := 21.
Definition OpGt : OperatorType := 22.
Definition OpGte : OperatorType := 23.
Definition OpEq : OperatorType := 24.
Definition OpNotEq : OperatorType := 25.
Definition OpNot : OperatorType := 26.
Definition OpAnd : OperatorType := 27.
Definition OpOr : OperatorType := 28.

Definition Associativity := N.

Definition NonAssociative : Associativity := 1.
Definition LeftAssociative : Associativity := 2.
Definition RightAssociative : Associativity := 3.

(** ** grammar.go: errors *)

Inductive error : Set :=
| ErrNoPrecedence
| ErrNoAssociativity
| ErrUnknownFromClauseItem
| ErrNonAssociative
| ErrZeroLength
| ErrUnknownInputKey
| ErrUnboundPlaceholder.

(** ** The structs of grammar.go and operator.go

    A struct with a field of the interface type [Expr] is a record over the
    type [E] of expressions, instantiated with [Node] below. *)

Definition SQLType := string.

Record CastExprOf (E : Type) := mkCastExpr {
  ce_expr : E;
  ce_sqlType : SQLType }.

Record FuncExprOf (E : Type) := mkFuncExpr {
  f_name : string;
  f_args : list E;
  f_omitParentheses : bool }.

Record Column := mkColumn {
  col_TableLabel : string;
  col_Name : string }.

Record LabeledColumnOf (E : Type) := mkLabeledColumn {
  lc_Expr : E;
  lc_Label : string }.

Record Table := mkTable {
  t_Schema : string;
  t_Name : string }.

Record LabeledTable := mkLabeledTable {
  lt_Schema : string;
  lt_Name : string;
  lt_Label : string }.

Record LabeledSelectStmtOf (S : Type) := mkLabeledSelectStmt {
  ls_SelectStmt : S;
  ls_Label : string }.

Record JoinClauseOf (E F : Type) := mkJoinClause {
  j_joinType : string;
  j_left : F;
  j_right : F;
  j_on : E }.

Record CaseExprOf (E : Type) := mkCaseExpr {
  c_conds : list E;
  c_results : list E;
  c_else_ : option E }.

Record orderbyItemOf (E : Type) := mkorderbyItem {
  o_expr : E;
  o_desc : bool;
  o_nullsSet : bool;
  o_nullsLast : bool }.

Record UnaryOperatorOf (E : Type) := mkUnaryOperator {
  u_Type : OperatorType;
  u_Symbol : string;
  u_NegatedType : OperatorType;
  u_NegatedSymbol : string;
  u_Expr : E;
  u_CustomPrecedence : N;
  u_CustomAssociativity : Associativity }.

Record BinaryOperatorOf (E : Type) := mkBinaryOperator {
  b_Type : OperatorType;
  b_Symbol : string;
  b_NegatedType : OperatorType;
  b_NegatedSymbol : string;
  b_Left : E;
  b_Right : E;
  b_CustomPrecedence : N;
  b_CustomAssociativity : Associativity;
  b_SuppressSpace : bool }.

Record TernaryOperatorOf (E : Type) := mkTernaryOperator {
  t_Type : OperatorType;
  t_Symbol1 : string;
  t_Symbol2 : string;
  t_NegatedType : OperatorType;
  t_NegatedSymbol1 : string;
  t_NegatedSymbol2 : string;
  t_Expr1 : E;
  t_Expr2 : E;
  t_Expr3 : E;
  t_CustomPrecedence : N;
  t_CustomAssociativity : Associativity }.

(** Predicate liftings for the container types, so that the induction
    principles of [Node] reach through them. *)
Scheme All for list.
Scheme All for option.
Scheme All for CastExprOf.
Scheme All for FuncExprOf.
Scheme All for LabeledColumnOf.
Scheme All for LabeledSelectStmtOf.
Scheme All for JoinClauseOf.
Scheme All for CaseExprOf.
Scheme All for orderbyItemOf.
Scheme All for UnaryOperatorOf.
Scheme All for BinaryOperatorOf.
Scheme All for TernaryOperatorOf.

(** [Node] is the interface; its constructors are the types that implement
    it.  [FromClauseItem] and [SelectStmt] are also field types of other
    structs, so they are types of their own in the mutual block.  The
    single-field structs [FromClause], [WhereClause], [HavingClause],
    [LimitClause], [OffsetClause], [Tuple], [GroupByClause] and
    [OrderByClause] are represented by their field. *)
Inductive Node : Type :=
| NSQLType (s : SQLType)
| NCastExpr (ce : CastExprOf Node)
| NFuncExpr (f : FuncExprOf Node)
| NFromClause (FromClauseItem_ : FromClauseItem)
| NJoinClause (j : JoinClauseOf Node FromClauseItem)
| NLabeledSelectStmt (l : LabeledSelectStmtOf SelectStmt)
| NColumn (col : Column)
| NLabeledColumn (l : LabeledColumnOf Node)
| NTable (t : Table)
| NLabeledTable (l : LabeledTable)
| NFromClauseItem (f : FromClauseItem)
| NTuple (exprs : list Node)
| NCaseExpr (ce : CaseExprOf Node)
| NPlaceholder (p : string)
| NWhereClause (Expr : Node)
| NGroupByClause (exprs : list Node)
| NHavingClause (Expr : Node)
| NorderbyItem (o : orderbyItemOf Node)
| NOrderByClause (items : list (orderbyItemOf Node))
| NLimitClause (Expr : Node)
| NOffsetClause (Expr : Node)
| NSelectStmt (s : SelectStmt)
| NUnaryOperator (u : UnaryOperatorOf Node)
| NBinaryOperator (b : BinaryOperatorOf Node)
| NTernaryOperator (t : TernaryOperatorOf Node)
with FromClauseItem : Type :=
| mkFromClauseItem
    (TableRef : option LabeledTable)
    (Subquery : option (LabeledSelectStmtOf SelectStmt))
    (JoinClause : option (JoinClauseOf Node FromClauseItem))
with SelectStmt : Type :=
| mkSelectStmt
    (Columns : list (LabeledColumnOf Node))
    (FromClause : option FromClauseItem)
    (WhereClause : option Node)
    (GroupByClause : option (list Node))
    (HavingClause : option Node)
    (OrderByClause : option (list (orderbyItemOf Node)))
    (LimitClause : option Node)
    (OffsetClause : option Node).

Definition Expr := Node.
Definition CastExpr := CastExprOf Node.
Definition FuncExpr := FuncExprOf Node.
Definition LabeledColumn := LabeledColumnOf Node.
Definition LabeledSelectStmt := LabeledSelectStmtOf SelectStmt.
Definition JoinClause := JoinClauseOf Node FromClauseItem.
Definition CaseExpr := CaseExprOf Node.
Definition orderbyItem := orderbyItemOf Node.
Definition UnaryOperator := UnaryOperatorOf Node.
Definition BinaryOperator := BinaryOperatorOf Node.
Definition TernaryOperator := TernaryOperatorOf Node.

Scheme Node_mind := Induction for Node Sort Prop
  with FromClauseItem_mind := Induction for FromClauseItem Sort Prop
  with SelectStmt_mind := Induction for SelectStmt Sort Prop.
Combined Scheme Node_mutind from Node_mind, FromClauseItem_mind, SelectStmt_mind.

(** Field access for the two structs declared in the mutual block. *)
Definition fci_TableRef (f : FromClauseItem) : option LabeledTable :=
  match f with mkFromClauseItem t _ _ => t end.
Definition fci_Subquery (f : FromClauseItem) : option LabeledSelectStmt :=
  match f with mkFromClauseItem _ s _ => s end.
Definition fci_JoinClause (f : FromClauseItem) : option JoinClause :=
  match f with mkFromClauseItem _ _ j => j end.

Definition s_Columns (s : SelectStmt) : list LabeledColumn :=
  match s with mkSelectStmt c _ _ _ _ _ _ _ => c end.
Definition s_FromClause (s : SelectStmt) : option FromClauseItem :=
  match s with mkSelectStmt _ f _ _ _ _ _ _ => f end.
Definition s_WhereClause (s : SelectStmt) : option Node :=
  match s with mkSelectStmt _ _ w _ _ _ _ _ => w end.
Definition s_GroupByClause (s : SelectStmt) : option (list Node) :=
  match s with mkSelectStmt _ _ _ g _ _ _ _ => g end.
Definition s_HavingClause (s : SelectStmt) : option Node :=
  match s with mkSelectStmt _ _ _ _ h _ _ _ => h end.
Definition s_OrderByClause (s : SelectStmt) : option (list orderbyItem) :=
  match s with mkSelectStmt _ _ _ _ _ o _ _ => o end.
Definition s_LimitClause (s : SelectStmt) : option Node :=
  match s with mkSelectStmt _ _ _ _ _ _ l _ => l end.
Definition s_OffsetClause (s : SelectStmt) : option Node :=
  match s with mkSelectStmt _ _ _ _ _ _ _ o => o end.

(** ** The output context

    [Compiler] is declared outside the two source files; only its methods
    are called. *)

(** Modelled from the spec: the [Compiler] struct.  "Output context: owns
    the emitted-text buffer, per-operator-kind precedence/associativity
    tables, identifier-quoting rule, placeholder-rendering rule, and an
    insertion-ordered name->position binding table scoped to one print
    invocation."  The two tables and the two rules are the dialect and are
    arbitrary functions. *)
Record Compiler := mkCompiler {
  buf : string;
  precedenceTable : OperatorType -> N;
  associativityTable : OperatorType -> Associativity;
  quoteIdentifier : string -> string;
  placeholderRule : string -> N -> string;
  bindings : list (string * N) }.

Definition setBuf (c : Compiler) (b : string) : Compiler :=
  {| buf := b;
     precedenceTable := precedenceTable c;
     associativityTable := associativityTable c;
     quoteIdentifier := quoteIdentifier c;
     placeholderRule := placeholderRule c;
     bindings := bindings c |}.

Definition setBindings (c : Compiler) (bs : list (string * N)) : Compiler :=
  {| buf := buf c;
     precedenceTable := precedenceTable c;
     associativityTable := associativityTable c;
     quoteIdentifier := quoteIdentifier c;
     placeholderRule := placeholderRule c;
     bindings := bs |}.

(** Modelled from the spec: [Compiler.WriteVerbatim], "appendLiteral(text)". *)
Definition WriteVerbatim (s : string) (c : Compiler) : Compiler :=
  setBuf c (buf c ++ s).

(** Modelled from the spec: [Compiler.WriteIdentifier],
    "appendIdentifier(name) (dialect-quoted)". *)
Definition WriteIdentifier (s : string) (c : Compiler) : Compiler :=
  setBuf c (buf c ++ quoteIdentifier c s).

(** Modelled from the spec: [Compiler.precedence],
    "precedenceFor(operatorKind) -> natural-or-unset", zero being unset. *)
Definition Compiler_precedence (c : Compiler) (t : OperatorType) : N :=
  precedenceTable c t.

(** Modelled from the spec: [Compiler.associativity],
    "associativityFor(operatorKind) -> {Left,Right,NonAssociative}-or-unset",
    zero being unset. *)
Definition Compiler_associativity (c : Compiler) (t : OperatorType)
  : Associativity :=
  associativityTable c t.

Fixpoint lookupBinding (name : string) (bs : list (string * N)) : option N :=
  match bs with
  | [] => None
  | (k, pos) :: bs' => if String.eqb k name then Some pos else lookupBinding name bs'
  end.

(** Modelled from the spec: [Compiler.insertPlaceholder], "if the name was
    already bound in this print pass, the existing position is reused;
    otherwise the next sequential 1-based position is assigned and
    recorded." *)
Definition insertPlaceholder (name : string) (c : Compiler) : N * Compiler :=
  match lookupBinding name (bindings c) with
  | Some pos => (pos, c)
  | None =>
      let pos := N.of_nat (List.length (bindings c)) + 1 in
      (pos, setBindings c (bindings c ++ [(name, pos)]))
  end.

(** Modelled from the spec: [Compiler.makePlaceholder], "a dialect-supplied
    rendering function taking (name, position)". *)
Definition makePlaceholder (c : Compiler) (name : string) (pos : N) : string :=
  placeholderRule c name pos.

(** ** Outcomes and the rendering monad *)

Inductive result (A : Type) : Type :=
| Ok (a : A)
| Err (e : error)
| Panicked.
Arguments Err {A} e.
Arguments Panicked {A}.

(** A method with receiver state [*Compiler]. *)
Definition M (A : Type) : Type := Compiler -> result A * Compiler.

Definition ret {A} (a : A) : M A := fun c => (Ok a, c).
Definition fail {A} (e : error) : M A := fun c => (Err e, c).
Definition panic {A} : M A := fun c => (Panicked, c).
Definition bind {A B} (m : M A) (k : A -> M B) : M B :=
  fun c =>
    match m c with
    | (Ok a, c') => k a c'
    | (Err e, c') => (Err e, c')
    | (Panicked, c') => (Panicked, c')
    end.
(** A call whose Go signature has no error result. *)
Definition exec (f : Compiler -> Compiler) : M unit := fun c => (Ok tt, f c).
(** A call that returns a value and may change the context. *)
Definition call {A} (f : Compiler -> A * Compiler) : M A :=
  fun c => let (a, c') := f c in (Ok a, c').
(** A call that only reads the context. *)
Definition read {A} (f : Compiler -> A) : M A := fun c => (Ok (f c), c).
(** A call that only reads the context and may return an error. *)
Definition query {A} (f : Compiler -> result A) : M A := fun c => (f c, c).

Declare Scope go_scope.
Delimit Scope go_scope with go.
Notation "x <- m ;; k" := (bind m (fun x => k))
  (at level 61, m at next level, right associativity) : go_scope.
Notation "m ;; k" := (bind m (fun _ => k))
  (at level 61, right associativity) : go_scope.
Open Scope go_scope.

Definition when_ (b : bool) (m : M unit) : M unit := if b then m else ret tt.

(** [for _, x := range l { body }] *)
Definition forEach {A} (body : A -> M unit) : list A -> M unit :=
  fix loop (l : list A) : M unit :=
    match l with
    | [] => ret tt
    | x :: l' => body x ;; loop l'
    end.

(** ** operator.go: the [operator] interface and its three implementations *)

Class operatorMethods (T : Type) := {
  precedence : T -> N;
  associativity : T -> Associativity;
  operatorType : T -> OperatorType;
  negatable : T -> bool;
  negate : T -> Expr }.

Definition isNot (u : UnaryOperator) : bool := u_Type u =? OpNot.

#[export] Instance UnaryOperator_operator : operatorMethods UnaryOperator := {
  precedence u := u_CustomPrecedence u;
  associativity u := u_CustomAssociativity u;
  operatorType u := u_Type u;
  negatable u :=
    isNot u || (negb (u_NegatedType u =? 0) && negb (u_NegatedSymbol u =? "")%string);
  negate u :=
    if isNot u then u_Expr u
    else NUnaryOperator
      {| u_Type := u_NegatedType u;
         u_Symbol := u_NegatedSymbol u;
         u_NegatedType := u_Type u;
         u_NegatedSymbol := u_Symbol u;
         u_Expr := u_Expr u;
         u_CustomPrecedence := u_CustomPrecedence u;
         u_CustomAssociativity := u_CustomAssociativity u |} }.

#[export] Instance BinaryOperator_operator : operatorMethods BinaryOperator := {
  precedence b := b_CustomPrecedence b;
  associativity b := b_CustomAssociativity b;
  operatorType b := b_Type b;
  negatable b :=
    negb (b_NegatedType b =? 0) && negb (b_NegatedSymbol b =? "")%string;
  negate b :=
    NBinaryOperator
      {| b_Type := b_NegatedType b;
         b_Symbol := b_NegatedSymbol b;
         b_NegatedType := b_Type b;
         b_NegatedSymbol := b_Symbol b;
         b_Left := b_Left b;
         b_Right := b_Right b;
         b_CustomPrecedence := b_CustomPrecedence b;
         b_CustomAssociativity := b_CustomAssociativity b;
         b_SuppressSpace := false |} }.

#[export] Instance TernaryOperator_operator : operatorMethods TernaryOperator := {
  precedence t := t_CustomPrecedence t;
  associativity t := t_CustomAssociativity t;
  operatorType t := t_Type t;
  negatable t :=
    negb (t_NegatedType t =? 0) && negb (t_NegatedSymbol1 t =? "")%string
    && negb (t_NegatedSymbol2 t =? "")%string;
  negate t :=
    NTernaryOperator
      {| t_Type := t_NegatedType t;
         t_Symbol1 := t_NegatedSymbol1 t;
         t_Symbol2 := t_NegatedSymbol2 t;
         t_NegatedType := t_Type t;
         t_NegatedSymbol1 := t_Symbol1 t;
         t_NegatedSymbol2 := t_Symbol2 t;
         t_Expr1 := t_Expr1 t;
         t_Expr2 := t_Expr2 t;
         t_Expr3 := t_Expr3 t;
         t_CustomPrecedence := t_CustomPrecedence t;
         t_CustomAssociativity := t_CustomAssociativity t |} }.

(** A value of interface type [operator]: one of the three pointer types. *)
Inductive operator : Type :=
| opUnary (u : UnaryOperator)
| opBinary (b : BinaryOperator)
| opTernary (t : TernaryOperator).

#[export] Instance operator_operator : operatorMethods operator := {
  precedence op :=
    match op with
    | opUnary u => precedence u | opBinary b => precedence b
    | opTernary t => precedence t end;
  associativity op :=
    match op with
    | opUnary u => associativity u | opBinary b => associativity b
    | opTernary t => associativity t end;
  operatorType op :=
    match op with
    | opUnary u => operatorType u | opBinary b => operatorType b
    | opTernary t => operatorType t end;
  negatable op :=
    match op with
    | opUnary u => negatable u | opBinary b => negatable b
    | opTernary t => negatable t end;
  negate op :=
    match op with
    | opUnary u => negate u | opBinary b => negate b
    | opTernary t => negate t end }.

(** The type assertion [e.(operator)]: [Some] is [ok = true]. *)
Definition asOperator (e : Expr) : option operator :=
  match e with
  | NUnaryOperator u => Some (opUnary u)
  | NBinaryOperator b => Some (opBinary b)
  | NTernaryOperator t => Some (opTernary t)
  | _ => None
  end.

(** The [Expr] inside an [operator]. *)
Definition operatorExpr (op : operator) : Expr :=
  match op with
  | opUnary u => NUnaryOperator u
  | opBinary b => NBinaryOperator b
  | opTernary t => NTernaryOperator t
  end.

Definition resolveOperatorPrecedence (op : operator) (c : Compiler) : result N :=
  let customPrecedence := precedence op in
  if negb (customPrecedence =? 0) then Ok customPrecedence
  else
    let precedence_ := Compiler_precedence c (operatorType op) in
    if negb (precedence_ =? 0) then Ok precedence_
    else Err ErrNoPrecedence.

Definition resolveOperatorAssociativity (op : operator) (c : Compiler)
  : result Associativity :=
  let customAssociativity := associativity op in
  if negb (customAssociativity =? 0) then Ok customAssociativity
  else
    let associativity_ := Compiler_associativity c (operatorType op) in
    if negb (associativity_ =? 0) then Ok associativity_
    else Err ErrNoAssociativity.

(** ** grammar.go and operator.go: [Stringify]

    The method bodies, written over the [Stringify] of the types they call
    into; the knot is tied by the fixpoint below. *)

Section StringifyMethods.

Variable Stringify : Node -> M unit.
Variable FromClauseItem_Stringify : FromClauseItem -> M unit.
Variable SelectStmt_Stringify : SelectStmt -> M unit.

Definition SQLType_Stringify (s : SQLType) : M unit :=
  exec (WriteVerbatim s).

Definition CastExpr_Stringify (ce : CastExpr) : M unit :=
  exec (WriteVerbatim "CAST(") ;;
  Stringify (ce_expr ce) ;;
  exec (WriteVerbatim " AS ") ;;
  SQLType_Stringify (ce_sqlType ce) ;;
  exec (WriteVerbatim ")").

Definition FuncExpr_Stringify (f : FuncExpr) : M unit :=
  exec (WriteVerbatim (f_name f)) ;;
  match f_args f with
  | [] =>
      if f_omitParentheses f then ret tt
      else exec (WriteVerbatim "()")
  | arg0 :: rest =>
      exec (WriteVerbatim "(") ;;
      Stringify arg0 ;;
      forEach (fun e => exec (WriteVerbatim ",") ;; Stringify e) rest ;;
      exec (WriteVerbatim ")")
  end.

(** [str] is the [Stringify] method of the element type. *)
Definition stringifyCommaSeparated {A} (str : A -> M unit) (nodes : list A)
  : M unit :=
  match nodes with
  | [] => ret tt
  | n0 :: rest =>
      str n0 ;;
      forEach (fun n => exec (WriteVerbatim ",") ;; str n) rest
  end.

Definition stringifyParen (node : Node) : M unit :=
  exec (WriteVerbatim "(") ;;
  Stringify node ;;
  exec (WriteVerbatim ")").

Definition FromClause_Stringify (f : FromClauseItem) : M unit :=
  exec (WriteVerbatim "FROM ") ;;
  FromClauseItem_Stringify f.

Definition JoinClause_Stringify (j : JoinClause) : M unit :=
  FromClauseItem_Stringify (j_left j) ;;
  exec (WriteVerbatim (" " ++ j_joinType j ++ " ")) ;;
  FromClauseItem_Stringify (j_right j) ;;
  exec (WriteVerbatim " ON ") ;;
  Stringify (j_on j).

Definition LabeledSelectStmt_Stringify (l : LabeledSelectStmt) : M unit :=
  exec (WriteVerbatim "(") ;;
  SelectStmt_Stringify (ls_SelectStmt l) ;;
  exec (WriteVerbatim ") ") ;;
  exec (WriteIdentifier (ls_Label l)).

Definition Column_Stringify (col : Column) : M unit :=
  when_ (negb (col_TableLabel col =? "")%string)
    (exec (WriteIdentifier (col_TableLabel col)) ;;
     exec (WriteVerbatim ".")) ;;
  exec (WriteIdentifier (col_Name col)).

Definition LabeledColumn_Stringify (l : LabeledColumn) : M unit :=
  Stringify (lc_Expr l) ;;
  exec (WriteVerbatim " ") ;;
  exec (WriteIdentifier (lc_Label l)).

Definition Table_Stringify (t : Table) : M unit :=
  when_ (negb (t_Schema t =? "")%string)
    (exec (WriteIdentifier (t_Schema t)) ;;
     exec (WriteVerbatim ".")) ;;
  exec (WriteIdentifier (t_Name t)).

Definition LabeledTable_Stringify (l : LabeledTable) : M unit :=
  when_ (negb (lt_Schema l =? "")%string)
    (exec (WriteIdentifier (lt_Schema l)) ;;
     exec (WriteVerbatim ".")) ;;
  exec (WriteIdentifier (lt_Name l)) ;;
  exec (WriteVerbatim " ") ;;
  exec (WriteIdentifier (lt_Label l)).

Definition Tuple_Stringify (exprs : list Expr) : M unit :=
  exec (WriteVerbatim "(") ;;
  stringifyCommaSeparated Stringify exprs ;;
  exec (WriteVerbatim ")").

(** [for i := 0; i < len(ce.conds); i++]: [conds[i]] and [results[i]] in
    step; [results[i]] past the end of [results] panics. *)
Definition CaseExpr_whens : list Expr -> list (M unit) -> M unit :=
  fix loop (conds : list Expr) (results : list (M unit)) : M unit :=
    match conds with
    | [] => ret tt
    | cond :: conds' =>
        exec (WriteVerbatim " WHEN ") ;;
        Stringify cond ;;
        exec (WriteVerbatim " THEN ") ;;
        match results with
        | [] => panic
        | res :: results' => res ;; loop conds' results'
        end
    end.

Definition CaseExpr_Stringify (ce : CaseExpr) : M unit :=
  exec (WriteVerbatim "CASE") ;;
  CaseExpr_whens (c_conds ce) (map Stringify (c_results ce)) ;;
  match c_else_ ce with
  | Some else_ =>
      exec (WriteVerbatim " ELSE ") ;;
      Stringify else_
  | None => ret tt
  end ;;
  exec (WriteVerbatim " END").

Definition Placeholder_Stringify (p : string) : M unit :=
  pos <- call (insertPlaceholder p) ;;
  rendered <- read (fun c => makePlaceholder c p pos) ;;
  exec (WriteVerbatim rendered).

Definition WhereClause_Stringify (Expr_ : Expr) : M unit :=
  exec (WriteVerbatim "WHERE ") ;;
  Stringify Expr_.

Definition GroupByClause_Stringify (exprs : list Expr) : M unit :=
  exec (WriteVerbatim "GROUP BY ") ;;
  stringifyCommaSeparated Stringify exprs.

Definition HavingClause_Stringify (Expr_ : Expr) : M unit :=
  exec (WriteVerbatim "HAVING ") ;;
  Stringify Expr_.

Definition orderbyItem_Stringify (o : orderbyItem) : M unit :=
  Stringify (o_expr o) ;;
  when_ (o_desc o) (exec (WriteVerbatim " DESC")) ;;
  when_ (o_nullsSet o)
    (when_ (o_desc o && o_nullsLast o) (exec (WriteVerbatim " NULLS LAST")) ;;
     when_ (negb (o_desc o) && negb (o_nullsLast o))
       (exec (WriteVerbatim " NULLS FIRST"))).

Definition OrderByClause_Stringify (items : list orderbyItem) : M unit :=
  exec (WriteVerbatim "ORDER BY ") ;;
  stringifyCommaSeparated orderbyItem_Stringify items.

Definition LimitClause_Stringify (Expr_ : Expr) : M unit :=
  exec (WriteVerbatim "LIMIT ") ;;
  Stringify Expr_.

Definition OffsetClause_Stringify (Expr_ : Expr) : M unit :=
  exec (WriteVerbatim "OFFSET ") ;;
  Stringify Expr_.

(** [if clause != nil { c.WriteVerbatim(" "); clause.Stringify(c) }] *)
Definition clause {A} (str : A -> M unit) (cl : option A) : M unit :=
  match cl with
  | Some x => exec (WriteVerbatim " ") ;; str x
  | None => ret tt
  end.

Definition SelectStmt_Stringify_body (s : SelectStmt) : M unit :=
  exec (WriteVerbatim "SELECT ") ;;
  match s_Columns s with
  | [] => panic
  | col0 :: rest =>
      LabeledColumn_Stringify col0 ;;
      forEach (fun se => exec (WriteVerbatim ",") ;; LabeledColumn_Stringify se)
        rest ;;
      clause FromClause_Stringify (s_FromClause s) ;;
      clause WhereClause_Stringify (s_WhereClause s) ;;
      clause GroupByClause_Stringify (s_GroupByClause s) ;;
      clause HavingClause_Stringify (s_HavingClause s) ;;
      clause OrderByClause_Stringify (s_OrderByClause s) ;;
      clause LimitClause_Stringify (s_LimitClause s) ;;
      clause OffsetClause_Stringify (s_OffsetClause s)
  end.

Definition FromClauseItem_Stringify_body (f : FromClauseItem) : M unit :=
  match fci_TableRef f with
  | Some TableRef => LabeledTable_Stringify TableRef
  | None =>
      match fci_Subquery f with
      | Some Subquery => LabeledSelectStmt_Stringify Subquery
      | None =>
          match fci_JoinClause f with
          | Some JoinClause_ => JoinClause_Stringify JoinClause_
          | None => fail ErrUnknownFromClauseItem
          end
      end
  end.

(** operator.go *)

(** The closure [write] of [UnaryOperator.Stringify]. *)
Definition UnaryOperator_write (u : UnaryOperator) (associativity_ : Associativity)
           (e : Expr) (needParen : bool) : M unit :=
  when_ (associativity_ =? RightAssociative)
    (exec (WriteVerbatim (u_Symbol u ++ " "))) ;;
  (if needParen then stringifyParen e else Stringify e) ;;
  when_ (associativity_ =? LeftAssociative)
    (exec (WriteVerbatim (" " ++ u_Symbol u))).

Definition UnaryOperator_Stringify (u : UnaryOperator) : M unit :=
  associativity_ <- query (resolveOperatorAssociativity (opUnary u)) ;;
  if associativity_ =? NonAssociative then fail ErrNonAssociative
  else
    ourPrecedence <- query (resolveOperatorPrecedence (opUnary u)) ;;
    match asOperator (u_Expr u) with
    | None => UnaryOperator_write u associativity_ (u_Expr u) false
    | Some v =>
        theirPrecedence <- query (resolveOperatorPrecedence v) ;;
        if theirPrecedence <? ourPrecedence
        then UnaryOperator_write u associativity_ (u_Expr u) true
        else UnaryOperator_write u associativity_ (u_Expr u) false
    end.

(** The closure [handleSide] of [BinaryOperator.Stringify]. *)
Definition BinaryOperator_handleSide (assoc : Associativity) (ourPrecedence : N)
           (e : Expr) (targetAssoc : Associativity) : M unit :=
  match asOperator e with
  | None => Stringify e
  | Some op =>
      theirPrecedence <- query (resolveOperatorPrecedence op) ;;
      let needParen :=
        ((assoc =? NonAssociative) && (theirPrecedence <=? ourPrecedence))
        || (negb (assoc =? NonAssociative)
            && ((theirPrecedence <? ourPrecedence)
                || ((theirPrecedence =? ourPrecedence) && (assoc =? targetAssoc)))) in
      if needParen then stringifyParen e else Stringify e
  end.

Definition BinaryOperator_Stringify (b : BinaryOperator) : M unit :=
  assoc <- query (resolveOperatorAssociativity (opBinary b)) ;;
  ourPrecedence <- query (resolveOperatorPrecedence (opBinary b)) ;;
  BinaryOperator_handleSide assoc ourPrecedence (b_Left b) RightAssociative ;;
  (if b_SuppressSpace b then exec (WriteVerbatim (b_Symbol b))
   else exec (WriteVerbatim (" " ++ b_Symbol b ++ " "))) ;;
  BinaryOperator_handleSide assoc ourPrecedence (b_Right b) LeftAssociative.

(** The closure [handleExpr] of [TernaryOperator.Stringify]. *)
Definition TernaryOperator_handleExpr (ourPrecedence : N) (e : Expr) : M unit :=
  match asOperator e with
  | None => Stringify e
  | Some op =>
      theirPrecedence <- query (resolveOperatorPrecedence op) ;;
      let needParen := theirPrecedence <=? ourPrecedence in
      if needParen then stringifyParen e else Stringify e
  end.

Definition TernaryOperator_Stringify (t : TernaryOperator) : M unit :=
  ourPrecedence <- query (resolveOperatorPrecedence (opTernary t)) ;;
  TernaryOperator_handleExpr ourPrecedence (t_Expr1 t) ;;
  exec (WriteVerbatim (" " ++ t_Symbol1 t ++ " ")) ;;
  TernaryOperator_handleExpr ourPrecedence (t_Expr2 t) ;;
  exec (WriteVerbatim (" " ++ t_Symbol2 t ++ " ")) ;;
  TernaryOperator_handleExpr ourPrecedence (t_Expr3 t).

End StringifyMethods.

Fixpoint Stringify (n : Node) {struct n} : M unit :=
  match n with
  | NSQLType s => SQLType_Stringify s
  | NCastExpr ce => CastExpr_Stringify Stringify ce
  | NFuncExpr f => FuncExpr_Stringify Stringify f
  | NFromClause f => FromClause_Stringify FromClauseItem_Stringify f
  | NJoinClause j => JoinClause_Stringify Stringify FromClauseItem_Stringify j
  | NLabeledSelectStmt l => LabeledSelectStmt_Stringify SelectStmt_Stringify l
  | NColumn col => Column_Stringify col
  | NLabeledColumn l => LabeledColumn_Stringify Stringify l
  | NTable t => Table_Stringify t
  | NLabeledTable l => LabeledTable_Stringify l
  | NFromClauseItem f => FromClauseItem_Stringify f
  | NTuple exprs => Tuple_Stringify Stringify exprs
  | NCaseExpr ce => CaseExpr_Stringify Stringify ce
  | NPlaceholder p => Placeholder_Stringify p
  | NWhereClause e => WhereClause_Stringify Stringify e
  | NGroupByClause exprs => GroupByClause_Stringify Stringify exprs
  | NHavingClause e => HavingClause_Stringify Stringify e
  | NorderbyItem o => orderbyItem_Stringify Stringify o
  | NOrderByClause items => OrderByClause_Stringify Stringify items
  | NLimitClause e => LimitClause_Stringify Stringify e
  | NOffsetClause e => OffsetClause_Stringify Stringify e
  | NSelectStmt s => SelectStmt_Stringify s
  | NUnaryOperator u => UnaryOperator_Stringify Stringify u
  | NBinaryOperator b => BinaryOperator_Stringify Stringify b
  | NTernaryOperator t => TernaryOperator_Stringify Stringify t
  end
with FromClauseItem_Stringify (f : FromClauseItem) {struct f} : M unit :=
  FromClauseItem_Stringify_body Stringify FromClauseItem_Stringify
    SelectStmt_Stringify f
with SelectStmt_Stringify (s : SelectStmt) {struct s} : M unit :=
  SelectStmt_Stringify_body Stringify FromClauseItem_Stringify s.

(** ** grammar.go and operator.go: [Transform]

    As for [Stringify], the method bodies come first.  No [Transform]
    method reads or writes its [*Compiler]; it is only passed along. *)

Section TransformMethods.

Variable Transform : Compiler -> Node -> Node.
Variable FromClauseItem_Transform : Compiler -> FromClauseItem -> FromClauseItem.
Variable SelectStmt_Transform : Compiler -> SelectStmt -> SelectStmt.
Variable c : Compiler.

Definition SQLType_Transform (s : SQLType) : SQLType := s.

Definition CastExpr_Transform (ce : CastExpr) : CastExpr :=
  {| ce_expr := Transform c (ce_expr ce);
     ce_sqlType := SQLType_Transform (ce_sqlType ce) |}.

Definition FuncExpr_Transform (f : FuncExpr) : FuncExpr :=
  {| f_name := f_name f;
     f_args := map (Transform c) (f_args f);
     f_omitParentheses := f_omitParentheses f |}.

Definition FromClause_Transform (f : FromClauseItem) : FromClauseItem :=
  FromClauseItem_Transform c f.

Definition JoinClause_Transform (j : JoinClause) : JoinClause :=
  {| j_joinType := j_joinType j;
     j_left := FromClauseItem_Transform c (j_left j);
     j_right := FromClauseItem_Transform c (j_right j);
     j_on := Transform c (j_on j) |}.

Definition LabeledSelectStmt_Transform (l : LabeledSelectStmt)
  : LabeledSelectStmt :=
  {| ls_SelectStmt := SelectStmt_Transform c (ls_SelectStmt l);
     ls_Label := ls_Label l |}.

Definition Column_Transform (col : Column) : Column := col.

Definition LabeledColumn_Transform (l : LabeledColumn) : LabeledColumn := l.

Definition Table_Transform (t : Table) : Table := t.

Definition LabeledTable_Transform (l : LabeledTable) : LabeledTable := l.

Definition FromClauseItem_Transform_body (f : FromClauseItem) : FromClauseItem :=
  match fci_TableRef f with
  | Some TableRef =>
      mkFromClauseItem (Some (LabeledTable_Transform TableRef))
        (fci_Subquery f) (fci_JoinClause f)
  | None =>
      match fci_Subquery f with
      | Some Subquery =>
          mkFromClauseItem (fci_TableRef f)
            (Some (LabeledSelectStmt_Transform Subquery)) (fci_JoinClause f)
      | None =>
          match fci_JoinClause f with
          | Some JoinClause_ =>
              mkFromClauseItem (fci_TableRef f) (fci_Subquery f)
                (Some (JoinClause_Transform JoinClause_))
          | None => f
          end
      end
  end.

Definition Tuple_Transform (exprs : list Expr) : list Expr :=
  map (Transform c) exprs.

Definition CaseExpr_Transform (ce : CaseExpr) : CaseExpr :=
  {| c_conds := map (Transform c) (c_conds ce);
     c_results := map (Transform c) (c_results ce);
     c_else_ :=
       match c_else_ ce with
       | Some else_ => Some (Transform c else_)
       | None => None
       end |}.

Definition WhereClause_Transform (Expr_ : Expr) : Expr := Transform c Expr_.

Definition GroupByClause_Transform (exprs : list Expr) : list Expr :=
  map (Transform c) exprs.

Definition HavingClause_Transform (Expr_ : Expr) : Expr := Transform c Expr_.

Definition orderbyItem_Transform (o : orderbyItem) : orderbyItem :=
  {| o_expr := Transform c (o_expr o);
     o_desc := o_desc o;
     o_nullsSet := o_nullsSet o;
     o_nullsLast := o_nullsLast o |}.

Definition OrderByClause_Transform (items : list orderbyItem)
  : list orderbyItem :=
  map orderbyItem_Transform items.

Definition LimitClause_Transform (Expr_ : Expr) : Expr := Transform c Expr_.

Definition OffsetClause_Transform (Expr_ : Expr) : Expr := Transform c Expr_.

Definition SelectStmt_Transform_body (s : SelectStmt) : SelectStmt :=
  mkSelectStmt
    (map LabeledColumn_Transform (s_Columns s))
    (option_map FromClause_Transform (s_FromClause s))
    (option_map WhereClause_Transform (s_WhereClause s))
    (option_map GroupByClause_Transform (s_GroupByClause s))
    (option_map HavingClause_Transform (s_HavingClause s))
    (option_map OrderByClause_Transform (s_OrderByClause s))
    (option_map LimitClause_Transform (s_LimitClause s))
    (option_map OffsetClause_Transform (s_OffsetClause s)).

(** operator.go *)

Definition UnaryOperator_setExpr (u : UnaryOperator) (e : Expr) : UnaryOperator :=
  {| u_Type := u_Type u;
     u_Symbol := u_Symbol u;
     u_NegatedType := u_NegatedType u;
     u_NegatedSymbol := u_NegatedSymbol u;
     u_Expr := e;
     u_CustomPrecedence := u_CustomPrecedence u;
     u_CustomAssociativity := u_CustomAssociativity u |}.

(** The last two statements of [UnaryOperator.Transform]. *)
Definition UnaryOperator_Transform_keep (u : UnaryOperator) : Node :=
  NUnaryOperator (UnaryOperator_setExpr u (Transform c (u_Expr u))).

Definition UnaryOperator_Transform (u : UnaryOperator) : Node :=
  if isNot u then
    match asOperator (u_Expr u) with
    | Some v =>
        if negatable v then Transform c (negate v)
        else UnaryOperator_Transform_keep u
    | None => UnaryOperator_Transform_keep u
    end
  else UnaryOperator_Transform_keep u.

Definition BinaryOperator_Transform (b : BinaryOperator) : BinaryOperator :=
  {| b_Type := b_Type b;
     b_Symbol := b_Symbol b;
     b_NegatedType := b_NegatedType b;
     b_NegatedSymbol := b_NegatedSymbol b;
     b_Left := Transform c (b_Left b);
     b_Right := Transform c (b_Right b);
     b_CustomPrecedence := b_CustomPrecedence b;
     b_CustomAssociativity := b_CustomAssociativity b;
     b_SuppressSpace := b_SuppressSpace b |}.

Definition TernaryOperator_Transform (t : TernaryOperator) : TernaryOperator :=
  {| t_Type := t_Type t;
     t_Symbol1 := t_Symbol1 t;
     t_Symbol2 := t_Symbol2 t;
     t_NegatedType := t_NegatedType t;
     t_NegatedSymbol1 := t_NegatedSymbol1 t;
     t_NegatedSymbol2 := t_NegatedSymbol2 t;
     t_Expr1 := Transform c (t_Expr1 t);
     t_Expr2 := Transform c (t_Expr2 t);
     t_Expr3 := Transform c (t_Expr3 t);
     t_CustomPrecedence := t_CustomPrecedence t;
     t_CustomAssociativity := t_CustomAssociativity t |}.

(** Dynamic dispatch of [n.Transform(c)] on the type of [n]. *)
Definition Transform_dispatch (n : Node) : Node :=
  match n with
  | NSQLType s => NSQLType (SQLType_Transform s)
  | NCastExpr ce => NCastExpr (CastExpr_Transform ce)
  | NFuncExpr f => NFuncExpr (FuncExpr_Transform f)
  | NFromClause f => NFromClause (FromClause_Transform f)
  | NJoinClause j => NJoinClause (JoinClause_Transform j)
  | NLabeledSelectStmt l => NLabeledSelectStmt (LabeledSelectStmt_Transform l)
  | NColumn col => NColumn (Column_Transform col)
  | NLabeledColumn l => NLabeledColumn (LabeledColumn_Transform l)
  | NTable t => NTable (Table_Transform t)
  | NLabeledTable l => NLabeledTable (LabeledTable_Transform l)
  | NFromClauseItem f => NFromClauseItem (FromClauseItem_Transform c f)
  | NTuple exprs => NTuple (Tuple_Transform exprs)
  | NCaseExpr ce => NCaseExpr (CaseExpr_Transform ce)
  | NPlaceholder p => NPlaceholder p
  | NWhereClause e => NWhereClause (WhereClause_Transform e)
  | NGroupByClause exprs => NGroupByClause (GroupByClause_Transform exprs)
  | NHavingClause e => NHavingClause (HavingClause_Transform e)
  | NorderbyItem o => NorderbyItem (orderbyItem_Transform o)
  | NOrderByClause items => NOrderByClause (OrderByClause_Transform items)
  | NLimitClause e => NLimitClause (LimitClause_Transform e)
  | NOffsetClause e => NOffsetClause (OffsetClause_Transform e)
  | NSelectStmt s => NSelectStmt (SelectStmt_Transform c s)
  | NUnaryOperator u => UnaryOperator_Transform u
  | NBinaryOperator b => NBinaryOperator (BinaryOperator_Transform b)
  | NTernaryOperator t => NTernaryOperator (TernaryOperator_Transform t)
  end.

End TransformMethods.

(** [UnaryOperator.Transform] calls [Transform] on [v.negate()], which is
    not a part of the receiver, so the recursion is bounded by a count of
    nested calls; [Transform] below supplies a bound that always suffices. *)
Fixpoint TransformN (fuel : nat) (c : Compiler) (n : Node) {struct fuel} : Node :=
  match fuel with
  | O => n
  | S k =>
      Transform_dispatch (TransformN k) (FromClauseItem_TransformN k)
        (SelectStmt_TransformN k) c n
  end
with FromClauseItem_TransformN (fuel : nat) (c : Compiler) (f : FromClauseItem)
       {struct fuel} : FromClauseItem :=
  match fuel with
  | O => f
  | S k =>
      FromClauseItem_Transform_body (TransformN k) (FromClauseItem_TransformN k)
        (SelectStmt_TransformN k) c f
  end
with SelectStmt_TransformN (fuel : nat) (c : Compiler) (s : SelectStmt)
       {struct fuel} : SelectStmt :=
  match fuel with
  | O => s
  | S k =>
      SelectStmt_Transform_body (TransformN k) (FromClauseItem_TransformN k) c s
  end.

(** The number of nodes of a tree: a bound on the nesting of [Transform]
    calls. *)
Definition optSize {A} (sz : A -> nat) (o : option A) : nat :=
  match o with Some x => sz x | None => O end.

Definition listSize {A} (sz : A -> nat) (l : list A) : nat :=
  list_sum (map sz l).

Fixpoint size (n : Node) {struct n} : nat :=
  match n with
  | NSQLType _ => 1
  | NCastExpr ce => S (size (ce_expr ce))
  | NFuncExpr f => S (listSize size (f_args f))
  | NFromClause f => S (FromClauseItem_size f)
  | NJoinClause j =>
      S (FromClauseItem_size (j_left j) + FromClauseItem_size (j_right j)
         + size (j_on j))
  | NLabeledSelectStmt l => S (SelectStmt_size (ls_SelectStmt l))
  | NColumn _ => 1
  | NLabeledColumn l => S (size (lc_Expr l))
  | NTable _ => 1
  | NLabeledTable _ => 1
  | NFromClauseItem f => S (FromClauseItem_size f)
  | NTuple exprs => S (listSize size exprs)
  | NCaseExpr ce =>
      S (listSize size (c_conds ce) + listSize size (c_results ce)
         + optSize size (c_else_ ce))
  | NPlaceholder _ => 1
  | NWhereClause e => S (size e)
  | NGroupByClause exprs => S (listSize size exprs)
  | NHavingClause e => S (size e)
  | NorderbyItem o => S (size (o_expr o))
  | NOrderByClause items => S (listSize (fun o => S (size (o_expr o))) items)
  | NLimitClause e => S (size e)
  | NOffsetClause e => S (size e)
  | NSelectStmt s => S (SelectStmt_size s)
  | NUnaryOperator u => S (size (u_Expr u))
  | NBinaryOperator b => S (size (b_Left b) + size (b_Right b))
  | NTernaryOperator t => S (size (t_Expr1 t) + size (t_Expr2 t) + size (t_Expr3 t))
  end
with FromClauseItem_size (f : FromClauseItem) {struct f} : nat :=
  match f with
  | mkFromClauseItem _ sq jc =>
      S (optSize (fun l => S (SelectStmt_size (ls_SelectStmt l))) sq
         + optSize (fun j => S (FromClauseItem_size (j_left j)
                                + FromClauseItem_size (j_right j)
                                + size (j_on j))) jc)
  end
with SelectStmt_size (s : SelectStmt) {struct s} : nat :=
  match s with
  | mkSelectStmt cols f w g h o l off =>
      S (listSize (fun lc => S (size (lc_Expr lc))) cols
         + optSize FromClauseItem_size f
         + optSize size w
         + optSize (listSize size) g
         + optSize size h
         + optSize (listSize (fun o => S (size (o_expr o)))) o
         + optSize size l
         + optSize size off)
  end.

(** [n.Transform(c)]: the bound is the size of [n], which is never used up;
    [Transform_eq] below gives back the equations of the source. *)
Definition Transform (c : Compiler) (n : Node) : Node :=
  TransformN (size n) c n.

Definition FromClauseItem_Transform (c : Compiler) (f : FromClauseItem)
  : FromClauseItem :=
  FromClauseItem_TransformN (FromClauseItem_size f) c f.

Definition SelectStmt_Transform (c : Compiler) (s : SelectStmt) : SelectStmt :=
  SelectStmt_TransformN (SelectStmt_size s) c s.

Arguments Transform : simpl never.
Arguments FromClauseItem_Transform : simpl never.
Arguments SelectStmt_Transform : simpl never.

(** ** operator.go and grammar.go: constructors

    A struct literal leaves the fields it does not name at their zero
    value. *)

Definition unaryOperator (ty : OperatorType) (sym : string)
           (nty : OperatorType) (nsym : string) (e : Expr) : UnaryOperator :=
  {| u_Type := ty; u_Symbol := sym; u_NegatedType := nty;
     u_NegatedSymbol := nsym; u_Expr := e;
     u_CustomPrecedence := 0; u_CustomAssociativity := 0 |}.

Definition binaryOperator (ty : OperatorType) (sym : string)
           (nty : OperatorType) (nsym : string) (l r : Expr) : BinaryOperator :=
  {| b_Type := ty; b_Symbol := sym; b_NegatedType := nty;
     b_NegatedSymbol := nsym; b_Left := l; b_Right := r;
     b_CustomPrecedence := 0; b_CustomAssociativity := 0;
     b_SuppressSpace := false |}.

Definition ternaryOperator (ty : OperatorType) (sym1 sym2 : string)
           (nty : OperatorType) (nsym1 nsym2 : string) (e1 e2 e3 : Expr)
  : TernaryOperator :=
  {| t_Type := ty; t_Symbol1 := sym1; t_Symbol2 := sym2;
     t_NegatedType := nty; t_NegatedSymbol1 := nsym1; t_NegatedSymbol2 := nsym2;
     t_Expr1 := e1; t_Expr2 := e2; t_Expr3 := e3;
     t_CustomPrecedence := 0; t_CustomAssociativity := 0 |}.

Definition Not (e : Expr) : UnaryOperator := unaryOperator OpNot "NOT" 0 "" e.
Definition IsNull (e : Expr) : UnaryOperator :=
  unaryOperator OpIsNull "IS NULL" OpIsNotNull "IS NOT NULL" e.
Definition IsNotNull (e : Expr) : UnaryOperator :=
  unaryOperator OpIsNotNull "IS NOT NULL" OpIsNull "IS NULL" e.
Definition IsTrue (e : Expr) : UnaryOperator :=
  unaryOperator OpIsTrue "IS TRUE" OpIsNotTrue "IS NOT TRUE" e.
Definition IsNotTrue (e : Expr) : UnaryOperator :=
  unaryOperator OpIsNotTrue "IS NOT TRUE" OpIsTrue "IS TRUE" e.

Definition And (l r : Expr) : BinaryOperator := binaryOperator OpAnd "AND" 0 "" l r.
Definition Or (l r : Expr) : BinaryOperator := binaryOperator OpOr "OR" 0 "" l r.
Definition Add (l r : Expr) : BinaryOperator := binaryOperator OpAdd "+" 0 "" l r.
Definition Sub (l r : Expr) : BinaryOperator := binaryOperator OpSub "-" 0 "" l r.
Definition Mul (l r : Expr) : BinaryOperator := binaryOperator OpMul "*" 0 "" l r.
Definition Eq (l r : Expr) : BinaryOperator :=
  binaryOperator OpEq "=" OpNotEq "<>" l r.
Definition NotEq (l r : Expr) : BinaryOperator :=
  binaryOperator OpNotEq "<>" OpEq "=" l r.
Definition In (l r : Expr) : BinaryOperator :=
  binaryOperator OpIn "IN" OpNotIn "NOT IN" l r.
Definition NotIn (l r : Expr) : BinaryOperator :=
  binaryOperator OpNotIn "NOT IN" OpIn "IN" l r.

Definition Between (e1 e2 e3 : Expr) : TernaryOperator :=
  ternaryOperator OpBetween "BETWEEN" "AND" OpNotBetween "NOT BETWEEN" "AND"
    e1 e2 e3.
Definition NotBetween (e1 e2 e3 : Expr) : TernaryOperator :=
  ternaryOperator OpNotBetween "NOT BETWEEN" "AND" OpBetween "BETWEEN" "AND"
    e1 e2 e3.

Definition Desc (expr : Expr) : orderbyItem :=
  {| o_expr := expr; o_desc := true; o_nullsSet := false; o_nullsLast := false |}.

Definition Asc (expr : Expr) : orderbyItem :=
  {| o_expr := expr; o_desc := false; o_nullsSet := false; o_nullsLast := false |}.

Definition NullsLast (o : orderbyItem) : orderbyItem :=
  {| o_expr := o_expr o; o_desc := o_desc o; o_nullsSet := true;
     o_nullsLast := true |}.

Definition NullsFirst (o : orderbyItem) : orderbyItem :=
  {| o_expr := o_expr o; o_desc := o_desc o; o_nullsSet := true;
     o_nullsLast := false |}.

(** * Definitions used in the statements *)

Unset Implicit Arguments.

(** ** The rewrite pass *)

(** The test of [UnaryOperator.Transform] on the child of a NOT. *)
Definition collapsible (e : Expr) : bool :=
  match asOperator e with
  | Some v => negatable v
  | None => false
  end.

(** The fields of an operator, by arity, used to state what [negate]
    swaps and what it keeps. *)
Definition operatorSymbols (op : operator) : list string :=
  match op with
  | opUnary u => [u_Symbol u]
  | opBinary b => [b_Symbol b]
  | opTernary t => [t_Symbol1 t; t_Symbol2 t]
  end.

Definition operatorNegatedSymbols (op : operator) : list string :=
  match op with
  | opUnary u => [u_NegatedSymbol u]
  | opBinary b => [b_NegatedSymbol b]
  | opTernary t => [t_NegatedSymbol1 t; t_NegatedSymbol2 t]
  end.

Definition operatorNegatedType (op : operator) : OperatorType :=
  match op with
  | opUnary u => u_NegatedType u
  | opBinary b => b_NegatedType b
  | opTernary t => t_NegatedType t
  end.

Definition operatorChildren (op : operator) : list Expr :=
  match op with
  | opUnary u => [u_Expr u]
  | opBinary b => [b_Left b; b_Right b]
  | opTernary t => [t_Expr1 t; t_Expr2 t; t_Expr3 t]
  end.

Definition isLogicalNot (op : operator) : bool :=
  match op with
  | opUnary u => isNot u
  | _ => false
  end.

(** ** The output context during a print pass *)

Definition sameDialect (c c' : Compiler) : Prop :=
  precedenceTable c' = precedenceTable c
  /\ associativityTable c' = associativityTable c
  /\ quoteIdentifier c' = quoteIdentifier c
  /\ placeholderRule c' = placeholderRule c.

Definition keepsBindings (c c' : Compiler) : Prop :=
  forall name pos,
    lookupBinding name (bindings c) = Some pos ->
    lookupBinding name (bindings c') = Some pos.

Definition extends (c c' : Compiler) : Prop :=
  sameDialect c c' /\ keepsBindings c c' /\ exists s, buf c' = buf c ++ s.

(** A computation that only appends text and bindings. *)
Definition monotone {A} (m : M A) : Prop :=
  forall c r c', m c = (r, c') -> extends c c'.

(** Two computations that agree from every state that extends [c]. *)
Definition agreeAfter {A} (c : Compiler) (m m' : M A) : Prop :=
  forall c1, extends c c1 -> m c1 = m' c1.

(** ** The rendering rules *)

(** [stringifyParen] or plain [Stringify], by the decision [wrap]. *)
Definition renderChild (wrap : bool) (e : Expr) : M unit :=
  if wrap then stringifyParen Stringify e else Stringify e.

(** The parenthesization decision for a child [e] seen from its parent:
    a child that is not an operator is not wrapped; a child that is an
    operator with resolved precedence [childPrec] is wrapped when
    [decide childPrec] holds; [None] when the child is an operator whose
    precedence cannot be resolved. *)
Definition childWrap (decide : N -> bool) (e : Expr) (c : Compiler) : option bool :=
  match asOperator e with
  | None => Some false
  | Some op =>
      match resolveOperatorPrecedence op c with
      | Ok childPrec => Some (decide childPrec)
      | _ => None
      end
  end.

(** The rule of the specification for the children of a binary operator,
    [tieBreak] being Right for the left child and Left for the right one. *)
Definition binaryNeedsParen (assoc : Associativity) (ownPrec : N)
           (tieBreak : Associativity) (childPrec : N) : bool :=
  ((assoc =? NonAssociative) && (childPrec <=? ownPrec))
  || (negb (assoc =? NonAssociative)
      && ((childPrec <? ownPrec)
          || ((childPrec =? ownPrec) && (assoc =? tieBreak)))).

(** The rule of the specification for the three children of a ternary
    operator. *)
Definition ternaryNeedsParen (ownPrec : N) (childPrec : N) : bool :=
  childPrec <=? ownPrec.

(** The rule of the specification for the operand of a unary operator. *)
Definition unaryNeedsParen (ownPrec : N) (childPrec : N) : bool :=
  childPrec <? ownPrec.

(** The symbol of a binary operator as it is written between the operands. *)
Definition binarySymbolText (b : BinaryOperator) : string :=
  if b_SuppressSpace b then b_Symbol b else " " ++ b_Symbol b ++ " ".

(** The resolution rule of the specification, section 4.2: "the node's own
    override if it is a non-zero value, else the dialect table's entry; if
    neither yields a non-zero value, fail". *)
Definition effectiveValue (own dialect : N) (e : error) : result N :=
  if negb (own =? 0) then Ok own
  else if negb (dialect =? 0) then Ok dialect
  else Err e.

(** The associativity rule in the words of section 4.2: "own override if it
    is one of {Left, Right, NonAssociative}, else dialect table entry, else
    fail". *)
Definition isNamedAssociativity (a : Associativity) : bool :=
  (a =? NonAssociative) || (a =? LeftAssociative) || (a =? RightAssociative).

(** A ternary operator with another associativity override. *)
Definition TernaryOperator_setAssociativity (t : TernaryOperator)
           (a : Associativity) : TernaryOperator :=
  {| t_Type := t_Type t;
     t_Symbol1 := t_Symbol1 t;
     t_Symbol2 := t_Symbol2 t;
     t_NegatedType := t_NegatedType t;
     t_NegatedSymbol1 := t_NegatedSymbol1 t;
     t_NegatedSymbol2 := t_NegatedSymbol2 t;
     t_Expr1 := t_Expr1 t;
     t_Expr2 := t_Expr2 t;
     t_Expr3 := t_Expr3 t;
     t_CustomPrecedence := t_CustomPrecedence t;
     t_CustomAssociativity := a |}.

(** The states of one print pass that come after [c]: those reached by
    rendering nodes one after the other.  Every write of a pass is the
    rendering of some node ([WriteVerbatim s] is that of [NSQLType s]), so
    this covers the states between the steps of a composite node as well. *)
Inductive later (c : Compiler) : Compiler -> Prop :=
| later_refl : later c c
| later_step (c1 c2 : Compiler) (n : Node) (r : result unit) :
    later c c1 -> Stringify n c1 = (r, c2) -> later c c2.

(** A dialect for examples: OR < AND < NOT < comparison < IS < additive,
    identifiers unquoted, placeholders written [:name]. *)
Definition examplePrecedence (t : OperatorType) : N :=
  if t =? OpOr then 1 else if t =? OpAnd then 2 else if t =? OpNot then 3
  else if (t =? OpEq) || (t =? OpNotEq) || (t =? OpBetween) then 4
  else if (t =? OpIsNull) || (t =? OpIsNotNull) then 5
  else if (t =? OpAdd) || (t =? OpSub) then 6
  else 0.

Definition exampleAssociativity (t : OperatorType) : Associativity :=
  if (t =? OpOr) || (t =? OpAnd) || (t =? OpAdd) || (t =? OpSub)
  then LeftAssociative
  else if t =? OpNot then RightAssociative
  else if (t =? OpIsNull) || (t =? OpIsNotNull) then LeftAssociative
  else if (t =? OpEq) || (t =? OpNotEq) then NonAssociative
  else 0.

Definition exampleCompiler : Compiler :=
  {| buf := "";
     precedenceTable := examplePrecedence;
     associativityTable := exampleAssociativity;
     quoteIdentifier := fun s => s;
     placeholderRule := fun name _ => ":" ++ name;
     bindings := [] |}.

Definition column (name : string) : Expr := NColumn (mkColumn "" name).

(** The clauses that follow the select list, in the order of the source. *)
Definition selectClauses (s : SelectStmt) : M unit :=
  clause (FromClause_Stringify FromClauseItem_Stringify) (s_FromClause s) ;;
  clause (WhereClause_Stringify Stringify) (s_WhereClause s) ;;
  clause (GroupByClause_Stringify Stringify) (s_GroupByClause s) ;;
  clause (HavingClause_Stringify Stringify) (s_HavingClause s) ;;
  clause (OrderByClause_Stringify Stringify) (s_OrderByClause s) ;;
  clause (LimitClause_Stringify Stringify) (s_LimitClause s) ;;
  clause (OffsetClause_Stringify Stringify) (s_OffsetClause s).

(** * The rest of the two files *)

(** ** operator.go: the remaining constructors *)

Definition IsFalse (e : Expr) : UnaryOperator :=
  unaryOperator OpIsFalse "IS FALSE" OpIsNotFalse "IS NOT FALSE" e.
Definition IsNotFalse (e : Expr) : UnaryOperator :=
  unaryOperator OpIsNotFalse "IS NOT FALSE" OpIsFalse "IS FALSE" e.

Definition Div (l r : Expr) : BinaryOperator := binaryOperator OpDiv "/" 0 "" l r.
Definition Mod (l r : Expr) : BinaryOperator := binaryOperator OpMod "%" 0 "" l r.
Definition Lt (l r : Expr) : BinaryOperator := binaryOperator OpLt "<" 0 "" l r.
Definition Lte (l r : Expr) : BinaryOperator := binaryOperator OpLte "<=" 0 "" l r.
Definition Gt (l r : Expr) : BinaryOperator := binaryOperator OpGt ">" 0 "" l r.
Definition Gte (l r : Expr) : BinaryOperator := binaryOperator OpGte ">=" 0 "" l r.
Definition Like (l r : Expr) : BinaryOperator :=
  binaryOperator OpLike "LIKE" OpNotLike "NOT LIKE" l r.
Definition NotLike (l r : Expr) : BinaryOperator :=
  binaryOperator OpNotLike "NOT LIKE" OpLike "LIKE" l r.
Definition ILike (l r : Expr) : BinaryOperator :=
  binaryOperator OpILike "ILIKE" OpNotILike "NOT ILIKE" l r.
Definition NotILike (l r : Expr) : BinaryOperator :=
  binaryOperator OpNotILike "NOT ILIKE" OpILike "ILIKE" l r.

(** ** grammar.go: builders *)

(** [MakeTuple], [GroupBy] and [OrderBy] copy [first] and [rest] into one
    slice. *)
Definition MakeTuple (first : Expr) (rest : list Expr) : list Expr :=
  first :: rest.

Definition GroupBy (first : Expr) (rest : list Expr) : list Expr :=
  first :: rest.

Definition OrderBy (first : orderbyItem) (rest : list orderbyItem)
  : list orderbyItem :=
  first :: rest.

Definition Case (cond result : Expr) : CaseExpr :=
  {| c_conds := [cond]; c_results := [result]; c_else_ := None |}.

Definition When (ce : CaseExpr) (cond result : Expr) : CaseExpr :=
  {| c_conds := c_conds ce ++ [cond];
     c_results := c_results ce ++ [result];
     c_else_ := c_else_ ce |}.

Definition Else (ce : CaseExpr) (elseExpr : Expr) : CaseExpr :=
  {| c_conds := c_conds ce;
     c_results := c_results ce;
     c_else_ := Some elseExpr |}.

(** ** grammar.go: generated placeholders

    Go's [int] is the 64-bit signed integer: a [Z] between [minInt] and
    [maxInt], with the wrap-around of [i+1] written out.  [strconv.Itoa] is
    the decimal numeral of the standard library. *)
Definition minInt : Z := (- 2 ^ 63)%Z.
Definition maxInt : Z := (2 ^ 63 - 1)%Z.
Definition isInt (z : Z) : bool := ((minInt <=? z) && (z <=? maxInt))%Z.
Definition wrapInt (z : Z) : Z := ((z - minInt) mod 2 ^ 64 + minInt)%Z.

Definition Itoa (i : Z) : string := NilZero.string_of_int (Z.to_int i).

(** [make([]T, length)] does not return when the runtime cannot allocate
    the slice: it panics with "makeslice: len out of range", or the program
    dies out of memory; both are [Panicked].  The largest length that is
    allocated depends on the platform and on the memory at hand and is the
    parameter [maxLen].  The result is the length of the new slice.

    Only the [make] of [generatePlaceholders] is sized by an argument.  A
    [make] sized by the length of a slice that exists (in
    [makePlaceholderTuple], [MakeTuple], [GroupBy], [OrderBy] and the
    [Stringify] methods) and the allocation of the strings are taken to
    succeed. *)
Definition makeslice (maxLen : Z) (length : Z) : result nat :=
  if ((length <? 0) || (maxLen <? length))%Z then Panicked
  else Ok (Z.to_nat length).

Definition generatePlaceholders (maxLen : Z) (prefix : string) (length : Z)
  : result (list string) :=
  if (length <=? 0)%Z then Err ErrZeroLength
  else
    match makeslice maxLen length with
    | Ok n =>
        Ok (map (fun i => prefix ++ Itoa (wrapInt (Z.of_nat i + 1))) (seq 0 n))
    | Err err => Err err
    | Panicked => Panicked
    end.

Definition makePlaceholderTuple (placeholders : list string) : result Node :=
  match placeholders with
  | [] => Err ErrZeroLength
  | p0 :: rest =>
      Ok (NTuple (MakeTuple (NPlaceholder p0) (map NPlaceholder rest)))
  end.

(** The three results of [PlaceholderTuple]: on an error the two values
    are [nil]. *)
Definition PlaceholderTuple (maxLen : Z) (prefix : string) (length : Z)
  : result (list string * Node) :=
  match generatePlaceholders maxLen prefix length with
  | Ok placeholders =>
      match makePlaceholderTuple placeholders with
      | Ok tuple => Ok (placeholders, tuple)
      | Err err => Err err
      | Panicked => Panicked
      end
  | Err err => Err err
  | Panicked => Panicked
  end.

(** ** Trees that rendering can index safely

    [Stringify] indexes a slice in two places: [s.Columns[0]] in a SELECT
    statement and [ce.results[i]] in a CASE expression.  [indexSafe n] says
    that no SELECT statement in [n] has an empty column list and no CASE
    expression in [n] has fewer results than conditions. *)
Definition optAll {A} (p : A -> bool) (o : option A) : bool :=
  match o with Some x => p x | None => true end.

Fixpoint indexSafe (n : Node) {struct n} : bool :=
  match n with
  | NSQLType _ => true
  | NCastExpr ce => indexSafe (ce_expr ce)
  | NFuncExpr f => forallb indexSafe (f_args f)
  | NFromClause f => FromClauseItem_indexSafe f
  | NJoinClause j =>
      FromClauseItem_indexSafe (j_left j) && FromClauseItem_indexSafe (j_right j)
      && indexSafe (j_on j)
  | NLabeledSelectStmt l => SelectStmt_indexSafe (ls_SelectStmt l)
  | NColumn _ => true
  | NLabeledColumn l => indexSafe (lc_Expr l)
  | NTable _ => true
  | NLabeledTable _ => true
  | NFromClauseItem f => FromClauseItem_indexSafe f
  | NTuple exprs => forallb indexSafe exprs
  | NCaseExpr ce =>
      (List.length (c_conds ce) <=? List.length (c_results ce))%nat
      && forallb indexSafe (c_conds ce)
      && forallb indexSafe (c_results ce)
      && optAll indexSafe (c_else_ ce)
  | NPlaceholder _ => true
  | NWhereClause e => indexSafe e
  | NGroupByClause exprs => forallb indexSafe exprs
  | NHavingClause e => indexSafe e
  | NorderbyItem o => indexSafe (o_expr o)
  | NOrderByClause items => forallb (fun o => indexSafe (o_expr o)) items
  | NLimitClause e => indexSafe e
  | NOffsetClause e => indexSafe e
  | NSelectStmt s => SelectStmt_indexSafe s
  | NUnaryOperator u => indexSafe (u_Expr u)
  | NBinaryOperator b => indexSafe (b_Left b) && indexSafe (b_Right b)
  | NTernaryOperator t =>
      indexSafe (t_Expr1 t) && indexSafe (t_Expr2 t) && indexSafe (t_Expr3 t)
  end
with FromClauseItem_indexSafe (f : FromClauseItem) {struct f} : bool :=
  match f with
  | mkFromClauseItem _ sq jc =>
      optAll (fun l => SelectStmt_indexSafe (ls_SelectStmt l)) sq
      && optAll (fun j => FromClauseItem_indexSafe (j_left j)
                          && FromClauseItem_indexSafe (j_right j)
                          && indexSafe (j_on j)) jc
  end
with SelectStmt_indexSafe (s : SelectStmt) {struct s} : bool :=
  match s with
  | mkSelectStmt cols f w g h o l off =>
      negb (Nat.eqb (List.length cols) 0)
      && forallb (fun lc => indexSafe (lc_Expr lc)) cols
      && optAll FromClauseItem_indexSafe f
      && optAll indexSafe w
      && optAll (forallb indexSafe) g
      && optAll indexSafe h
      && optAll (forallb (fun o => indexSafe (o_expr o))) o
      && optAll indexSafe l
      && optAll indexSafe off
  end.

(** The errors that the [Stringify] methods return. *)
Definition isRenderError (e : error) : bool :=
  match e with
  | ErrNoPrecedence | ErrNoAssociativity | ErrNonAssociative
  | ErrUnknownFromClauseItem => true
  | _ => false
  end.

(** How a call ended when it did not return normally: [Some (Some e)] for
    the error [e], [Some None] for a panic. *)
Definition failure {A} (r : result A) : option (option error) :=
  match r with
  | Ok _ => None
  | Err e => Some (Some e)
  | Panicked => Some None
  end.

(** Every failure of [m], from any context, is one of [F]. *)
Definition failsWithin {A} (F : option error -> Prop) (m : M A) : Prop :=
  forall c f, failure (fst (m c)) = Some f -> F f.

(** Either the tree can be indexed safely or a panic is among [F]. *)
Definition safeOr (F : option error -> Prop) (b : bool) : Prop :=
  b = true \/ F None.

(** ** Rewritten trees

    [canonical n]: at every place of [n] that [Transform] visits, no logical
    NOT has a negatable operator as its child.  [Transform] does not visit
    the expression of a [LabeledColumn], and of a [FromClauseItem] it visits
    the first alternative that is set. *)
Fixpoint canonical (n : Node) {struct n} : bool :=
  match n with
  | NSQLType _ => true
  | NCastExpr ce => canonical (ce_expr ce)
  | NFuncExpr f => forallb canonical (f_args f)
  | NFromClause f => FromClauseItem_canonical f
  | NJoinClause j =>
      FromClauseItem_canonical (j_left j) && FromClauseItem_canonical (j_right j)
      && canonical (j_on j)
  | NLabeledSelectStmt l => SelectStmt_canonical (ls_SelectStmt l)
  | NColumn _ => true
  | NLabeledColumn _ => true
  | NTable _ => true
  | NLabeledTable _ => true
  | NFromClauseItem f => FromClauseItem_canonical f
  | NTuple exprs => forallb canonical exprs
  | NCaseExpr ce =>
      forallb canonical (c_conds ce)
      && forallb canonical (c_results ce)
      && optAll canonical (c_else_ ce)
  | NPlaceholder _ => true
  | NWhereClause e => canonical e
  | NGroupByClause exprs => forallb canonical exprs
  | NHavingClause e => canonical e
  | NorderbyItem o => canonical (o_expr o)
  | NOrderByClause items => forallb (fun o => canonical (o_expr o)) items
  | NLimitClause e => canonical e
  | NOffsetClause e => canonical e
  | NSelectStmt s => SelectStmt_canonical s
  | NUnaryOperator u =>
      negb (isNot u && collapsible (u_Expr u)) && canonical (u_Expr u)
  | NBinaryOperator b => canonical (b_Left b) && canonical (b_Right b)
  | NTernaryOperator t =>
      canonical (t_Expr1 t) && canonical (t_Expr2 t) && canonical (t_Expr3 t)
  end
with FromClauseItem_canonical (f : FromClauseItem) {struct f} : bool :=
  match f with
  | mkFromClauseItem (Some _) _ _ => true
  | mkFromClauseItem None (Some l) _ => SelectStmt_canonical (ls_SelectStmt l)
  | mkFromClauseItem None None (Some j) =>
      FromClauseItem_canonical (j_left j) && FromClauseItem_canonical (j_right j)
      && canonical (j_on j)
  | mkFromClauseItem None None None => true
  end
with SelectStmt_canonical (s : SelectStmt) {struct s} : bool :=
  match s with
  | mkSelectStmt _ f w g h o l off =>
      optAll FromClauseItem_canonical f
      && optAll canonical w
      && optAll (forallb canonical) g
      && optAll canonical h
      && optAll (forallb (fun o => canonical (o_expr o))) o
      && optAll canonical l
      && optAll canonical off
  end.

(** What a rewrite keeps of a tree [n] in its result [r]: [r] is not larger,
    it can be indexed safely exactly when [n] can, and it is canonical. *)
Definition rewrittenFrom (sz : nat) (safe : bool) (sz' : nat) (safe' canon' : bool)
  : Prop :=
  (sz' <= sz)%nat /\ safe' = safe /\ canon' = true.

(** [k] logical NOTs stacked on [e]. *)
Fixpoint Nots (k : nat) (e : Expr) : Expr :=
  match k with
  | O => e
  | S k' => NUnaryOperator (Not (Nots k' e))
  end.

(** The operator [op] with the space-suppression flag of a binary operator
    unset. *)
Definition clearSuppressSpace (op : operator) : operator :=
  match op with
  | opBinary b =>
      opBinary
        {| b_Type := b_Type b; b_Symbol := b_Symbol b;
           b_NegatedType := b_NegatedType b;
           b_NegatedSymbol := b_NegatedSymbol b;
           b_Left := b_Left b; b_Right := b_Right b;
           b_CustomPrecedence := b_CustomPrecedence b;
           b_CustomAssociativity := b_CustomAssociativity b;
           b_SuppressSpace := false |}
  | _ => op
  end.

(** A computation whose outcome is decided by the dialect of the context,
    not by the text written or the placeholders bound so far, and that
    leaves the dialect as it is. *)
Definition steady {A} (m : M A) : Prop :=
  forall c1 c2, sameDialect c1 c2 ->
    fst (m c1) = fst (m c2) /\ sameDialect c1 (snd (m c2)).

(** * Properties *)

(** ** The recursion bound of [Transform] *)

Lemma listSize_In {A} (sz : A -> nat) (l : list A) (x : A) :
  List.In x l -> (sz x <= listSize sz l)%nat.
Proof.
  unfold listSize. induction l as [|y l IH]; simpl; intros H.
  - contradiction.
  - destruct H as [->|H]; [lia | specialize (IH H); lia].
Qed.

Lemma size_pos (n : Node) : (1 <= size n)%nat.
Proof. destruct n; simpl; lia. Qed.

Lemma FromClauseItem_size_pos (f : FromClauseItem) : (1 <= FromClauseItem_size f)%nat.
Proof. destruct f; simpl; lia. Qed.

Lemma SelectStmt_size_pos (s : SelectStmt) : (1 <= SelectStmt_size s)%nat.
Proof. destruct s; simpl; lia. Qed.

(** [negate] never grows the tree. *)
Lemma size_negate (e : Expr) (v : operator) :
  asOperator e = Some v -> (size (negate v) <= size e)%nat.
Proof.
  destruct e; simpl; try discriminate; intros [= <-]; simpl.
  - destruct (isNot u); simpl; lia.
  - lia.
  - lia.
Qed.

Section TransformExt.

Variables (T1 T2 : Compiler -> Node -> Node).
Variables (F1 F2 : Compiler -> FromClauseItem -> FromClauseItem).
Variables (S1 S2 : Compiler -> SelectStmt -> SelectStmt).
Variable c : Compiler.
Variable k : nat.
Hypothesis HT : forall n, (size n <= k)%nat -> T1 c n = T2 c n.
Hypothesis HF : forall f, (FromClauseItem_size f <= k)%nat -> F1 c f = F2 c f.
Hypothesis HS : forall s, (SelectStmt_size s <= k)%nat -> S1 c s = S2 c s.

Lemma map_Transform_ext (l : list Node) :
  (listSize size l <= k)%nat -> map (T1 c) l = map (T2 c) l.
Proof.
  intros Hl. apply map_ext_in. intros x Hx. apply HT.
  pose proof (listSize_In size l x Hx). lia.
Qed.

Lemma map_orderbyItem_Transform_ext (l : list orderbyItem) :
  (listSize (fun o => S (size (o_expr o))) l <= k)%nat ->
  map (orderbyItem_Transform T1 c) l = map (orderbyItem_Transform T2 c) l.
Proof.
  intros Hl. apply map_ext_in. intros x Hx.
  pose proof (listSize_In (fun o => S (size (o_expr o))) l x Hx) as Hle.
  simpl in Hle. unfold orderbyItem_Transform. f_equal. apply HT. lia.
Qed.

Lemma JoinClause_Transform_ext (j : JoinClause) :
  (FromClauseItem_size (j_left j) + FromClauseItem_size (j_right j)
   + size (j_on j) <= k)%nat ->
  JoinClause_Transform T1 F1 c j = JoinClause_Transform T2 F2 c j.
Proof.
  intros H. unfold JoinClause_Transform.
  rewrite (HF (j_left j)), (HF (j_right j)), (HT (j_on j)) by lia.
  reflexivity.
Qed.

Lemma FromClauseItem_Transform_body_ext (f : FromClauseItem) :
  (FromClauseItem_size f <= S k)%nat ->
  FromClauseItem_Transform_body T1 F1 S1 c f
  = FromClauseItem_Transform_body T2 F2 S2 c f.
Proof.
  destruct f as [t sq jc]; simpl; intros H.
  unfold FromClauseItem_Transform_body; simpl.
  destruct t as [t|]; [reflexivity|].
  destruct sq as [l|]; simpl in H.
  - unfold LabeledSelectStmt_Transform. rewrite HS by lia. reflexivity.
  - destruct jc as [j|]; [|reflexivity]. simpl in H.
    rewrite JoinClause_Transform_ext by lia. reflexivity.
Qed.

Lemma SelectStmt_Transform_body_ext (s : SelectStmt) :
  (SelectStmt_size s <= S k)%nat ->
  SelectStmt_Transform_body T1 F1 c s = SelectStmt_Transform_body T2 F2 c s.
Proof.
  destruct s as [cols f w g h o l off]; simpl; intros H.
  unfold SelectStmt_Transform_body; simpl.
  f_equal.
  - destruct f as [f|]; simpl in *; [|reflexivity].
    unfold FromClause_Transform. rewrite HF by lia. reflexivity.
  - destruct w as [w|]; simpl in *; [|reflexivity].
    unfold WhereClause_Transform. rewrite HT by lia. reflexivity.
  - destruct g as [g|]; simpl in *; [|reflexivity].
    unfold GroupByClause_Transform. rewrite map_Transform_ext by lia. reflexivity.
  - destruct h as [h|]; simpl in *; [|reflexivity].
    unfold HavingClause_Transform. rewrite HT by lia. reflexivity.
  - destruct o as [o|]; simpl in *; [|reflexivity].
    unfold OrderByClause_Transform.
    rewrite map_orderbyItem_Transform_ext by lia. reflexivity.
  - destruct l as [l|]; simpl in *; [|reflexivity].
    unfold LimitClause_Transform. rewrite HT by lia. reflexivity.
  - destruct off as [off|]; simpl in *; [|reflexivity].
    unfold OffsetClause_Transform. rewrite HT by lia. reflexivity.
Qed.

Lemma UnaryOperator_Transform_ext (u : UnaryOperator) :
  (size (u_Expr u) <= k)%nat ->
  UnaryOperator_Transform T1 c u = UnaryOperator_Transform T2 c u.
Proof.
  intros H. unfold UnaryOperator_Transform, UnaryOperator_Transform_keep.
  rewrite (HT (u_Expr u)) by lia.
  destruct (isNot u); [|reflexivity].
  destruct (asOperator (u_Expr u)) as [v|] eqn:Hv; [|reflexivity].
  destruct (negatable v); [|reflexivity].
  apply HT. pose proof (size_negate _ _ Hv). lia.
Qed.

Lemma Transform_dispatch_ext (n : Node) :
  (size n <= S k)%nat ->
  Transform_dispatch T1 F1 S1 c n = Transform_dispatch T2 F2 S2 c n.
Proof.
  destruct n; simpl; intros H; try reflexivity.
  - unfold CastExpr_Transform. rewrite HT by lia. reflexivity.
  - unfold FuncExpr_Transform. rewrite map_Transform_ext by lia. reflexivity.
  - unfold FromClause_Transform. rewrite HF by lia. reflexivity.
  - rewrite JoinClause_Transform_ext by lia. reflexivity.
  - unfold LabeledSelectStmt_Transform. rewrite HS by lia. reflexivity.
  - rewrite HF by lia. reflexivity.
  - unfold Tuple_Transform. rewrite map_Transform_ext by lia. reflexivity.
  - unfold CaseExpr_Transform.
    rewrite (map_Transform_ext (c_conds ce)), (map_Transform_ext (c_results ce))
      by lia.
    destruct (c_else_ ce) as [e|]; simpl in H; [|reflexivity].
    rewrite HT by lia. reflexivity.
  - unfold WhereClause_Transform. rewrite HT by lia. reflexivity.
  - unfold GroupByClause_Transform. rewrite map_Transform_ext by lia. reflexivity.
  - unfold HavingClause_Transform. rewrite HT by lia. reflexivity.
  - unfold orderbyItem_Transform. rewrite HT by lia. reflexivity.
  - unfold OrderByClause_Transform.
    rewrite map_orderbyItem_Transform_ext by lia. reflexivity.
  - unfold LimitClause_Transform. rewrite HT by lia. reflexivity.
  - unfold OffsetClause_Transform. rewrite HT by lia. reflexivity.
  - rewrite HS by lia. reflexivity.
  - apply UnaryOperator_Transform_ext. lia.
  - unfold BinaryOperator_Transform.
    rewrite (HT (b_Left b)), (HT (b_Right b)) by lia. reflexivity.
  - unfold TernaryOperator_Transform.
    rewrite (HT (t_Expr1 t)), (HT (t_Expr2 t)), (HT (t_Expr3 t)) by lia.
    reflexivity.
Qed.

End TransformExt.

(** Any two bounds that are at least the size of the tree give the same
    result. *)
Lemma TransformN_enough (c : Compiler) (k1 : nat) :
  forall k2,
    (forall n, (size n <= k1)%nat -> (size n <= k2)%nat ->
               TransformN k1 c n = TransformN k2 c n)
    /\ (forall f, (FromClauseItem_size f <= k1)%nat ->
                  (FromClauseItem_size f <= k2)%nat ->
                  FromClauseItem_TransformN k1 c f = FromClauseItem_TransformN k2 c f)
    /\ (forall s, (SelectStmt_size s <= k1)%nat -> (SelectStmt_size s <= k2)%nat ->
                  SelectStmt_TransformN k1 c s = SelectStmt_TransformN k2 c s).
Proof.
  induction k1 as [|k1 IH]; intros k2.
  - repeat split.
    + intros n H. pose proof (size_pos n). lia.
    + intros f H. pose proof (FromClauseItem_size_pos f). lia.
    + intros s H. pose proof (SelectStmt_size_pos s). lia.
  - destruct k2 as [|k2].
    + repeat split.
      * intros n _ H. pose proof (size_pos n). lia.
      * intros f _ H. pose proof (FromClauseItem_size_pos f). lia.
      * intros s _ H. pose proof (SelectStmt_size_pos s). lia.
    + destruct (IH k2) as (IHn & IHf & IHs).
      repeat split; intros x H1 H2; simpl.
      * apply Transform_dispatch_ext with (k := Nat.min k1 k2); intros; try lia;
          [apply IHn | apply IHf | apply IHs]; lia.
      * apply FromClauseItem_Transform_body_ext with (k := Nat.min k1 k2);
          intros; try lia; [apply IHn | apply IHf | apply IHs]; lia.
      * apply SelectStmt_Transform_body_ext with (k := Nat.min k1 k2);
          intros; try lia; [apply IHn | apply IHf]; lia.
Qed.

Lemma TransformN_Transform (c : Compiler) (k : nat) (n : Node) :
  (size n <= k)%nat -> TransformN k c n = Transform c n.
Proof.
  intros H. unfold Transform.
  apply (proj1 (TransformN_enough c k (size n))); lia.
Qed.

Lemma FromClauseItem_TransformN_Transform (c : Compiler) (k : nat) f :
  (FromClauseItem_size f <= k)%nat ->
  FromClauseItem_TransformN k c f = FromClauseItem_Transform c f.
Proof.
  intros H. unfold FromClauseItem_Transform.
  apply (proj1 (proj2 (TransformN_enough c k (FromClauseItem_size f)))); lia.
Qed.

Lemma SelectStmt_TransformN_Transform (c : Compiler) (k : nat) s :
  (SelectStmt_size s <= k)%nat ->
  SelectStmt_TransformN k c s = SelectStmt_Transform c s.
Proof.
  intros H. unfold SelectStmt_Transform.
  apply (proj2 (proj2 (TransformN_enough c k (SelectStmt_size s)))); lia.
Qed.

(** [Transform] satisfies the equations of the source: each method body,
    with the recursive calls being [Transform] itself. *)
Lemma Transform_eq (c : Compiler) (n : Node) :
  Transform c n
  = Transform_dispatch Transform FromClauseItem_Transform SelectStmt_Transform c n.
Proof.
  unfold Transform at 1.
  destruct (size n) as [|k] eqn:Hk; [pose proof (size_pos n); lia|].
  simpl. apply Transform_dispatch_ext with (k := k); intros; try lia.
  - now apply TransformN_Transform.
  - now apply FromClauseItem_TransformN_Transform.
  - now apply SelectStmt_TransformN_Transform.
Qed.

Lemma FromClauseItem_Transform_eq (c : Compiler) (f : FromClauseItem) :
  FromClauseItem_Transform c f
  = FromClauseItem_Transform_body Transform FromClauseItem_Transform
      SelectStmt_Transform c f.
Proof.
  unfold FromClauseItem_Transform at 1.
  destruct (FromClauseItem_size f) as [|k] eqn:Hk;
    [pose proof (FromClauseItem_size_pos f); lia|].
  simpl. apply FromClauseItem_Transform_body_ext with (k := k); intros; try lia.
  - now apply TransformN_Transform.
  - now apply FromClauseItem_TransformN_Transform.
  - now apply SelectStmt_TransformN_Transform.
Qed.

Lemma SelectStmt_Transform_eq (c : Compiler) (s : SelectStmt) :
  SelectStmt_Transform c s
  = SelectStmt_Transform_body Transform FromClauseItem_Transform c s.
Proof.
  unfold SelectStmt_Transform at 1.
  destruct (SelectStmt_size s) as [|k] eqn:Hk;
    [pose proof (SelectStmt_size_pos s); lia|].
  simpl. apply SelectStmt_Transform_body_ext with (k := k); intros; try lia.
  - now apply TransformN_Transform.
  - now apply FromClauseItem_TransformN_Transform.
Qed.

(** ** Rewriting twice *)

Lemma UnaryOperator_Transform_collapse T c (u : UnaryOperator) (v : operator) :
  isNot u = true -> asOperator (u_Expr u) = Some v -> negatable v = true ->
  UnaryOperator_Transform T c u = T c (negate v).
Proof.
  intros Hn Hv Hneg. unfold UnaryOperator_Transform.
  now rewrite Hn, Hv, Hneg.
Qed.

Lemma UnaryOperator_Transform_preserve T c (u : UnaryOperator) :
  isNot u = false \/ collapsible (u_Expr u) = false ->
  UnaryOperator_Transform T c u
  = NUnaryOperator (UnaryOperator_setExpr u (T c (u_Expr u))).
Proof.
  unfold UnaryOperator_Transform, UnaryOperator_Transform_keep, collapsible.
  intros [H|H].
  - now rewrite H.
  - destruct (isNot u); [|reflexivity].
    destruct (asOperator (u_Expr u)); [|reflexivity].
    now rewrite H.
Qed.

(** Rewriting never turns the child of a preserved NOT into something that
    a second pass would collapse. *)
Lemma collapsible_Transform (c : Compiler) (e : Expr) :
  collapsible e = false -> collapsible (Transform c e) = false.
Proof.
  rewrite Transform_eq.
  destruct e; simpl; try reflexivity.
  - unfold collapsible; simpl. intros H.
    rewrite UnaryOperator_Transform_preserve.
    + simpl. exact H.
    + left. apply orb_false_iff in H. tauto.
  - unfold collapsible; simpl. tauto.
  - unfold collapsible; simpl. tauto.
Qed.

Lemma map_idempotent {A} (f : A -> A) (l : list A) :
  (forall x, List.In x l -> f (f x) = f x) -> map f (map f l) = map f l.
Proof.
  intros H. rewrite map_map. apply map_ext_in. exact H.
Qed.

Section Idempotence.

Variable c : Compiler.
Variable k : nat.
Hypothesis IHn : forall n, (size n <= k)%nat ->
                           Transform c (Transform c n) = Transform c n.
Hypothesis IHf : forall f, (FromClauseItem_size f <= k)%nat ->
  FromClauseItem_Transform c (FromClauseItem_Transform c f)
  = FromClauseItem_Transform c f.
Hypothesis IHs : forall s, (SelectStmt_size s <= k)%nat ->
  SelectStmt_Transform c (SelectStmt_Transform c s) = SelectStmt_Transform c s.

Lemma map_Transform_idem (l : list Node) :
  (listSize size l <= k)%nat ->
  map (Transform c) (map (Transform c) l) = map (Transform c) l.
Proof.
  intros H. apply map_idempotent. intros x Hx. apply IHn.
  pose proof (listSize_In size l x Hx). lia.
Qed.

Lemma map_orderbyItem_Transform_idem (l : list orderbyItem) :
  (listSize (fun o => S (size (o_expr o))) l <= k)%nat ->
  map (orderbyItem_Transform Transform c) (map (orderbyItem_Transform Transform c) l)
  = map (orderbyItem_Transform Transform c) l.
Proof.
  intros H. apply map_idempotent. intros x Hx.
  pose proof (listSize_In (fun o => S (size (o_expr o))) l x Hx) as Hle.
  simpl in Hle. unfold orderbyItem_Transform; simpl. rewrite IHn by lia.
  reflexivity.
Qed.

Lemma JoinClause_Transform_idem (j : JoinClause) :
  (FromClauseItem_size (j_left j) + FromClauseItem_size (j_right j)
   + size (j_on j) <= k)%nat ->
  JoinClause_Transform Transform FromClauseItem_Transform c
    (JoinClause_Transform Transform FromClauseItem_Transform c j)
  = JoinClause_Transform Transform FromClauseItem_Transform c j.
Proof.
  intros H. unfold JoinClause_Transform; simpl.
  rewrite (IHf (j_left j)), (IHf (j_right j)), (IHn (j_on j)) by lia.
  reflexivity.
Qed.

Lemma FromClauseItem_Transform_idem_step (f : FromClauseItem) :
  (FromClauseItem_size f <= S k)%nat ->
  FromClauseItem_Transform c (FromClauseItem_Transform c f)
  = FromClauseItem_Transform c f.
Proof.
  intros H. rewrite (FromClauseItem_Transform_eq c f).
  destruct f as [t sq jc]; simpl in H.
  unfold FromClauseItem_Transform_body; simpl.
  destruct t as [t|].
  - rewrite FromClauseItem_Transform_eq. reflexivity.
  - destruct sq as [l|]; simpl in H.
    + rewrite FromClauseItem_Transform_eq.
      unfold FromClauseItem_Transform_body, LabeledSelectStmt_Transform; simpl.
      rewrite IHs by lia. reflexivity.
    + destruct jc as [j|]; simpl in H.
      * rewrite FromClauseItem_Transform_eq.
        unfold FromClauseItem_Transform_body; simpl.
        rewrite JoinClause_Transform_idem by lia. reflexivity.
      * rewrite FromClauseItem_Transform_eq. reflexivity.
Qed.

Lemma SelectStmt_Transform_idem_step (s : SelectStmt) :
  (SelectStmt_size s <= S k)%nat ->
  SelectStmt_Transform c (SelectStmt_Transform c s) = SelectStmt_Transform c s.
Proof.
  intros H. rewrite (SelectStmt_Transform_eq c s).
  destruct s as [cols f w g h o l off]; simpl in H.
  rewrite SelectStmt_Transform_eq.
  unfold SelectStmt_Transform_body; simpl.
  f_equal.
  - unfold LabeledColumn_Transform. now rewrite !map_id.
  - destruct f as [f|]; simpl in *; [|reflexivity].
    unfold FromClause_Transform. rewrite IHf by lia. reflexivity.
  - destruct w as [w|]; simpl in *; [|reflexivity].
    unfold WhereClause_Transform. rewrite IHn by lia. reflexivity.
  - destruct g as [g|]; simpl in *; [|reflexivity].
    unfold GroupByClause_Transform. rewrite map_Transform_idem by lia.
    reflexivity.
  - destruct h as [h|]; simpl in *; [|reflexivity].
    unfold HavingClause_Transform. rewrite IHn by lia. reflexivity.
  - destruct o as [o|]; simpl in *; [|reflexivity].
    unfold OrderByClause_Transform.
    rewrite map_orderbyItem_Transform_idem by lia. reflexivity.
  - destruct l as [l|]; simpl in *; [|reflexivity].
    unfold LimitClause_Transform. rewrite IHn by lia. reflexivity.
  - destruct off as [off|]; simpl in *; [|reflexivity].
    unfold OffsetClause_Transform. rewrite IHn by lia. reflexivity.
Qed.

Lemma UnaryOperator_Transform_idem_step (u : UnaryOperator) :
  (size (u_Expr u) <= k)%nat ->
  Transform c (UnaryOperator_Transform Transform c u)
  = UnaryOperator_Transform Transform c u.
Proof.
  intros H.
  destruct (isNot u) eqn:Hnot.
  - destruct (collapsible (u_Expr u)) eqn:Hcol.
    + unfold collapsible in Hcol.
      destruct (asOperator (u_Expr u)) as [v|] eqn:Hv; [|discriminate].
      rewrite (UnaryOperator_Transform_collapse _ _ _ _ Hnot Hv Hcol).
      apply IHn. pose proof (size_negate _ _ Hv). lia.
    + rewrite UnaryOperator_Transform_preserve by (now right).
      rewrite Transform_eq; simpl.
      rewrite UnaryOperator_Transform_preserve; simpl.
      * rewrite IHn by lia. reflexivity.
      * right. now apply collapsible_Transform.
  - rewrite UnaryOperator_Transform_preserve by (now left).
    rewrite Transform_eq; simpl.
    rewrite UnaryOperator_Transform_preserve; simpl.
    + rewrite IHn by lia. reflexivity.
    + left. exact Hnot.
Qed.

Lemma Transform_idem_step (n : Node) :
  (size n <= S k)%nat -> Transform c (Transform c n) = Transform c n.
Proof.
  intros H. rewrite (Transform_eq c n).
  destruct n; simpl in H |- *;
    try (rewrite Transform_eq; reflexivity).
  - rewrite Transform_eq; simpl. unfold CastExpr_Transform; simpl.
    rewrite IHn by lia. reflexivity.
  - rewrite Transform_eq; simpl. unfold FuncExpr_Transform; simpl.
    rewrite map_Transform_idem by lia. reflexivity.
  - rewrite Transform_eq; simpl. unfold FromClause_Transform.
    rewrite IHf by lia. reflexivity.
  - rewrite Transform_eq; simpl.
    rewrite JoinClause_Transform_idem by lia. reflexivity.
  - rewrite Transform_eq; simpl. unfold LabeledSelectStmt_Transform; simpl.
    rewrite IHs by lia. reflexivity.
  - rewrite Transform_eq; simpl. rewrite IHf by lia. reflexivity.
  - rewrite Transform_eq; simpl. unfold Tuple_Transform.
    rewrite map_Transform_idem by lia. reflexivity.
  - rewrite Transform_eq; simpl. unfold CaseExpr_Transform; simpl.
    rewrite (map_Transform_idem (c_conds ce)),
      (map_Transform_idem (c_results ce)) by lia.
    destruct (c_else_ ce) as [e|]; simpl in H; [|reflexivity].
    rewrite IHn by lia. reflexivity.
  - rewrite Transform_eq; simpl. unfold WhereClause_Transform.
    rewrite IHn by lia. reflexivity.
  - rewrite Transform_eq; simpl. unfold GroupByClause_Transform.
    rewrite map_Transform_idem by lia. reflexivity.
  - rewrite Transform_eq; simpl. unfold HavingClause_Transform.
    rewrite IHn by lia. reflexivity.
  - rewrite Transform_eq; simpl. unfold orderbyItem_Transform; simpl.
    rewrite IHn by lia. reflexivity.
  - rewrite Transform_eq; simpl. unfold OrderByClause_Transform.
    rewrite map_orderbyItem_Transform_idem by lia. reflexivity.
  - rewrite Transform_eq; simpl. unfold LimitClause_Transform.
    rewrite IHn by lia. reflexivity.
  - rewrite Transform_eq; simpl. unfold OffsetClause_Transform.
    rewrite IHn by lia. reflexivity.
  - rewrite Transform_eq; simpl. rewrite IHs by lia. reflexivity.
  - apply UnaryOperator_Transform_idem_step. lia.
  - rewrite Transform_eq; simpl. unfold BinaryOperator_Transform; simpl.
    rewrite (IHn (b_Left b)), (IHn (b_Right b)) by lia. reflexivity.
  - rewrite Transform_eq; simpl. unfold TernaryOperator_Transform; simpl.
    rewrite (IHn (t_Expr1 t)), (IHn (t_Expr2 t)), (IHn (t_Expr3 t)) by lia.
    reflexivity.
Qed.

End Idempotence.

Lemma Transform_idempotent_sized (c : Compiler) (k : nat) :
  (forall n, (size n <= k)%nat -> Transform c (Transform c n) = Transform c n)
  /\ (forall f, (FromClauseItem_size f <= k)%nat ->
        FromClauseItem_Transform c (FromClauseItem_Transform c f)
        = FromClauseItem_Transform c f)
  /\ (forall s, (SelectStmt_size s <= k)%nat ->
        SelectStmt_Transform c (SelectStmt_Transform c s)
        = SelectStmt_Transform c s).
Proof.
  induction k as [|k (IHn & IHf & IHs)].
  - repeat split.
    + intros n H. pose proof (size_pos n). lia.
    + intros f H. pose proof (FromClauseItem_size_pos f). lia.
    + intros s H. pose proof (SelectStmt_size_pos s). lia.
  - repeat split.
    + now apply Transform_idem_step.
    + now apply FromClauseItem_Transform_idem_step.
    + now apply SelectStmt_Transform_idem_step.
Qed.

(** ** What rendering leaves unchanged in the output context *)

Lemma string_app_nil_r (s : string) : (s ++ "")%string = s.
Proof. induction s; simpl; congruence. Qed.

Lemma string_app_assoc (s1 s2 s3 : string) :
  ((s1 ++ s2) ++ s3)%string = (s1 ++ (s2 ++ s3))%string.
Proof. induction s1; simpl; congruence. Qed.

Lemma extends_refl (c : Compiler) : extends c c.
Proof.
  repeat split; try (intros ? ? H; exact H).
  exists ""%string. now rewrite string_app_nil_r.
Qed.

Lemma extends_trans (c1 c2 c3 : Compiler) :
  extends c1 c2 -> extends c2 c3 -> extends c1 c3.
Proof.
  intros ((Hp & Ha & Hq & Hr) & Hk & s & Hs) ((Hp' & Ha' & Hq' & Hr') & Hk' & s' & Hs').
  repeat split; try congruence.
  - intros name pos H. apply Hk', Hk, H.
  - exists (s ++ s')%string. rewrite Hs', Hs. apply string_app_assoc.
Qed.

Lemma lookupBinding_app (name : string) (bs bs' : list (string * N)) (pos : N) :
  lookupBinding name bs = Some pos -> lookupBinding name (bs ++ bs') = Some pos.
Proof.
  induction bs as [|[k p] bs IH]; simpl; [discriminate|].
  destruct (String.eqb k name); auto.
Qed.

Lemma lookupBinding_fresh (name : string) (bs : list (string * N)) (pos : N) :
  lookupBinding name bs = None -> lookupBinding name (bs ++ [(name, pos)]) = Some pos.
Proof.
  induction bs as [|[k p] bs IH]; simpl.
  - now rewrite String.eqb_refl.
  - destruct (String.eqb k name); [discriminate | auto].
Qed.

Create HintDb mono.

Lemma monotone_ret {A} (a : A) : monotone (ret a).
Proof. intros c r c' [= _ <-]. apply extends_refl. Qed.

Lemma monotone_fail {A} (e : error) : monotone (@fail A e).
Proof. intros c r c' [= _ <-]. apply extends_refl. Qed.

Lemma monotone_panic {A} : monotone (@panic A).
Proof. intros c r c' [= _ <-]. apply extends_refl. Qed.

Lemma monotone_query {A} (f : Compiler -> result A) : monotone (query f).
Proof. intros c r c' [= _ <-]. apply extends_refl. Qed.

Lemma monotone_read {A} (f : Compiler -> A) : monotone (read f).
Proof. intros c r c' [= _ <-]. apply extends_refl. Qed.

Lemma monotone_WriteVerbatim (s : string) : monotone (exec (WriteVerbatim s)).
Proof.
  intros c r c' [= _ <-]. repeat split; try (intros ? ? H; exact H).
  now exists s.
Qed.

Lemma monotone_WriteIdentifier (s : string) : monotone (exec (WriteIdentifier s)).
Proof.
  intros c r c' [= _ <-]. repeat split; try (intros ? ? H; exact H).
  now exists (quoteIdentifier c s).
Qed.

Lemma monotone_insertPlaceholder (p : string) : monotone (call (insertPlaceholder p)).
Proof.
  intros c r c'. unfold call, insertPlaceholder.
  destruct (lookupBinding p (bindings c)) eqn:Hl; intros [= _ <-].
  - apply extends_refl.
  - repeat split; simpl.
    + intros name pos H. now apply lookupBinding_app.
    + exists ""%string. now rewrite string_app_nil_r.
Qed.

Lemma monotone_bind {A B} (m : M A) (k : A -> M B) :
  monotone m -> (forall a, monotone (k a)) -> monotone (bind m k).
Proof.
  intros Hm Hk c r c'. unfold bind.
  destruct (m c) as [[a|e|] c1] eqn:Hmc.
  - intros H. eapply extends_trans; [eapply Hm | eapply Hk]; eauto.
  - intros [= _ <-]. eapply Hm; eauto.
  - intros [= _ <-]. eapply Hm; eauto.
Qed.

Lemma monotone_when (b : bool) (m : M unit) : monotone m -> monotone (when_ b m).
Proof. destruct b; simpl; auto using @monotone_ret. Qed.

Lemma monotone_forEach {A} (body : A -> M unit) (l : list A) :
  Forall (fun x => monotone (body x)) l -> monotone (forEach body l).
Proof.
  induction 1 as [|x l Hx Hl IH]; simpl.
  - apply monotone_ret.
  - apply monotone_bind; auto.
Qed.

#[export] Hint Resolve monotone_ret monotone_fail monotone_panic monotone_query
  monotone_read monotone_WriteVerbatim monotone_WriteIdentifier
  monotone_insertPlaceholder monotone_bind monotone_when
  monotone_forEach : mono.

Lemma list_all_Forall {A} (P : A -> Prop) (l : list A) :
  list_all P l -> Forall P l.
Proof. induction 1; constructor; auto. Qed.

Ltac mono_step :=
  match goal with
  | |- monotone (bind _ _) => apply monotone_bind; [|intros]
  | |- monotone (when_ _ _) => apply monotone_when
  | |- monotone (if ?b then _ else _) => destruct b
  | |- monotone (match ?x with _ => _ end) => destruct x
  | _ => solve [auto with mono]
  end.

Ltac mono := repeat mono_step.

Lemma monotone_stringifyCommaSeparated {A} (str : A -> M unit) (l : list A) :
  Forall (fun x => monotone (str x)) l -> monotone (stringifyCommaSeparated str l).
Proof.
  intros H. unfold stringifyCommaSeparated.
  destruct H as [|x l Hx Hl]; [apply monotone_ret|].
  apply monotone_bind; [exact Hx|intros _].
  apply monotone_forEach.
  eapply Forall_impl; [|exact Hl]. intros a Ha; simpl. mono.
Qed.

Lemma monotone_CaseExpr_whens (str : Node -> M unit) (conds results : list Node) :
  Forall (fun x => monotone (str x)) conds ->
  Forall (fun x => monotone (str x)) results ->
  monotone (CaseExpr_whens str conds (map str results)).
Proof.
  intros Hc. revert results.
  induction Hc as [|x conds Hx Hc IH]; intros results Hr; simpl.
  - apply monotone_ret.
  - destruct Hr as [|y results Hy Hr]; simpl; mono.
Qed.

Lemma monotone_orderbyItem_Stringify (str : Node -> M unit) (o : orderbyItem) :
  monotone (str (o_expr o)) -> monotone (orderbyItem_Stringify str o).
Proof. intros H. unfold orderbyItem_Stringify. mono. Qed.

Lemma monotone_LabeledColumn_Stringify (str : Node -> M unit) (l : LabeledColumn) :
  monotone (str (lc_Expr l)) -> monotone (LabeledColumn_Stringify str l).
Proof. intros H. unfold LabeledColumn_Stringify. mono. Qed.

Lemma monotone_JoinClause_Stringify str strF (j : JoinClause) :
  monotone (strF (j_left j)) -> monotone (strF (j_right j)) ->
  monotone (str (j_on j)) -> monotone (JoinClause_Stringify str strF j).
Proof. intros H1 H2 H3. unfold JoinClause_Stringify. mono. Qed.

Lemma monotone_stringifyParen (str : Node -> M unit) (e : Node) :
  monotone (str e) -> monotone (stringifyParen str e).
Proof. intros H. unfold stringifyParen. mono. Qed.

Lemma monotone_clause {A} (str : A -> M unit) (cl : option A) :
  (forall x, cl = Some x -> monotone (str x)) -> monotone (clause str cl).
Proof. intros H. destruct cl; simpl; mono. Qed.

#[export] Hint Resolve monotone_stringifyCommaSeparated monotone_CaseExpr_whens
  monotone_orderbyItem_Stringify monotone_LabeledColumn_Stringify
  monotone_JoinClause_Stringify monotone_stringifyParen list_all_Forall : mono.

Lemma monotone_orderbyItems (items : list orderbyItem) str :
  list_all (orderbyItemOf_all (fun n => monotone (str n))) items ->
  Forall (fun o => monotone (orderbyItem_Stringify str o)) items.
Proof.
  induction 1 as [|o Ho l Hl IH]; constructor; auto.
  destruct Ho. now apply monotone_orderbyItem_Stringify.
Qed.

Lemma monotone_LabeledColumns (cols : list LabeledColumn) str :
  list_all (LabeledColumnOf_all (fun n => monotone (str n))) cols ->
  Forall (fun l => monotone (LabeledColumn_Stringify str l)) cols.
Proof.
  induction 1 as [|o Ho l Hl IH]; constructor; auto.
  destruct Ho. now apply monotone_LabeledColumn_Stringify.
Qed.

(** Rendering any node only appends to the buffer and to the binding table,
    and leaves the dialect alone. *)
Lemma Stringify_monotone_all :
  (forall n, monotone (Stringify n))
  /\ (forall f, monotone (FromClauseItem_Stringify f))
  /\ (forall s, monotone (SelectStmt_Stringify s)).
Proof.
  apply Node_mutind; intros; simpl.
  - unfold SQLType_Stringify. mono.
  - destruct H. unfold CastExpr_Stringify, SQLType_Stringify; simpl. mono.
  - destruct H as [name args Hargs omit]. unfold FuncExpr_Stringify; simpl.
    apply list_all_Forall in Hargs.
    destruct Hargs as [|a args Ha Hargs]; mono.
    apply monotone_forEach. eapply Forall_impl; [|exact Hargs].
    intros x Hx; simpl. mono.
  - unfold FromClause_Stringify. mono.
  - destruct H. auto with mono.
  - destruct H. unfold LabeledSelectStmt_Stringify; simpl. mono.
  - unfold Column_Stringify. mono.
  - destruct H. auto with mono.
  - unfold Table_Stringify. mono.
  - unfold LabeledTable_Stringify. mono.
  - assumption.
  - unfold Tuple_Stringify. mono.
  - destruct H as [conds Hc results Hr els He]. unfold CaseExpr_Stringify; simpl.
    destruct He; mono.
  - unfold Placeholder_Stringify. mono.
  - unfold WhereClause_Stringify. mono.
  - unfold GroupByClause_Stringify. mono.
  - unfold HavingClause_Stringify. mono.
  - destruct H. auto with mono.
  - unfold OrderByClause_Stringify. mono.
    apply monotone_stringifyCommaSeparated. now apply monotone_orderbyItems.
  - unfold LimitClause_Stringify. mono.
  - unfold OffsetClause_Stringify. mono.
  - assumption.
  - destruct H. unfold UnaryOperator_Stringify, UnaryOperator_write; simpl. mono.
  - destruct H. unfold BinaryOperator_Stringify, BinaryOperator_handleSide; simpl.
    mono.
  - destruct H.
    unfold TernaryOperator_Stringify, TernaryOperator_handleExpr; simpl. mono.
  - unfold FromClauseItem_Stringify_body; simpl.
    destruct TableRef as [t|]; [unfold LabeledTable_Stringify; mono|].
    destruct H as [l Hl|].
    + destruct Hl. unfold LabeledSelectStmt_Stringify; simpl. mono.
    + destruct H0 as [j Hj|]; [|mono]. destruct Hj. auto with mono.
  - unfold SelectStmt_Stringify_body; simpl.
    apply monotone_LabeledColumns in H.
    destruct H as [|col0 rest Hcol0 Hrest]; mono.
    + apply monotone_forEach. eapply Forall_impl; [|exact Hrest].
      intros x Hx; simpl. mono.
    + destruct H0 as [f Hf|]; simpl; mono. unfold FromClause_Stringify. mono.
    + destruct H1 as [w Hw|]; simpl; mono. unfold WhereClause_Stringify. mono.
    + destruct H2 as [g Hg|]; simpl; mono. unfold GroupByClause_Stringify. mono.
    + destruct H3 as [h Hh|]; simpl; mono. unfold HavingClause_Stringify. mono.
    + destruct H4 as [o Ho|]; simpl; mono. unfold OrderByClause_Stringify. mono.
      apply monotone_stringifyCommaSeparated. now apply monotone_orderbyItems.
    + destruct H5 as [l Hl|]; simpl; mono. unfold LimitClause_Stringify. mono.
    + destruct H6 as [o Ho|]; simpl; mono. unfold OffsetClause_Stringify. mono.
Qed.

(** ** Precedence and associativity resolution *)

(** C5, as the code has it.  The precedence an operator resolves to is its
    own override when that is non-zero, else the dialect's entry for its
    kind when that is non-zero, else the error [ErrNoPrecedence]; the
    associativity it resolves to follows the same rule, with
    [ErrNoAssociativity]: an override is returned whenever it is non-zero,
    so in particular when it is one of the three named values.  Zero is
    never returned as a precedence or as an associativity.

    Rendering a unary or a binary operator resolves its associativity
    first and its precedence next and fails with the first error met,
    nothing written: with [ErrNoAssociativity] when the associativity is
    undefined, whatever the precedence, and with [ErrNoPrecedence] when the
    associativity is defined (for a unary and not [NonAssociative]) and the
    precedence is undefined.  Rendering a ternary operator resolves its
    precedence only: it fails with [ErrNoPrecedence] when that is
    undefined, and it renders the same whatever its associativity override
    is, defined or not. *)
Theorem resolveOperator_effective (op : operator) (c : Compiler) :
  resolveOperatorPrecedence op c
  = effectiveValue (precedence op) (Compiler_precedence c (operatorType op))
      ErrNoPrecedence
  /\ resolveOperatorAssociativity op c
     = effectiveValue (associativity op)
         (Compiler_associativity c (operatorType op)) ErrNoAssociativity
  /\ (isNamedAssociativity (associativity op) = true ->
      resolveOperatorAssociativity op c = Ok (associativity op))
  /\ resolveOperatorPrecedence op c <> Ok 0
  /\ resolveOperatorAssociativity op c <> Ok 0
  /\ (forall u : UnaryOperator,
         associativity u = 0 ->
         Compiler_associativity c (operatorType u) = 0 ->
         Stringify (NUnaryOperator u) c = (Err ErrNoAssociativity, c))
  /\ (forall b : BinaryOperator,
         associativity b = 0 ->
         Compiler_associativity c (operatorType b) = 0 ->
         Stringify (NBinaryOperator b) c = (Err ErrNoAssociativity, c))
  /\ (forall (u : UnaryOperator) assoc,
         resolveOperatorAssociativity (opUnary u) c = Ok assoc ->
         assoc <> NonAssociative ->
         precedence u = 0 ->
         Compiler_precedence c (operatorType u) = 0 ->
         Stringify (NUnaryOperator u) c = (Err ErrNoPrecedence, c))
  /\ (forall (b : BinaryOperator) assoc,
         resolveOperatorAssociativity (opBinary b) c = Ok assoc ->
         precedence b = 0 ->
         Compiler_precedence c (operatorType b) = 0 ->
         Stringify (NBinaryOperator b) c = (Err ErrNoPrecedence, c))
  /\ (forall t : TernaryOperator,
         precedence t = 0 ->
         Compiler_precedence c (operatorType t) = 0 ->
         Stringify (NTernaryOperator t) c = (Err ErrNoPrecedence, c))
  /\ (forall (t : TernaryOperator) a,
         Stringify (NTernaryOperator (TernaryOperator_setAssociativity t a)) c
         = Stringify (NTernaryOperator t) c).
Proof.
  assert (Ha : forall o : operator,
             associativity o = 0 ->
             Compiler_associativity c (operatorType o) = 0 ->
             resolveOperatorAssociativity o c = Err ErrNoAssociativity).
  { intros o H1 H2. unfold resolveOperatorAssociativity. now rewrite H1, H2. }
  assert (Hp : forall o : operator,
             precedence o = 0 ->
             Compiler_precedence c (operatorType o) = 0 ->
             resolveOperatorPrecedence o c = Err ErrNoPrecedence).
  { intros o H1 H2. unfold resolveOperatorPrecedence. now rewrite H1, H2. }
  split; [reflexivity|]. split; [reflexivity|].
  split; [|split; [|split; [|split; [|split; [|split; [|split; [|split]]]]]]].
  - intros Hn. unfold resolveOperatorAssociativity.
    destruct (associativity op =? 0) eqn:H0; [|reflexivity].
    apply N.eqb_eq in H0. rewrite H0 in Hn. discriminate Hn.
  - unfold resolveOperatorPrecedence.
    destruct (precedence op =? 0) eqn:H0; cbn [negb].
    + destruct (Compiler_precedence c (operatorType op) =? 0) eqn:H1; cbn [negb].
      * discriminate.
      * intros [= H]. apply N.eqb_neq in H1. exact (H1 H).
    + intros [= H]. apply N.eqb_neq in H0. exact (H0 H).
  - unfold resolveOperatorAssociativity.
    destruct (associativity op =? 0) eqn:H0; cbn [negb].
    + destruct (Compiler_associativity c (operatorType op) =? 0) eqn:H1; cbn [negb].
      * discriminate.
      * intros [= H]. apply N.eqb_neq in H1. exact (H1 H).
    + intros [= H]. apply N.eqb_neq in H0. exact (H0 H).
  - intros u H1 H2.
    change (Stringify (NUnaryOperator u)) with (UnaryOperator_Stringify Stringify u).
    unfold UnaryOperator_Stringify, bind, query.
    now rewrite (Ha (opUnary u) H1 H2).
  - intros b H1 H2.
    change (Stringify (NBinaryOperator b)) with (BinaryOperator_Stringify Stringify b).
    unfold BinaryOperator_Stringify, bind, query.
    now rewrite (Ha (opBinary b) H1 H2).
  - intros u assoc Hr Hna H1 H2.
    change (Stringify (NUnaryOperator u)) with (UnaryOperator_Stringify Stringify u).
    unfold UnaryOperator_Stringify, bind, query. rewrite Hr.
    replace (assoc =? NonAssociative) with false
      by (symmetry; now apply N.eqb_neq).
    now rewrite (Hp (opUnary u) H1 H2).
  - intros b assoc Hr H1 H2.
    change (Stringify (NBinaryOperator b)) with (BinaryOperator_Stringify Stringify b).
    unfold BinaryOperator_Stringify, bind, query. rewrite Hr.
    now rewrite (Hp (opBinary b) H1 H2).
  - intros t H1 H2.
    change (Stringify (NTernaryOperator t)) with (TernaryOperator_Stringify Stringify t).
    unfold TernaryOperator_Stringify, bind, query.
    now rewrite (Hp (opTernary t) H1 H2).
  - intros t a. reflexivity.
Qed.

Lemma resolveOperator_effective_witness :
  let op := opUnary
    {| u_Type := OpNot; u_Symbol := "NOT"; u_NegatedType := 0;
       u_NegatedSymbol := ""; u_Expr := column "a";
       u_CustomPrecedence := 0; u_CustomAssociativity := RightAssociative |} in
  let mul :=
    {| b_Type := OpMul; b_Symbol := "*"; b_NegatedType := 0;
       b_NegatedSymbol := ""; b_Left := column "a"; b_Right := column "b";
       b_CustomPrecedence := 0; b_CustomAssociativity := LeftAssociative;
       b_SuppressSpace := false |} in
  isNamedAssociativity (associativity op) = true
  /\ resolveOperatorAssociativity op exampleCompiler = Ok RightAssociative
  /\ Stringify (NBinaryOperator (Lt (column "a") (column "b"))) exampleCompiler
     = (Err ErrNoAssociativity, exampleCompiler)
  /\ Stringify (NBinaryOperator mul) exampleCompiler
     = (Err ErrNoPrecedence, exampleCompiler).
Proof.
  intros op mul.
  pose proof (resolveOperator_effective op exampleCompiler)
    as (_ & _ & H3 & _ & _ & _ & H7 & _ & H9 & _).
  split; [reflexivity|]. split; [exact (H3 eq_refl)|].
  split; [exact (H7 (Lt (column "a") (column "b")) eq_refl eq_refl)|].
  exact (H9 mul LeftAssociative eq_refl eq_refl eq_refl).
Defined.

(** C5, counterexample.  In a dialect that gives BETWEEN a precedence and no
    associativity, [a BETWEEN b AND c] renders, although its associativity
    resolves to [ErrNoAssociativity]; and [a < b], for which the dialect has
    neither, fails with [ErrNoAssociativity] although its precedence
    resolves to [ErrNoPrecedence]. *)
Lemma rendering_resolves_what_it_uses :
  let t := Between (column "a") (column "b") (column "c") in
  let l := Lt (column "a") (column "b") in
  resolveOperatorAssociativity (opTernary t) exampleCompiler
  = Err ErrNoAssociativity
  /\ Stringify (NTernaryOperator t) exampleCompiler
     = (Ok tt, setBuf exampleCompiler "a BETWEEN b AND c")
  /\ resolveOperatorPrecedence (opBinary l) exampleCompiler = Err ErrNoPrecedence
  /\ Stringify (NBinaryOperator l) exampleCompiler
     = (Err ErrNoAssociativity, exampleCompiler)
  /\ fst (Stringify (NBinaryOperator l) exampleCompiler) <> Err ErrNoPrecedence.
Proof. repeat split. discriminate. Qed.

(** ** Negation *)

(** C7, as the code has it.  For a negatable operator that is not the
    logical NOT, [negate] returns an operator of the same arity whose kind
    and symbols are those of the stored counterpart and whose counterpart is
    the original kind and symbols, with the same children, the same custom
    precedence and the same custom associativity.  The logical NOT, which is
    always negatable, returns its child. *)
Theorem negate_swaps_and_keeps (op : operator) :
  negatable op = true ->
  if isLogicalNot op
  then [negate op] = operatorChildren op
  else exists op',
      asOperator (negate op) = Some op'
      /\ operatorType op' = operatorNegatedType op
      /\ operatorSymbols op' = operatorNegatedSymbols op
      /\ operatorNegatedType op' = operatorType op
      /\ operatorNegatedSymbols op' = operatorSymbols op
      /\ operatorChildren op' = operatorChildren op
      /\ precedence op' = precedence op
      /\ associativity op' = associativity op.
Proof.
  intros _. destruct op as [u|b|t]; simpl.
  - destruct (isNot u) eqn:Hn; [reflexivity|].
    eexists; simpl; repeat split.
  - eexists; simpl; repeat split.
  - eexists; simpl; repeat split.
Qed.

Lemma negate_swaps_and_keeps_witness :
  exists op',
    asOperator (negate (opBinary (Eq (column "a") (column "b")))) = Some op'
    /\ operatorType op' = OpNotEq
    /\ operatorSymbols op' = ["<>"%string]
    /\ operatorNegatedType op' = OpEq
    /\ operatorNegatedSymbols op' = ["="%string]
    /\ operatorChildren op' = [column "a"; column "b"]
    /\ precedence op' = 0
    /\ associativity op' = 0.
Proof.
  exact (negate_swaps_and_keeps (opBinary (Eq (column "a") (column "b"))) eq_refl).
Defined.

(** C7, counterexample.  The logical NOT is negatable and its [negate] is
    its child, here a column: not an operator, and nothing is swapped.  And
    the negation of a negatable binary operator with [SuppressSpace] set has
    [SuppressSpace] unset. *)
Lemma negate_not_always_swapped_or_kept :
  let glued :=
    {| b_Type := OpEq; b_Symbol := "="; b_NegatedType := OpNotEq;
       b_NegatedSymbol := "<>"; b_Left := column "a"; b_Right := column "b";
       b_CustomPrecedence := 0; b_CustomAssociativity := 0;
       b_SuppressSpace := true |} in
  (negatable (opUnary (Not (column "x"))) = true
   /\ negate (opUnary (Not (column "x"))) = column "x"
   /\ asOperator (negate (opUnary (Not (column "x")))) = None)
  /\ (negatable (opBinary glued) = true
      /\ b_SuppressSpace glued = true
      /\ exists b', negate (opBinary glued) = NBinaryOperator b'
                    /\ b_SuppressSpace b' = false).
Proof.
  intros glued. repeat split. eexists; split; reflexivity.
Qed.

(** [BinaryOperator.negate] builds its result without [SuppressSpace], which
    is therefore [false] in the negated node. *)
Lemma BinaryOperator_negate_SuppressSpace (b : BinaryOperator) :
  exists b', negate b = NBinaryOperator b' /\ b_SuppressSpace b' = false.
Proof. eexists; split; reflexivity. Qed.

(** ** The rewrite pass *)

Lemma Transform_unary (c : Compiler) (u : UnaryOperator) :
  Transform c (NUnaryOperator u) = UnaryOperator_Transform Transform c u.
Proof. now rewrite Transform_eq. Qed.

Lemma negatable_Not (e : Expr) : negatable (Not e) = true.
Proof. reflexivity. Qed.

Lemma Transform_Not_Not (c : Compiler) (P : Expr) :
  Transform c (NUnaryOperator (Not (NUnaryOperator (Not P)))) = Transform c P.
Proof.
  rewrite Transform_unary.
  now rewrite (UnaryOperator_Transform_collapse Transform c _ (opUnary (Not P))).
Qed.

Lemma Transform_Not_IsNull (c : Compiler) (x : Expr) :
  Transform c (NUnaryOperator (Not (NUnaryOperator (IsNull x))))
  = NUnaryOperator (IsNotNull (Transform c x)).
Proof.
  rewrite Transform_unary.
  rewrite (UnaryOperator_Transform_collapse Transform c _ (opUnary (IsNull x)))
    by reflexivity.
  simpl. rewrite Transform_unary.
  rewrite UnaryOperator_Transform_preserve by (now left).
  reflexivity.
Qed.

(** C2, as the code has it.  Rewriting a logical NOT [u]: when the child
    is an operator [v] with [negatable] true, the result is the rewrite of
    [v.negate()]; when the child is not an operator or not negatable, the
    NOT node is kept with its child rewritten.  So [NOT (IS_NULL x)]
    rewrites to [IS_NOT_NULL] of the rewritten [x] and renders as that; it
    renders as [IS_NOT_NULL x] when the rewrite leaves [x] as it is (every
    leaf).  A logical NOT is itself negatable and its [negate] is its child,
    whatever the child is; so for every expression [P], a NOT over a NOT
    over [P] rewrites to, and renders as, the rewrite of [P]. *)
Theorem Transform_logical_NOT (c : Compiler) (u : UnaryOperator) (x P : Expr) :
  isNot u = true ->
  (forall v, asOperator (u_Expr u) = Some v -> negatable v = true ->
             Transform c (NUnaryOperator u) = Transform c (negate v))
  /\ (collapsible (u_Expr u) = false ->
      Transform c (NUnaryOperator u)
      = NUnaryOperator (UnaryOperator_setExpr u (Transform c (u_Expr u))))
  /\ Transform c (NUnaryOperator (Not (NUnaryOperator (IsNull x))))
     = NUnaryOperator (IsNotNull (Transform c x))
  /\ Stringify (Transform c (NUnaryOperator (Not (NUnaryOperator (IsNull x)))))
     = Stringify (NUnaryOperator (IsNotNull (Transform c x)))
  /\ (Transform c x = x ->
      Stringify (Transform c (NUnaryOperator (Not (NUnaryOperator (IsNull x)))))
      = Stringify (NUnaryOperator (IsNotNull x)))
  /\ negatable u = true
  /\ negate u = u_Expr u
  /\ (forall u', isNot u' = true -> u_Expr u' = P ->
                 u_Expr u = NUnaryOperator u' ->
                 Transform c (NUnaryOperator u) = Transform c P)
  /\ Transform c (NUnaryOperator (Not (NUnaryOperator (Not P)))) = Transform c P
  /\ Stringify (Transform c (NUnaryOperator (Not (NUnaryOperator (Not P)))))
     = Stringify (Transform c P).
Proof.
  intros Hnot.
  split; [|split; [|split; [|split; [|split; [|split; [|split; [|split; [|split]]]]]]]].
  - intros v Hv Hneg. rewrite Transform_unary.
    now apply UnaryOperator_Transform_collapse.
  - intros Hcol. rewrite Transform_unary.
    apply UnaryOperator_Transform_preserve. now right.
  - apply Transform_Not_IsNull.
  - now rewrite Transform_Not_IsNull.
  - intros Hx. now rewrite Transform_Not_IsNull, Hx.
  - simpl. now rewrite Hnot.
  - simpl. now rewrite Hnot.
  - intros u' Hnot' HP Hu. rewrite Transform_unary.
    rewrite (UnaryOperator_Transform_collapse Transform c u (opUnary u') Hnot).
    + simpl. now rewrite Hnot', HP.
    + now rewrite Hu.
    + simpl. now rewrite Hnot'.
  - apply Transform_Not_Not.
  - now rewrite Transform_Not_Not.
Qed.

Lemma Transform_logical_NOT_witness :
  Transform exampleCompiler
    (NUnaryOperator (Not (NUnaryOperator (IsNull (column "x")))))
  = NUnaryOperator (IsNotNull (Transform exampleCompiler (column "x")))
  /\ Stringify (Transform exampleCompiler
       (NUnaryOperator (Not (NUnaryOperator (IsNull (column "x"))))))
     = Stringify (NUnaryOperator (IsNotNull (column "x")))
  /\ Transform exampleCompiler
       (NUnaryOperator (Not (NUnaryOperator (Not (NBinaryOperator
          (And (column "a") (column "b")))))))
     = Transform exampleCompiler (NBinaryOperator (And (column "a") (column "b"))).
Proof.
  pose proof (Transform_logical_NOT exampleCompiler
                (Not (NUnaryOperator (IsNull (column "x")))) (column "x")
                (NBinaryOperator (And (column "a") (column "b")))
                eq_refl) as H.
  split; [|split].
  - exact (proj1 (proj2 (proj2 H))).
  - exact (proj1 (proj2 (proj2 (proj2 (proj2 H)))) eq_refl).
  - exact (proj1 (proj2 (proj2 (proj2 (proj2 (proj2 (proj2 (proj2 (proj2 H))))))))).
Defined.

(** C2, counterexample.  The operand of the replacement is rewritten too:
    with [x = NOT (NOT a)], the rewrite of [NOT (IS_NULL x)] is
    [IS_NOT_NULL a] and renders "a IS NOT NULL", where [IS_NOT_NULL x]
    renders "(NOT NOT a) IS NOT NULL". *)
Lemma Transform_NOT_IsNull_rewrites_operand :
  let x := NUnaryOperator (Not (NUnaryOperator (Not (column "a")))) in
  let rewritten :=
    Transform exampleCompiler (NUnaryOperator (Not (NUnaryOperator (IsNull x)))) in
  rewritten = NUnaryOperator (IsNotNull (column "a"))
  /\ Stringify rewritten exampleCompiler
     = (Ok tt, setBuf exampleCompiler "a IS NOT NULL")
  /\ Stringify (NUnaryOperator (IsNotNull x)) exampleCompiler
     = (Ok tt, setBuf exampleCompiler "(NOT NOT a) IS NOT NULL")
  /\ Stringify rewritten <> Stringify (NUnaryOperator (IsNotNull x)).
Proof.
  intros x rewritten.
  assert (H1 : rewritten = NUnaryOperator (IsNotNull (column "a")))
    by (vm_compute; reflexivity).
  assert (H2 : Stringify rewritten exampleCompiler
               = (Ok tt, setBuf exampleCompiler "a IS NOT NULL"))
    by (rewrite H1; reflexivity).
  assert (H3 : Stringify (NUnaryOperator (IsNotNull x)) exampleCompiler
               = (Ok tt, setBuf exampleCompiler "(NOT NOT a) IS NOT NULL"))
    by reflexivity.
  repeat split; try assumption.
  intros Heq. rewrite Heq, H3 in H2. discriminate H2.
Qed.

(** C8.  Rewriting is idempotent: rewriting a rewritten tree gives the same
    tree, node for node. *)
Theorem Transform_idempotent (c : Compiler) (n : Node) :
  Transform c (Transform c n) = Transform c n.
Proof.
  apply (proj1 (Transform_idempotent_sized c (size n))). lia.
Qed.

(** ** Rendering rules of the operators *)

Lemma agreeAfter_refl {A} (c : Compiler) (m : M A) : agreeAfter c m m.
Proof. intros c1 _. reflexivity. Qed.

Lemma agreeAfter_here {A} (c : Compiler) (m m' : M A) :
  agreeAfter c m m' -> m c = m' c.
Proof. intros H. apply H, extends_refl. Qed.

Lemma agreeAfter_bind {A B} (c : Compiler) (m m' : M A) (k k' : A -> M B) :
  monotone m -> agreeAfter c m m' -> (forall a, agreeAfter c (k a) (k' a)) ->
  agreeAfter c (bind m k) (bind m' k').
Proof.
  intros Hm Hmm Hk c1 Hc1. unfold bind.
  rewrite <- (Hmm c1 Hc1).
  destruct (m c1) as [[a|e|] c2] eqn:Hmc; try reflexivity.
  apply Hk. eapply extends_trans; [exact Hc1|]. eapply Hm; eauto.
Qed.

Lemma Stringify_monotone (n : Node) : monotone (Stringify n).
Proof. apply Stringify_monotone_all. Qed.

Lemma renderChild_monotone (w : bool) (e : Expr) : monotone (renderChild w e).
Proof.
  destruct w; simpl.
  - apply monotone_stringifyParen, Stringify_monotone.
  - apply Stringify_monotone.
Qed.

Lemma resolveOperatorPrecedence_extends (op : operator) (c c1 : Compiler) :
  extends c c1 -> resolveOperatorPrecedence op c1 = resolveOperatorPrecedence op c.
Proof.
  intros ((Hp & _) & _). unfold resolveOperatorPrecedence, Compiler_precedence.
  now rewrite Hp.
Qed.

Lemma resolveOperatorAssociativity_extends (op : operator) (c c1 : Compiler) :
  extends c c1 ->
  resolveOperatorAssociativity op c1 = resolveOperatorAssociativity op c.
Proof.
  intros ((_ & Ha & _) & _).
  unfold resolveOperatorAssociativity, Compiler_associativity.
  now rewrite Ha.
Qed.

Lemma childWrap_extends (decide : N -> bool) (e : Expr) (c c1 : Compiler) :
  extends c c1 -> childWrap decide e c1 = childWrap decide e c.
Proof.
  intros H. unfold childWrap. destruct (asOperator e); [|reflexivity].
  now rewrite (resolveOperatorPrecedence_extends _ _ _ H).
Qed.

(** What [childWrap] says, spelled out. *)
Lemma childWrap_true (decide : N -> bool) (e : Expr) (c : Compiler) (w : bool) :
  childWrap decide e c = Some w ->
  (w = true <->
   exists op childPrec,
     asOperator e = Some op
     /\ resolveOperatorPrecedence op c = Ok childPrec
     /\ decide childPrec = true).
Proof.
  unfold childWrap. destruct (asOperator e) as [op|].
  - destruct (resolveOperatorPrecedence op c) as [p| |] eqn:Hp; try discriminate.
    intros [= <-]. split.
    + intros H. now exists op, p.
    + intros (op' & p' & [= <-] & Hp' & H). congruence.
  - intros [= <-]. split; [discriminate|].
    intros (op' & p' & H & _). discriminate.
Qed.

Lemma binaryNeedsParen_true (assoc ownPrec tieBreak childPrec : N) :
  binaryNeedsParen assoc ownPrec tieBreak childPrec = true <->
  (assoc = NonAssociative /\ childPrec <= ownPrec)
  \/ (assoc <> NonAssociative
      /\ (childPrec < ownPrec \/ (childPrec = ownPrec /\ assoc = tieBreak))).
Proof.
  unfold binaryNeedsParen.
  rewrite orb_true_iff, !andb_true_iff, orb_true_iff, andb_true_iff,
    negb_true_iff, N.leb_le, N.ltb_lt, !N.eqb_eq, N.eqb_neq.
  reflexivity.
Qed.

(** The three closures agree with [renderChild] on the decision of
    [childWrap]. *)
Lemma BinaryOperator_handleSide_renderChild
      (c : Compiler) (assoc ownPrec : N) (e : Expr) (target : Associativity)
      (w : bool) :
  childWrap (binaryNeedsParen assoc ownPrec target) e c = Some w ->
  agreeAfter c (BinaryOperator_handleSide Stringify assoc ownPrec e target)
    (renderChild w e).
Proof.
  intros Hw c1 Hc1. rewrite <- (childWrap_extends _ _ _ _ Hc1) in Hw.
  unfold childWrap in Hw. unfold BinaryOperator_handleSide.
  destruct (asOperator e) as [op|].
  - unfold bind, query.
    destruct (resolveOperatorPrecedence op c1) as [p| |]; try discriminate.
    injection Hw as <-. reflexivity.
  - injection Hw as <-. reflexivity.
Qed.

Lemma TernaryOperator_handleExpr_renderChild
      (c : Compiler) (ownPrec : N) (e : Expr) (w : bool) :
  childWrap (ternaryNeedsParen ownPrec) e c = Some w ->
  agreeAfter c (TernaryOperator_handleExpr Stringify ownPrec e) (renderChild w e).
Proof.
  intros Hw c1 Hc1. rewrite <- (childWrap_extends _ _ _ _ Hc1) in Hw.
  unfold childWrap in Hw. unfold TernaryOperator_handleExpr.
  destruct (asOperator e) as [op|].
  - unfold bind, query.
    destruct (resolveOperatorPrecedence op c1) as [p| |]; try discriminate.
    injection Hw as <-. reflexivity.
  - injection Hw as <-. reflexivity.
Qed.

Lemma BinaryOperator_Stringify_children
      (b : BinaryOperator) (c : Compiler) (assoc ownPrec : N) (wl wr : bool) :
  resolveOperatorAssociativity (opBinary b) c = Ok assoc ->
  resolveOperatorPrecedence (opBinary b) c = Ok ownPrec ->
  childWrap (binaryNeedsParen assoc ownPrec RightAssociative) (b_Left b) c = Some wl ->
  childWrap (binaryNeedsParen assoc ownPrec LeftAssociative) (b_Right b) c = Some wr ->
  Stringify (NBinaryOperator b) c
  = (renderChild wl (b_Left b) ;;
     exec (WriteVerbatim (binarySymbolText b)) ;;
     renderChild wr (b_Right b)) c.
Proof.
  intros Ha Hp Hl Hr.
  change (Stringify (NBinaryOperator b)) with (BinaryOperator_Stringify Stringify b).
  unfold BinaryOperator_Stringify.
  unfold bind at 1, query at 1. rewrite Ha.
  unfold bind at 1, query at 1. rewrite Hp.
  apply agreeAfter_here.
  apply agreeAfter_bind.
  - unfold BinaryOperator_handleSide. mono; auto using monotone_stringifyParen,
      Stringify_monotone.
  - now apply BinaryOperator_handleSide_renderChild.
  - intros _. apply agreeAfter_bind.
    + destruct (b_SuppressSpace b); mono.
    + unfold binarySymbolText. destruct (b_SuppressSpace b); apply agreeAfter_refl.
    + intros _. now apply BinaryOperator_handleSide_renderChild.
Qed.

Lemma resolve_Sub (c : Compiler) (p : N) (x y : Expr) :
  Compiler_associativity c OpSub = LeftAssociative ->
  Compiler_precedence c OpSub = p -> p <> 0 ->
  resolveOperatorAssociativity (opBinary (Sub x y)) c = Ok LeftAssociative
  /\ resolveOperatorPrecedence (opBinary (Sub x y)) c = Ok p.
Proof.
  intros Ha Hp Hp0.
  unfold resolveOperatorAssociativity, resolveOperatorPrecedence; simpl.
  rewrite Ha, Hp. apply N.eqb_neq in Hp0. now rewrite Hp0.
Qed.

Lemma childWrap_Sub (c : Compiler) (p : N) (x y : Expr) (target : Associativity) :
  Compiler_precedence c OpSub = p -> p <> 0 ->
  childWrap (binaryNeedsParen LeftAssociative p target) (NBinaryOperator (Sub x y)) c
  = Some (LeftAssociative =? target).
Proof.
  intros Hp Hp0. unfold childWrap; simpl.
  unfold resolveOperatorPrecedence; simpl. rewrite Hp.
  apply N.eqb_neq in Hp0. rewrite Hp0; simpl.
  unfold binaryNeedsParen. rewrite N.ltb_irrefl, N.eqb_refl. reflexivity.
Qed.

(** C1.  Let the binary operator [b] resolve to associativity [assoc] and
    precedence [ownPrec], and let [wl], [wr] be the decisions for its two
    children.  Then [b] renders as the left child, the symbol, the right
    child, the left child being wrapped in parentheses exactly when [wl] and
    the right one exactly when [wr]; [wl] holds iff the left child is an
    operator whose resolved precedence [childPrec] satisfies
    [(assoc = NonAssociative /\ childPrec <= ownPrec) \/
     (assoc <> NonAssociative /\ (childPrec < ownPrec \/
       (childPrec = ownPrec /\ assoc = RightAssociative)))],
    and [wr] iff the same holds of the right child with [LeftAssociative] as
    the tie-break; a child that is not an operator is not wrapped.  With SUB
    left-associative in the dialect, [SUB(SUB(x,y),z)] renders its left child
    without parentheses and [SUB(x,SUB(y,z))] its right child with them. *)
Theorem BinaryOperator_parentheses
        (b : BinaryOperator) (c : Compiler) (assoc ownPrec : N) (wl wr : bool) :
  resolveOperatorAssociativity (opBinary b) c = Ok assoc ->
  resolveOperatorPrecedence (opBinary b) c = Ok ownPrec ->
  childWrap (binaryNeedsParen assoc ownPrec RightAssociative) (b_Left b) c = Some wl ->
  childWrap (binaryNeedsParen assoc ownPrec LeftAssociative) (b_Right b) c = Some wr ->
  Stringify (NBinaryOperator b) c
  = (renderChild wl (b_Left b) ;;
     exec (WriteVerbatim (binarySymbolText b)) ;;
     renderChild wr (b_Right b)) c
  /\ (wl = true <->
      exists op childPrec,
        asOperator (b_Left b) = Some op
        /\ resolveOperatorPrecedence op c = Ok childPrec
        /\ ((assoc = NonAssociative /\ childPrec <= ownPrec)
            \/ (assoc <> NonAssociative
                /\ (childPrec < ownPrec
                    \/ (childPrec = ownPrec /\ assoc = RightAssociative)))))
  /\ (wr = true <->
      exists op childPrec,
        asOperator (b_Right b) = Some op
        /\ resolveOperatorPrecedence op c = Ok childPrec
        /\ ((assoc = NonAssociative /\ childPrec <= ownPrec)
            \/ (assoc <> NonAssociative
                /\ (childPrec < ownPrec
                    \/ (childPrec = ownPrec /\ assoc = LeftAssociative)))))
  /\ (asOperator (b_Left b) = None -> wl = false)
  /\ (asOperator (b_Right b) = None -> wr = false)
  /\ (forall (c' : Compiler) (p : N) (x y z : Expr) (w : bool),
         Compiler_associativity c' OpSub = LeftAssociative ->
         Compiler_precedence c' OpSub = p -> p <> 0 ->
         (childWrap (binaryNeedsParen LeftAssociative p LeftAssociative) z c' = Some w ->
          Stringify (NBinaryOperator (Sub (NBinaryOperator (Sub x y)) z)) c'
          = (renderChild false (NBinaryOperator (Sub x y)) ;;
             exec (WriteVerbatim " - ") ;;
             renderChild w z) c')
         /\ (childWrap (binaryNeedsParen LeftAssociative p RightAssociative) x c' = Some w ->
             Stringify (NBinaryOperator (Sub x (NBinaryOperator (Sub y z)))) c'
             = (renderChild w x ;;
                exec (WriteVerbatim " - ") ;;
                renderChild true (NBinaryOperator (Sub y z))) c')).
Proof.
  intros Ha Hp Hl Hr.
  split; [now apply BinaryOperator_Stringify_children with assoc ownPrec|].
  split; [|split; [|split; [|split]]].
  - rewrite (childWrap_true _ _ _ _ Hl).
    split; intros (op & p & H1 & H2 & H3); exists op, p; repeat split; auto;
      now apply binaryNeedsParen_true.
  - rewrite (childWrap_true _ _ _ _ Hr).
    split; intros (op & p & H1 & H2 & H3); exists op, p; repeat split; auto;
      now apply binaryNeedsParen_true.
  - intros Hn. unfold childWrap in Hl. rewrite Hn in Hl. congruence.
  - intros Hn. unfold childWrap in Hr. rewrite Hn in Hr. congruence.
  - intros c' p x y z w Ha' Hp' Hp0. split; intros Hw.
    + destruct (resolve_Sub c' p (NBinaryOperator (Sub x y)) z Ha' Hp' Hp0) as [Ra Rp].
      apply (BinaryOperator_Stringify_children _ c' _ _ false w Ra Rp); simpl; [|exact Hw].
      now apply childWrap_Sub.
    + destruct (resolve_Sub c' p x (NBinaryOperator (Sub y z)) Ha' Hp' Hp0) as [Ra Rp].
      apply (BinaryOperator_Stringify_children _ c' _ _ w true Ra Rp); simpl; [exact Hw|].
      now apply childWrap_Sub.
Qed.

Lemma BinaryOperator_parentheses_witness :
  let inner := NBinaryOperator (Sub (column "b") (column "c")) in
  let b := Sub (column "a") inner in
  childWrap (binaryNeedsParen LeftAssociative 6 LeftAssociative) inner exampleCompiler
  = Some true
  /\ Stringify (NBinaryOperator b) exampleCompiler
     = (renderChild false (column "a") ;;
        exec (WriteVerbatim " - ") ;;
        renderChild true inner) exampleCompiler
  /\ buf (snd (Stringify (NBinaryOperator b) exampleCompiler)) = "a - (b - c)".
Proof.
  intros inner b.
  split; [reflexivity|]. split; [|reflexivity].
  exact (proj1 (BinaryOperator_parentheses b exampleCompiler LeftAssociative 6
                  false true eq_refl eq_refl eq_refl eq_refl)).
Defined.

Lemma TernaryOperator_Stringify_children
      (t : TernaryOperator) (c : Compiler) (ownPrec : N) (w1 w2 w3 : bool) :
  resolveOperatorPrecedence (opTernary t) c = Ok ownPrec ->
  childWrap (ternaryNeedsParen ownPrec) (t_Expr1 t) c = Some w1 ->
  childWrap (ternaryNeedsParen ownPrec) (t_Expr2 t) c = Some w2 ->
  childWrap (ternaryNeedsParen ownPrec) (t_Expr3 t) c = Some w3 ->
  Stringify (NTernaryOperator t) c
  = (renderChild w1 (t_Expr1 t) ;;
     exec (WriteVerbatim (" " ++ t_Symbol1 t ++ " ")) ;;
     renderChild w2 (t_Expr2 t) ;;
     exec (WriteVerbatim (" " ++ t_Symbol2 t ++ " ")) ;;
     renderChild w3 (t_Expr3 t)) c.
Proof.
  intros Hp H1 H2 H3.
  change (Stringify (NTernaryOperator t)) with (TernaryOperator_Stringify Stringify t).
  unfold TernaryOperator_Stringify.
  unfold bind at 1, query at 1. rewrite Hp.
  assert (Hm : forall e, monotone (TernaryOperator_handleExpr Stringify ownPrec e)).
  { intros e. unfold TernaryOperator_handleExpr.
    mono; auto using monotone_stringifyParen, Stringify_monotone. }
  apply agreeAfter_here.
  apply agreeAfter_bind; [apply Hm | now apply TernaryOperator_handleExpr_renderChild |].
  intros _. apply agreeAfter_bind; [mono | apply agreeAfter_refl |].
  intros _.
  apply agreeAfter_bind; [apply Hm | now apply TernaryOperator_handleExpr_renderChild |].
  intros _. apply agreeAfter_bind; [mono | apply agreeAfter_refl |].
  intros _. now apply TernaryOperator_handleExpr_renderChild.
Qed.

Lemma ternaryNeedsParen_true (ownPrec childPrec : N) :
  ternaryNeedsParen ownPrec childPrec = true <-> childPrec <= ownPrec.
Proof. apply N.leb_le. Qed.

Lemma childWrap_decision (decide : N -> bool) (P : N -> Prop) (e : Expr)
      (c : Compiler) (w : bool) :
  (forall p, decide p = true <-> P p) ->
  childWrap decide e c = Some w ->
  (w = true <->
   exists op childPrec,
     asOperator e = Some op
     /\ resolveOperatorPrecedence op c = Ok childPrec
     /\ P childPrec).
Proof.
  intros HP Hw. rewrite (childWrap_true _ _ _ _ Hw).
  split; intros (op & p & H1 & H2 & H3); exists op, p; repeat split; auto;
    now apply HP.
Qed.

(** C3.  Let the ternary operator [t] resolve to precedence [ownPrec] and
    let [w1], [w2], [w3] be the decisions for its children.  Then [t]
    renders as child1 SYMBOL1 child2 SYMBOL2 child3, each child wrapped in
    parentheses exactly when its decision holds; the decision of a child
    holds iff the child is an operator whose resolved precedence is less
    than or equal to [ownPrec]: it holds at an exact tie, and it does not
    hold for a child that is not an operator. *)
Theorem TernaryOperator_parentheses
        (t : TernaryOperator) (c : Compiler) (ownPrec : N) (w1 w2 w3 : bool) :
  resolveOperatorPrecedence (opTernary t) c = Ok ownPrec ->
  childWrap (ternaryNeedsParen ownPrec) (t_Expr1 t) c = Some w1 ->
  childWrap (ternaryNeedsParen ownPrec) (t_Expr2 t) c = Some w2 ->
  childWrap (ternaryNeedsParen ownPrec) (t_Expr3 t) c = Some w3 ->
  Stringify (NTernaryOperator t) c
  = (renderChild w1 (t_Expr1 t) ;;
     exec (WriteVerbatim (" " ++ t_Symbol1 t ++ " ")) ;;
     renderChild w2 (t_Expr2 t) ;;
     exec (WriteVerbatim (" " ++ t_Symbol2 t ++ " ")) ;;
     renderChild w3 (t_Expr3 t)) c
  /\ (forall e w,
         List.In (e, w) [(t_Expr1 t, w1); (t_Expr2 t, w2); (t_Expr3 t, w3)] ->
         (w = true <->
          exists op childPrec,
            asOperator e = Some op
            /\ resolveOperatorPrecedence op c = Ok childPrec
            /\ childPrec <= ownPrec)
         /\ (forall op, asOperator e = Some op ->
                        resolveOperatorPrecedence op c = Ok ownPrec -> w = true)
         /\ (asOperator e = None -> w = false)).
Proof.
  intros Hp H1 H2 H3.
  split; [now apply TernaryOperator_Stringify_children with ownPrec|].
  assert (Hall : forall e w, childWrap (ternaryNeedsParen ownPrec) e c = Some w ->
    (w = true <->
     exists op childPrec,
       asOperator e = Some op
       /\ resolveOperatorPrecedence op c = Ok childPrec
       /\ childPrec <= ownPrec)
    /\ (forall op, asOperator e = Some op ->
                   resolveOperatorPrecedence op c = Ok ownPrec -> w = true)
    /\ (asOperator e = None -> w = false)).
  { intros e w Hw. split; [|split].
    - apply (childWrap_decision _ _ _ _ _ (ternaryNeedsParen_true ownPrec) Hw).
    - intros op Ho Hr. unfold childWrap in Hw. rewrite Ho, Hr in Hw.
      injection Hw as <-. apply N.leb_refl.
    - intros Ho. unfold childWrap in Hw. rewrite Ho in Hw. congruence. }
  intros e w [[= <- <-]|[[= <- <-]|[[= <- <-]|[]]]]; now apply Hall.
Qed.

Lemma TernaryOperator_parentheses_witness :
  let tie := NBinaryOperator (Eq (column "b") (column "c")) in
  let t := Between (column "a") tie (column "d") in
  resolveOperatorPrecedence (opTernary t) exampleCompiler = Ok 4
  /\ childWrap (ternaryNeedsParen 4) tie exampleCompiler = Some true
  /\ Stringify (NTernaryOperator t) exampleCompiler
     = (renderChild false (column "a") ;;
        exec (WriteVerbatim " BETWEEN ") ;;
        renderChild true tie ;;
        exec (WriteVerbatim " AND ") ;;
        renderChild false (column "d")) exampleCompiler
  /\ buf (snd (Stringify (NTernaryOperator t) exampleCompiler))
     = "a BETWEEN (b = c) AND d".
Proof.
  intros tie t.
  split; [reflexivity|]. split; [reflexivity|]. split; [|reflexivity].
  exact (proj1 (TernaryOperator_parentheses t exampleCompiler 4 false true false
                  eq_refl eq_refl eq_refl eq_refl)).
Defined.

Lemma bind_ret_tt (m : M unit) (c : Compiler) :
  (m ;; ret tt) c = m c.
Proof. unfold bind, ret. now destruct (m c) as [[[]| |] c1]. Qed.

Lemma bind_exec {B} (f : Compiler -> Compiler) (k : unit -> M B) (c : Compiler) :
  bind (exec f) k c = k tt (f c).
Proof. reflexivity. Qed.

Lemma unaryNeedsParen_true (ownPrec childPrec : N) :
  unaryNeedsParen ownPrec childPrec = true <-> childPrec < ownPrec.
Proof. apply N.ltb_lt. Qed.

Lemma UnaryOperator_Stringify_child
      (u : UnaryOperator) (c : Compiler) (assoc ownPrec : N) (w : bool) :
  resolveOperatorAssociativity (opUnary u) c = Ok assoc ->
  assoc <> NonAssociative ->
  resolveOperatorPrecedence (opUnary u) c = Ok ownPrec ->
  childWrap (unaryNeedsParen ownPrec) (u_Expr u) c = Some w ->
  Stringify (NUnaryOperator u) c
  = UnaryOperator_write Stringify u assoc (u_Expr u) w c.
Proof.
  intros Ha Hna Hp Hw.
  change (Stringify (NUnaryOperator u)) with (UnaryOperator_Stringify Stringify u).
  unfold UnaryOperator_Stringify.
  unfold bind at 1, query at 1. rewrite Ha.
  apply N.eqb_neq in Hna. rewrite Hna.
  unfold bind at 1, query at 1. rewrite Hp.
  unfold childWrap in Hw.
  destruct (asOperator (u_Expr u)) as [v|].
  - unfold bind at 1, query at 1.
    destruct (resolveOperatorPrecedence v c) as [p| |]; try discriminate.
    injection Hw as <-. unfold unaryNeedsParen.
    now destruct (p <? ownPrec).
  - now injection Hw as <-.
Qed.

(** C4.  A unary operator [u] whose resolved associativity is
    NonAssociative fails to render, with [ErrNonAssociative], and writes
    nothing.  Otherwise, with resolved precedence [ownPrec] and [w] the
    decision for the operand: a Right-associative [u] renders as the symbol,
    a space and the operand, a Left-associative one as the operand, a space
    and the symbol, the operand being wrapped in parentheses exactly when
    [w]; and [w] holds iff the operand is an operator whose resolved
    precedence is strictly less than [ownPrec], so not at equal precedence
    and not for an operand that is not an operator. *)
Theorem UnaryOperator_rendering (u : UnaryOperator) (c : Compiler) :
  (resolveOperatorAssociativity (opUnary u) c = Ok NonAssociative ->
   Stringify (NUnaryOperator u) c = (Err ErrNonAssociative, c))
  /\ (forall (assoc ownPrec : N) (w : bool),
         resolveOperatorAssociativity (opUnary u) c = Ok assoc ->
         assoc <> NonAssociative ->
         resolveOperatorPrecedence (opUnary u) c = Ok ownPrec ->
         childWrap (unaryNeedsParen ownPrec) (u_Expr u) c = Some w ->
         (assoc = RightAssociative ->
          Stringify (NUnaryOperator u) c
          = (exec (WriteVerbatim (u_Symbol u ++ " ")) ;;
             renderChild w (u_Expr u)) c)
         /\ (assoc = LeftAssociative ->
             Stringify (NUnaryOperator u) c
             = (renderChild w (u_Expr u) ;;
                exec (WriteVerbatim (" " ++ u_Symbol u))) c)
         /\ (w = true <->
             exists op childPrec,
               asOperator (u_Expr u) = Some op
               /\ resolveOperatorPrecedence op c = Ok childPrec
               /\ childPrec < ownPrec)
         /\ (forall op, asOperator (u_Expr u) = Some op ->
                        resolveOperatorPrecedence op c = Ok ownPrec -> w = false)
         /\ (asOperator (u_Expr u) = None -> w = false)).
Proof.
  split.
  - intros Ha.
    change (Stringify (NUnaryOperator u)) with (UnaryOperator_Stringify Stringify u).
    unfold UnaryOperator_Stringify, bind, query. now rewrite Ha.
  - intros assoc ownPrec w Ha Hna Hp Hw.
    pose proof (UnaryOperator_Stringify_child u c assoc ownPrec w Ha Hna Hp Hw) as E.
    split; [|split; [|split; [|split]]].
    + intros ->. rewrite E. unfold UnaryOperator_write; simpl.
      rewrite !bind_exec. apply bind_ret_tt.
    + intros ->. rewrite E. unfold UnaryOperator_write; simpl.
      unfold bind at 1, ret at 1. reflexivity.
    + apply (childWrap_decision _ _ _ _ _ (unaryNeedsParen_true ownPrec) Hw).
    + intros op Ho Hr. unfold childWrap in Hw. rewrite Ho, Hr in Hw.
      injection Hw as <-. apply N.ltb_irrefl.
    + intros Ho. unfold childWrap in Hw. rewrite Ho in Hw. congruence.
Qed.

Lemma UnaryOperator_rendering_witness :
  let operand := NBinaryOperator (And (column "a") (column "b")) in
  let u := Not operand in
  let bad := {| u_Type := OpNot; u_Symbol := "NOT"; u_NegatedType := 0;
                u_NegatedSymbol := ""; u_Expr := operand;
                u_CustomPrecedence := 0;
                u_CustomAssociativity := NonAssociative |} in
  Stringify (NUnaryOperator bad) exampleCompiler
  = (Err ErrNonAssociative, exampleCompiler)
  /\ childWrap (unaryNeedsParen 3) operand exampleCompiler = Some true
  /\ Stringify (NUnaryOperator u) exampleCompiler
     = (exec (WriteVerbatim "NOT ") ;; renderChild true operand) exampleCompiler
  /\ buf (snd (Stringify (NUnaryOperator u) exampleCompiler)) = "NOT (a AND b)".
Proof.
  intros operand u bad.
  split; [|split; [reflexivity|split; [|reflexivity]]].
  - exact (proj1 (UnaryOperator_rendering bad exampleCompiler) eq_refl).
  - refine (proj1 (proj2 (UnaryOperator_rendering u exampleCompiler)
                     RightAssociative 3 true eq_refl _ eq_refl eq_refl) eq_refl).
    discriminate.
Defined.

(** ** Placeholders *)

Lemma later_extends (c c' : Compiler) : later c c' -> extends c c'.
Proof.
  induction 1 as [|c1 c2 n r _ IH Hs].
  - apply extends_refl.
  - eapply extends_trans; [exact IH|]. eapply Stringify_monotone; eauto.
Qed.

(** The writes of a pass are themselves renderings of nodes, so the states
    between the writes of a composite node are [later] states as well. *)
Lemma later_WriteVerbatim (c : Compiler) (s : string) :
  later c (WriteVerbatim s c).
Proof.
  apply (later_step c c _ (NSQLType s) (Ok tt) (later_refl c)). reflexivity.
Qed.

Lemma later_WriteIdentifier (c : Compiler) (s : string) :
  later c (WriteIdentifier s c).
Proof.
  apply (later_step c c _ (NColumn (mkColumn "" s)) (Ok tt) (later_refl c)).
  reflexivity.
Qed.

Lemma Placeholder_Stringify_bound (name : string) (pos : N) (c : Compiler) :
  lookupBinding name (bindings c) = Some pos ->
  Stringify (NPlaceholder name) c
  = (Ok tt, WriteVerbatim (makePlaceholder c name pos) c).
Proof.
  intros H. simpl. unfold Placeholder_Stringify, bind, call, insertPlaceholder.
  now rewrite H.
Qed.

Lemma Placeholder_Stringify_fresh (name : string) (c : Compiler) :
  lookupBinding name (bindings c) = None ->
  let pos := N.of_nat (List.length (bindings c)) + 1 in
  Stringify (NPlaceholder name) c
  = (Ok tt, WriteVerbatim (makePlaceholder c name pos)
              (setBindings c ((bindings c ++ [(name, pos)])%list))).
Proof.
  intros H. simpl. unfold Placeholder_Stringify, bind, call, insertPlaceholder.
  now rewrite H.
Qed.

Lemma Placeholder_Stringify_later
      (name : string) (pos : N) (c c1 c2 c3 : Compiler) (r' : result unit) :
  lookupBinding name (bindings c1) = Some pos ->
  placeholderRule c1 = placeholderRule c ->
  later c1 c2 ->
  Stringify (NPlaceholder name) c2 = (r', c3) ->
  r' = Ok tt
  /\ lookupBinding name (bindings c3) = Some pos
  /\ buf c3 = (buf c2 ++ makePlaceholder c name pos)%string
  /\ bindings c3 = bindings c2.
Proof.
  intros Hl Hc Hlater Hs.
  destruct (later_extends _ _ Hlater) as ((_ & _ & _ & Hrule) & Hk & _).
  rewrite (Placeholder_Stringify_bound _ _ _ (Hk _ _ Hl)) in Hs.
  injection Hs as <- <-. unfold makePlaceholder. rewrite Hrule, Hc.
  repeat split. simpl. now apply Hk.
Qed.

(** C6.  Rendering the placeholder [name] from a state [c] of a print pass
    succeeds and leaves [name] bound to a position [pos]; the text appended
    is the dialect's rendering function at [(name, pos)]; [pos] is the
    position [name] already had, or, for a name not yet bound, the number of
    bindings so far plus one, which is then recorded.  Every placeholder of
    the same name rendered from a later state [c2] of the pass resolves to
    the same [pos], appends the same text and binds nothing new. *)
Theorem Placeholder_position_stable
        (name : string) (c c1 : Compiler) (r : result unit) :
  Stringify (NPlaceholder name) c = (r, c1) ->
  r = Ok tt
  /\ exists pos,
      lookupBinding name (bindings c1) = Some pos
      /\ buf c1 = (buf c ++ makePlaceholder c name pos)%string
      /\ (forall p, lookupBinding name (bindings c) = Some p ->
                    pos = p /\ bindings c1 = bindings c)
      /\ (lookupBinding name (bindings c) = None ->
          pos = N.of_nat (List.length (bindings c)) + 1
          /\ bindings c1 = (bindings c ++ [(name, pos)])%list)
      /\ (forall c2 r' c3,
             later c1 c2 ->
             Stringify (NPlaceholder name) c2 = (r', c3) ->
             r' = Ok tt
             /\ lookupBinding name (bindings c3) = Some pos
             /\ buf c3 = (buf c2 ++ makePlaceholder c name pos)%string
             /\ bindings c3 = bindings c2).
Proof.
  intros Hs.
  destruct (lookupBinding name (bindings c)) as [p|] eqn:Hl.
  - rewrite (Placeholder_Stringify_bound _ _ _ Hl) in Hs.
    injection Hs as <- <-. split; [reflexivity|]. exists p.
    split; [exact Hl|]. split; [reflexivity|].
    split; [intros q [= <-]; now split|]. split; [discriminate|].
    intros c2 r' c3 Hlater Hs2.
    now apply (Placeholder_Stringify_later name p c
                 (WriteVerbatim (makePlaceholder c name p) c) c2 c3 r' Hl eq_refl Hlater).
  - rewrite (Placeholder_Stringify_fresh _ _ Hl) in Hs.
    injection Hs as <- <-. split; [reflexivity|].
    exists (N.of_nat (List.length (bindings c)) + 1).
    split; [simpl; now apply lookupBinding_fresh|]. split; [reflexivity|].
    split; [discriminate|]. split; [intros _; now split|].
    intros c2 r' c3 Hlater Hs2.
    eapply (Placeholder_Stringify_later name _ c); [| |exact Hlater|exact Hs2].
    + simpl. now apply lookupBinding_fresh.
    + reflexivity.
Qed.

Lemma Placeholder_position_stable_witness :
  let c1 := snd (Stringify (NPlaceholder "x") exampleCompiler) in
  let between := NBinaryOperator (Eq (column "a") (NPlaceholder "y")) in
  let c2 := snd (Stringify between c1) in
  let c3 := snd (Stringify (NPlaceholder "x") c2) in
  later c1 c2
  /\ exists pos,
      lookupBinding "x" (bindings c1) = Some pos
      /\ lookupBinding "x" (bindings c3) = Some pos
      /\ buf c3 = (buf c2 ++ makePlaceholder exampleCompiler "x" pos)%string
      /\ bindings c3 = bindings c2.
Proof.
  intros c1 between c2 c3.
  assert (L : later c1 c2).
  { apply (later_step c1 c1 c2 between (fst (Stringify between c1))
             (later_refl c1)).
    apply surjective_pairing. }
  split; [exact L|].
  destruct (Placeholder_position_stable "x" exampleCompiler c1 (Ok tt) eq_refl)
    as (_ & pos & H1 & _ & _ & _ & H5).
  exists pos.
  destruct (H5 c2 (fst (Stringify (NPlaceholder "x") c2)) c3 L
              (surjective_pairing _)) as (_ & A & B & C).
  repeat split; assumption.
Defined.

(** ** SELECT and ORDER BY *)

Lemma bind_assoc {A B C} (m : M A) (k : A -> M B) (h : B -> M C) (c : Compiler) :
  bind (bind m k) h c = bind m (fun a => bind (k a) h) c.
Proof.
  unfold bind. destruct (m c) as [[a|e|] c1]; reflexivity.
Qed.

Lemma SelectStmt_Stringify_eq (s : SelectStmt) :
  Stringify (NSelectStmt s)
  = SelectStmt_Stringify_body Stringify FromClauseItem_Stringify s.
Proof. destruct s; reflexivity. Qed.

(** C9.  Rendering a SELECT statement writes "SELECT " and then indexes the
    first column: with an empty column list this panics, and no error value
    is returned; with a non-empty list the first column is rendered right
    after "SELECT ", each further column after a bare comma, that is, the
    columns are rendered as [stringifyCommaSeparated] renders a non-empty
    list, and the clauses follow. *)
Theorem SelectStmt_Stringify_columns (s : SelectStmt) (c : Compiler) :
  (s_Columns s = [] ->
   Stringify (NSelectStmt s) c = (Panicked, WriteVerbatim "SELECT " c)
   /\ forall e, fst (Stringify (NSelectStmt s) c) <> Err e)
  /\ (forall col0 rest,
         s_Columns s = col0 :: rest ->
         Stringify (NSelectStmt s) c
         = (exec (WriteVerbatim "SELECT ") ;;
            LabeledColumn_Stringify Stringify col0 ;;
            forEach (fun se => exec (WriteVerbatim ",") ;;
                               LabeledColumn_Stringify Stringify se) rest ;;
            selectClauses s) c
         /\ Stringify (NSelectStmt s) c
            = (exec (WriteVerbatim "SELECT ") ;;
               stringifyCommaSeparated (LabeledColumn_Stringify Stringify)
                 (s_Columns s) ;;
               selectClauses s) c).
Proof.
  rewrite SelectStmt_Stringify_eq. unfold SelectStmt_Stringify_body.
  split.
  - intros ->. split; [reflexivity|]. intros e; discriminate.
  - intros col0 rest ->. split; [reflexivity|].
    unfold stringifyCommaSeparated.
    rewrite !bind_exec. now rewrite bind_assoc.
Qed.

Lemma SelectStmt_Stringify_columns_witness :
  let none := mkSelectStmt [] None None None None None None None in
  let cols := [mkLabeledColumn (column "a") "x"; mkLabeledColumn (column "b") "y"] in
  let two := mkSelectStmt cols None (Some (column "w")) None None None None None in
  Stringify (NSelectStmt none) exampleCompiler
  = (Panicked, WriteVerbatim "SELECT " exampleCompiler)
  /\ Stringify (NSelectStmt two) exampleCompiler
     = (exec (WriteVerbatim "SELECT ") ;;
        stringifyCommaSeparated (LabeledColumn_Stringify Stringify) cols ;;
        selectClauses two) exampleCompiler
  /\ buf (snd (Stringify (NSelectStmt two) exampleCompiler))
     = "SELECT a x,b y WHERE w".
Proof.
  intros none cols two. split; [|split; [|reflexivity]].
  - exact (proj1 (proj1 (SelectStmt_Stringify_columns none exampleCompiler) eq_refl)).
  - exact (proj2 (proj2 (SelectStmt_Stringify_columns two exampleCompiler)
                    _ _ eq_refl)).
Defined.

(** C10.  Of the four combinations of direction and nulls preference, two
    emit a NULLS keyword: a descending item marked nulls-last renders
    " DESC NULLS LAST" after its expression and an ascending item marked
    nulls-first renders " NULLS FIRST"; [NullsLast] of an ascending item
    and [NullsFirst] of a descending item render as the item without the
    preference does, although [nullsSet] is true in both. *)
Theorem orderbyItem_Stringify_nulls (e : Expr) (c : Compiler) :
  Stringify (NorderbyItem (NullsLast (Desc e))) c
  = (Stringify e ;;
     exec (WriteVerbatim " DESC") ;;
     exec (WriteVerbatim " NULLS LAST")) c
  /\ Stringify (NorderbyItem (NullsFirst (Asc e))) c
     = (Stringify e ;; exec (WriteVerbatim " NULLS FIRST")) c
  /\ Stringify (NorderbyItem (NullsLast (Asc e))) c = Stringify e c
  /\ Stringify (NorderbyItem (NullsLast (Asc e))) c
     = Stringify (NorderbyItem (Asc e)) c
  /\ Stringify (NorderbyItem (NullsFirst (Desc e))) c
     = (Stringify e ;; exec (WriteVerbatim " DESC")) c
  /\ Stringify (NorderbyItem (NullsFirst (Desc e))) c
     = Stringify (NorderbyItem (Desc e)) c
  /\ o_nullsSet (NullsLast (Asc e)) = true
  /\ o_nullsSet (NullsFirst (Desc e)) = true.
Proof.
  simpl. unfold orderbyItem_Stringify; simpl. unfold bind, exec, ret.
  repeat split; destruct (Stringify e c) as [[[]| |] c1]; reflexivity.
Qed.

(** * Properties of the rest of the two files *)

(** ** Generated placeholders *)

Lemma Itoa_inj (a b : Z) : Itoa a = Itoa b -> a = b.
Proof.
  unfold Itoa. intros H. apply DecimalZ.to_int_inj.
  assert (Hnn : forall z, Z.to_int z <> Decimal.Pos Decimal.Nil
                          /\ Z.to_int z <> Decimal.Neg Decimal.Nil).
  { intros [|p|p]; simpl; split; try discriminate; intros [= Hp];
      now apply (DecimalPos.Unsigned.to_uint_nonnil p). }
  destruct (Hnn a) as [Ha1 Ha2], (Hnn b) as [Hb1 Hb2].
  pose proof (NilZero.isi _ Ha1 Ha2) as Ia.
  pose proof (NilZero.isi _ Hb1 Hb2) as Ib.
  rewrite H in Ia. congruence.
Qed.

Lemma string_app_inv_head (p a b : string) :
  (p ++ a)%string = (p ++ b)%string -> a = b.
Proof. induction p; simpl; [auto | intros [= H]; auto]. Qed.

Lemma wrapInt_isInt (z : Z) : isInt z = true -> wrapInt z = z.
Proof.
  unfold isInt, wrapInt, minInt, maxInt. intros H.
  apply andb_true_iff in H. destruct H as [H1 H2].
  apply Z.leb_le in H1, H2.
  rewrite Z.mod_small; lia.
Qed.

Lemma generatePlaceholders_Ok (maxLen : Z) (prefix : string) (length : Z) :
  isInt length = true ->
  (0 < length <= maxLen)%Z ->
  generatePlaceholders maxLen prefix length
  = Ok (map (fun i => prefix ++ Itoa (Z.of_nat i + 1))%string
            (seq 0 (Z.to_nat length))).
Proof.
  intros Hi H. unfold generatePlaceholders, makeslice.
  destruct (Z.leb_spec length 0); [lia|].
  destruct (Z.ltb_spec length 0); [lia|].
  destruct (Z.ltb_spec maxLen length); [lia|]. cbn [orb].
  f_equal. apply map_ext_in. intros i Hin. apply in_seq in Hin.
  rewrite wrapInt_isInt; [reflexivity|].
  unfold isInt, minInt, maxInt in *.
  apply andb_true_iff in Hi. destruct Hi as [Hlo Hhi].
  apply Z.leb_le in Hlo, Hhi.
  apply andb_true_iff. split; apply Z.leb_le; lia.
Qed.

(** X1.  For a [length] that is a Go [int]: [generatePlaceholders] fails
    with [ErrZeroLength] exactly when [length <= 0]; it panics in [make]
    when [length] is beyond the largest slice length [maxLen] the runtime
    allocates; otherwise it returns [length] names, the name at index [i]
    being the prefix followed by the decimal numeral of [i+1], which does
    not wrap around, and no two of the names are equal. *)
Theorem generatePlaceholders_names (maxLen : Z) (prefix : string) (length : Z) :
  isInt length = true ->
  ((length <= 0)%Z <->
   generatePlaceholders maxLen prefix length = Err ErrZeroLength)
  /\ ((0 < length)%Z -> (maxLen < length)%Z ->
      generatePlaceholders maxLen prefix length = Panicked)
  /\ ((0 < length <= maxLen)%Z ->
      exists names,
        generatePlaceholders maxLen prefix length = Ok names
        /\ Z.of_nat (List.length names) = length
        /\ (forall i, (i < List.length names)%nat ->
                      nth_error names i
                      = Some (prefix ++ Itoa (Z.of_nat i + 1))%string)
        /\ NoDup names).
Proof.
  intros Hi. split; [|split].
  - unfold generatePlaceholders, makeslice. split.
    + intros H. destruct (Z.leb_spec length 0); [reflexivity | lia].
    + destruct (Z.leb_spec length 0); [lia|].
      destruct ((length <? 0) || (maxLen <? length))%Z; discriminate.
  - intros H0 H. unfold generatePlaceholders, makeslice.
    destruct (Z.leb_spec length 0); [lia|].
    destruct (Z.ltb_spec maxLen length); [|lia].
    now rewrite orb_true_r.
  - intros H. eexists.
    split; [now apply generatePlaceholders_Ok|].
    split; [|split].
    + rewrite length_map, length_seq. lia.
    + intros i Hlt. rewrite length_map, length_seq in Hlt.
      rewrite nth_error_map, nth_error_seq.
      destruct (Nat.ltb_spec i (Z.to_nat length)); [reflexivity | lia].
    + apply Finite.Injective_map_NoDup; [|apply seq_NoDup].
      intros i j Hij. apply string_app_inv_head, Itoa_inj in Hij. lia.
Qed.

Lemma generatePlaceholders_names_witness :
  generatePlaceholders 1000 "p" 0 = Err ErrZeroLength
  /\ generatePlaceholders 1000 "p" (-1) = Err ErrZeroLength
  /\ generatePlaceholders 1000 "p" 1001 = Panicked
  /\ exists names,
      generatePlaceholders 1000 "p" 3 = Ok names
      /\ Z.of_nat (List.length names) = 3%Z
      /\ (forall i, (i < List.length names)%nat ->
                    nth_error names i
                    = Some ("p" ++ Itoa (Z.of_nat i + 1))%string)
      /\ NoDup names.
Proof.
  split; [|split; [|split]].
  - apply (proj1 (proj1 (generatePlaceholders_names 1000 "p" 0 eq_refl))).
    discriminate.
  - apply (proj1 (proj1 (generatePlaceholders_names 1000 "p" (-1) eq_refl))).
    discriminate.
  - apply (proj1 (proj2 (generatePlaceholders_names 1000 "p" 1001 eq_refl)));
      reflexivity.
  - apply (proj2 (proj2 (generatePlaceholders_names 1000 "p" 3 eq_refl))).
    split; [reflexivity | discriminate].
Defined.

(** X2.  For a [length] that is a Go [int]: [PlaceholderTuple] fails with
    [ErrZeroLength] when [length <= 0] and panics when [length] is beyond
    the largest slice length [maxLen] the runtime allocates; for a
    [length] in between it succeeds, the zero-length check of
    [makePlaceholderTuple] never firing, and the tuple it returns holds
    exactly the generated placeholders, in their order. *)
Theorem PlaceholderTuple_names (maxLen : Z) (prefix : string) (length : Z) :
  isInt length = true ->
  ((length <= 0)%Z -> PlaceholderTuple maxLen prefix length = Err ErrZeroLength)
  /\ ((0 < length)%Z -> (maxLen < length)%Z ->
      PlaceholderTuple maxLen prefix length = Panicked)
  /\ ((0 < length <= maxLen)%Z ->
      exists names,
        generatePlaceholders maxLen prefix length = Ok names
        /\ PlaceholderTuple maxLen prefix length
           = Ok (names, NTuple (map NPlaceholder names))).
Proof.
  intros Hi. unfold PlaceholderTuple. split; [|split].
  - intros H. unfold generatePlaceholders.
    destruct (Z.leb_spec length 0); [reflexivity | lia].
  - intros H0 H. unfold generatePlaceholders, makeslice.
    destruct (Z.leb_spec length 0); [lia|].
    destruct (Z.ltb_spec maxLen length); [|lia].
    now rewrite orb_true_r.
  - intros H. rewrite (generatePlaceholders_Ok maxLen prefix length Hi H).
    eexists. split; [reflexivity|].
    destruct (Z.to_nat length) as [|k] eqn:Hk; [lia|].
    reflexivity.
Qed.

Lemma PlaceholderTuple_names_witness :
  PlaceholderTuple 1000 "p" 0 = Err ErrZeroLength
  /\ PlaceholderTuple 1000 "p" 1001 = Panicked
  /\ exists names,
      generatePlaceholders 1000 "p" 2 = Ok names
      /\ PlaceholderTuple 1000 "p" 2 = Ok (names, NTuple (map NPlaceholder names)).
Proof.
  split; [|split].
  - apply (proj1 (PlaceholderTuple_names 1000 "p" 0 eq_refl)). discriminate.
  - apply (proj1 (proj2 (PlaceholderTuple_names 1000 "p" 1001 eq_refl)));
      reflexivity.
  - apply (proj2 (proj2 (PlaceholderTuple_names 1000 "p" 2 eq_refl))).
    split; [reflexivity | discriminate].
Defined.

(** ** How rendering can fail *)

Section Failures.

Variable F : option error -> Prop.

Lemma failsWithin_ret {A} (a : A) : failsWithin F (ret a).
Proof. intros c f; discriminate. Qed.

Lemma failsWithin_exec (g : Compiler -> Compiler) : failsWithin F (exec g).
Proof. intros c f; discriminate. Qed.

Lemma failsWithin_read {A} (g : Compiler -> A) : failsWithin F (read g).
Proof. intros c f; discriminate. Qed.

Lemma failsWithin_call {A} (g : Compiler -> A * Compiler) : failsWithin F (call g).
Proof. intros c f. unfold call. destruct (g c). discriminate. Qed.

Lemma failsWithin_fail {A} (e : error) : F (Some e) -> failsWithin F (@fail A e).
Proof. intros H c f [= <-]. exact H. Qed.

Lemma failsWithin_panic {A} : F None -> failsWithin F (@panic A).
Proof. intros H c f [= <-]. exact H. Qed.

Lemma failsWithin_bind {A B} (m : M A) (k : A -> M B) :
  failsWithin F m -> (forall a, failsWithin F (k a)) -> failsWithin F (bind m k).
Proof.
  intros Hm Hk c f. unfold bind. specialize (Hm c).
  destruct (m c) as [[a|e|] c1]; simpl in *.
  - apply Hk.
  - intros [= <-]. now apply Hm.
  - intros [= <-]. now apply Hm.
Qed.

Lemma failsWithin_when (b : bool) (m : M unit) :
  failsWithin F m -> failsWithin F (when_ b m).
Proof. destruct b; simpl; auto using @failsWithin_ret. Qed.

Lemma failsWithin_forEach {A} (body : A -> M unit) (l : list A) :
  Forall (fun x => failsWithin F (body x)) l -> failsWithin F (forEach body l).
Proof.
  induction 1 as [|x l Hx Hl IH]; simpl.
  - apply failsWithin_ret.
  - apply failsWithin_bind; auto.
Qed.

Hypothesis F_NoPrecedence : F (Some ErrNoPrecedence).
Hypothesis F_NoAssociativity : F (Some ErrNoAssociativity).
Hypothesis F_NonAssociative : F (Some ErrNonAssociative).
Hypothesis F_UnknownFromClauseItem : F (Some ErrUnknownFromClauseItem).

Lemma failsWithin_resolveOperatorPrecedence (op : operator) :
  failsWithin F (query (resolveOperatorPrecedence op)).
Proof.
  intros c f. unfold query, resolveOperatorPrecedence; cbn [fst].
  destruct (negb (precedence op =? 0)); cbn [failure]; [discriminate|].
  destruct (negb (Compiler_precedence c (operatorType op) =? 0));
    cbn [failure]; [discriminate|].
  intros [= <-]. exact F_NoPrecedence.
Qed.

Lemma failsWithin_resolveOperatorAssociativity (op : operator) :
  failsWithin F (query (resolveOperatorAssociativity op)).
Proof.
  intros c f. unfold query, resolveOperatorAssociativity; cbn [fst].
  destruct (negb (associativity op =? 0)); cbn [failure]; [discriminate|].
  destruct (negb (Compiler_associativity c (operatorType op) =? 0));
    cbn [failure]; [discriminate|].
  intros [= <-]. exact F_NoAssociativity.
Qed.

Lemma safeOr_andb (a b : bool) : safeOr F (a && b) -> safeOr F a /\ safeOr F b.
Proof.
  intros [H|H]; [apply andb_true_iff in H; destruct H|]; split;
    (now left) || (now right).
Qed.

Lemma safeOr_forallb {A} (p : A -> bool) (l : list A) :
  safeOr F (forallb p l) -> Forall (fun x => safeOr F (p x)) l.
Proof.
  intros [H|H]; apply Forall_forall; intros x Hx.
  - left. rewrite forallb_forall in H. now apply H.
  - now right.
Qed.

Lemma safeOr_optAll {A} (p : A -> bool) (x : A) : safeOr F (optAll p (Some x)) -> safeOr F (p x).
Proof. exact (fun H => H). Qed.

Lemma Forall_mp {A} (P Q : A -> Prop) (l : list A) :
  Forall (fun x => P x -> Q x) l -> Forall P l -> Forall Q l.
Proof.
  induction 1 as [|x l Hx Hl IH]; intros HP; constructor;
    inversion HP; subst; auto.
Qed.

Ltac fw_step :=
  match goal with
  | |- failsWithin _ (bind _ _) => apply failsWithin_bind; [|intros]
  | |- failsWithin _ (when_ _ _) => apply failsWithin_when
  | |- failsWithin _ (exec _) => apply failsWithin_exec
  | |- failsWithin _ (ret _) => apply failsWithin_ret
  | |- failsWithin _ (read _) => apply failsWithin_read
  | |- failsWithin _ (call _) => apply failsWithin_call
  | |- failsWithin _ (fail _) => apply failsWithin_fail; assumption
  | |- failsWithin _ (query (resolveOperatorPrecedence _)) =>
      apply failsWithin_resolveOperatorPrecedence
  | |- failsWithin _ (query (resolveOperatorAssociativity _)) =>
      apply failsWithin_resolveOperatorAssociativity
  | |- failsWithin _ (if ?b then _ else _) => destruct b
  | |- failsWithin _ (match ?x with _ => _ end) => destruct x
  | _ => assumption
  end.

Ltac fw := repeat fw_step.

Lemma failsWithin_stringifyCommaSeparated {A} (str : A -> M unit) (l : list A) :
  Forall (fun x => failsWithin F (str x)) l ->
  failsWithin F (stringifyCommaSeparated str l).
Proof.
  intros H. unfold stringifyCommaSeparated.
  destruct H as [|x l Hx Hl]; [apply failsWithin_ret|].
  apply failsWithin_bind; [exact Hx|intros _].
  apply failsWithin_forEach.
  eapply Forall_impl; [|exact Hl]. intros a Ha; simpl. fw.
Qed.

Lemma failsWithin_CaseExpr_whens (str : Node -> M unit) (conds results : list Node) :
  Forall (fun x => failsWithin F (str x)) conds ->
  Forall (fun x => failsWithin F (str x)) results ->
  safeOr F (List.length conds <=? List.length results)%nat ->
  failsWithin F (CaseExpr_whens str conds (map str results)).
Proof.
  intros Hc. revert results.
  induction Hc as [|x conds Hx Hc IH]; intros results Hr Hlen; simpl.
  - apply failsWithin_ret.
  - destruct Hr as [|y results Hy Hr]; simpl.
    + destruct Hlen as [Hlen|Hp]; [simpl in Hlen; discriminate|].
      fw. now apply failsWithin_panic.
    + fw. apply IH; auto.
Qed.

Lemma failsWithin_stringifyParen (str : Node -> M unit) (e : Node) :
  failsWithin F (str e) -> failsWithin F (stringifyParen str e).
Proof. intros H. unfold stringifyParen. fw. Qed.

Lemma failsWithin_orderbyItem_Stringify (str : Node -> M unit) (o : orderbyItem) :
  failsWithin F (str (o_expr o)) -> failsWithin F (orderbyItem_Stringify str o).
Proof. intros H. unfold orderbyItem_Stringify. fw. Qed.

Lemma failsWithin_LabeledColumn_Stringify (str : Node -> M unit) (l : LabeledColumn) :
  failsWithin F (str (lc_Expr l)) -> failsWithin F (LabeledColumn_Stringify str l).
Proof. intros H. unfold LabeledColumn_Stringify. fw. Qed.

Lemma failsWithin_JoinClause_Stringify str strF (j : JoinClause) :
  failsWithin F (strF (j_left j)) -> failsWithin F (strF (j_right j)) ->
  failsWithin F (str (j_on j)) -> failsWithin F (JoinClause_Stringify str strF j).
Proof. intros H1 H2 H3. unfold JoinClause_Stringify. fw. Qed.

Ltac split_safe :=
  repeat match goal with
         | H : safeOr F (_ && _) |- _ => apply safeOr_andb in H; destruct H
         end.

Lemma failsWithin_list (l : list Node) :
  list_all (fun n => safeOr F (indexSafe n) -> failsWithin F (Stringify n)) l ->
  safeOr F (forallb indexSafe l) ->
  Forall (fun n => failsWithin F (Stringify n)) l.
Proof.
  intros IH Hs.
  exact (Forall_mp _ _ _ (list_all_Forall _ _ IH) (safeOr_forallb _ _ Hs)).
Qed.

Lemma failsWithin_orderbyItems (items : list orderbyItem) :
  list_all (orderbyItemOf_all
              (fun n => safeOr F (indexSafe n) -> failsWithin F (Stringify n)))
           items ->
  safeOr F (forallb (fun o => indexSafe (o_expr o)) items) ->
  Forall (fun o => failsWithin F (orderbyItem_Stringify Stringify o)) items.
Proof.
  intros IH Hs. apply safeOr_forallb in Hs.
  induction IH as [|o Ho l Hl IHl]; constructor; inversion Hs; subst.
  - destruct Ho. apply failsWithin_orderbyItem_Stringify; auto.
  - auto.
Qed.

Lemma failsWithin_LabeledColumns (cols : list LabeledColumn) :
  list_all (LabeledColumnOf_all
              (fun n => safeOr F (indexSafe n) -> failsWithin F (Stringify n)))
           cols ->
  safeOr F (forallb (fun lc => indexSafe (lc_Expr lc)) cols) ->
  Forall (fun l => failsWithin F (LabeledColumn_Stringify Stringify l)) cols.
Proof.
  intros IH Hs. apply safeOr_forallb in Hs.
  induction IH as [|o Ho l Hl IHl]; constructor; inversion Hs; subst.
  - destruct Ho. apply failsWithin_LabeledColumn_Stringify; auto.
  - auto.
Qed.

Lemma failsWithin_clause {A} (str : A -> M unit) (cl : option A) :
  (forall x, cl = Some x -> failsWithin F (str x)) ->
  failsWithin F (clause str cl).
Proof. intros H. destruct cl; simpl; fw. now apply H. Qed.

Lemma Stringify_failsWithin_all :
  (forall n, safeOr F (indexSafe n) -> failsWithin F (Stringify n))
  /\ (forall f, safeOr F (FromClauseItem_indexSafe f) ->
                failsWithin F (FromClauseItem_Stringify f))
  /\ (forall s, safeOr F (SelectStmt_indexSafe s) ->
                failsWithin F (SelectStmt_Stringify s)).
Proof.
  apply Node_mutind.
  - intros s Hs. simpl. unfold SQLType_Stringify. fw.
  - intros ce IH Hs. destruct IH. simpl in *.
    unfold CastExpr_Stringify, SQLType_Stringify; simpl. fw. auto.
  - intros f IH Hs. destruct IH as [name args Hargs omit]. simpl in *.
    pose proof (failsWithin_list _ Hargs Hs) as Hall.
    unfold FuncExpr_Stringify; simpl.
    destruct Hall as [|a args Ha Hall]; fw.
    apply failsWithin_forEach. eapply Forall_impl; [|exact Hall].
    intros x Hx; simpl. fw.
  - intros f IH Hs. simpl in *. unfold FromClause_Stringify. fw. auto.
  - intros j IH Hs. destruct IH. simpl in *. split_safe.
    apply failsWithin_JoinClause_Stringify; auto.
  - intros l IH Hs. destruct IH. simpl in *.
    unfold LabeledSelectStmt_Stringify; simpl. fw. auto.
  - intros col Hs. simpl. unfold Column_Stringify. fw.
  - intros l IH Hs. destruct IH. simpl in *.
    apply failsWithin_LabeledColumn_Stringify; auto.
  - intros t Hs. simpl. unfold Table_Stringify. fw.
  - intros l Hs. simpl. unfold LabeledTable_Stringify. fw.
  - intros f IH Hs. simpl in *. auto.
  - intros exprs IH Hs. simpl in *. unfold Tuple_Stringify. fw.
    apply failsWithin_stringifyCommaSeparated. now apply failsWithin_list.
  - intros ce IH Hs. destruct IH as [conds Hc results Hr els He]. simpl in *.
    split_safe. unfold CaseExpr_Stringify; simpl.
    apply failsWithin_bind; [fw|intros _].
    apply failsWithin_bind; [|intros _].
    + apply failsWithin_CaseExpr_whens; auto using failsWithin_list.
    + apply failsWithin_bind; [|intros _; fw].
      destruct He as [e He|]; fw. auto.
  - intros p Hs. simpl. unfold Placeholder_Stringify. fw.
  - intros e IH Hs. simpl in *. unfold WhereClause_Stringify. fw. auto.
  - intros exprs IH Hs. simpl in *. unfold GroupByClause_Stringify. fw.
    apply failsWithin_stringifyCommaSeparated. now apply failsWithin_list.
  - intros e IH Hs. simpl in *. unfold HavingClause_Stringify. fw. auto.
  - intros o IH Hs. destruct IH. simpl in *.
    apply failsWithin_orderbyItem_Stringify; auto.
  - intros items IH Hs. simpl in *. unfold OrderByClause_Stringify. fw.
    apply failsWithin_stringifyCommaSeparated.
    now apply failsWithin_orderbyItems.
  - intros e IH Hs. simpl in *. unfold LimitClause_Stringify. fw. auto.
  - intros e IH Hs. simpl in *. unfold OffsetClause_Stringify. fw. auto.
  - intros s IH Hs. simpl in *. auto.
  - intros u IH Hs. destruct IH as [ty sym nty nsym e He cp ca]. simpl in *.
    specialize (He Hs).
    unfold UnaryOperator_Stringify, UnaryOperator_write, stringifyParen; simpl.
    fw.
  - intros b IH Hs. destruct IH as [ty sym nty nsym l Hl r Hr cp ca ss].
    simpl in *. split_safe. specialize (Hl H). specialize (Hr H0).
    unfold BinaryOperator_Stringify, BinaryOperator_handleSide, stringifyParen;
      simpl.
    fw.
  - intros t IH Hs.
    destruct IH as [ty s1 s2 nty ns1 ns2 e1 H1 e2 H2 e3 H3 cp ca].
    simpl in *. split_safe. specialize (H1 H). specialize (H2 H4).
    specialize (H3 H0).
    unfold TernaryOperator_Stringify, TernaryOperator_handleExpr, stringifyParen;
      simpl.
    fw.
  - intros t sq IHsq jc IHjc Hs. simpl in *. split_safe.
    unfold FromClauseItem_Stringify_body; simpl.
    destruct t as [t|]; [unfold LabeledTable_Stringify; fw|].
    destruct IHsq as [l Hl|].
    + destruct Hl. unfold LabeledSelectStmt_Stringify; simpl in *. fw. auto.
    + destruct IHjc as [j Hj|]; [|fw]. destruct Hj. simpl in *. split_safe.
      apply failsWithin_JoinClause_Stringify; auto.
  - intros cols IHc f IHf w IHw g IHg h IHh o IHo l IHl off IHoff Hs.
    simpl in Hs. split_safe. simpl.
    unfold SelectStmt_Stringify_body; simpl.
    apply failsWithin_bind; [fw|intros _].
    match goal with
    | Hc : safeOr F (forallb _ cols) |- _ =>
        pose proof (failsWithin_LabeledColumns _ IHc Hc) as Hcols
    end.
    destruct Hcols as [|col0 rest Hcol0 Hrest].
    { match goal with
      | Hn : safeOr F (negb _) |- _ => destruct Hn as [Hn|Hn]
      end; [discriminate | now apply failsWithin_panic]. }
    apply failsWithin_bind; [exact Hcol0|intros _].
    apply failsWithin_bind; [|intros _].
    { apply failsWithin_forEach. eapply Forall_impl; [|exact Hrest].
      intros x Hx; simpl. fw. }
    repeat (apply failsWithin_bind; [|intros _]).
    + destruct IHf as [x Hx|]; simpl; fw. unfold FromClause_Stringify. fw. auto.
    + destruct IHw as [x Hx|]; simpl; fw. unfold WhereClause_Stringify. fw. auto.
    + destruct IHg as [x Hx|]; simpl; fw. unfold GroupByClause_Stringify. fw.
      apply failsWithin_stringifyCommaSeparated. now apply failsWithin_list.
    + destruct IHh as [x Hx|]; simpl; fw. unfold HavingClause_Stringify. fw. auto.
    + destruct IHo as [x Hx|]; simpl; fw. unfold OrderByClause_Stringify. fw.
      apply failsWithin_stringifyCommaSeparated.
      now apply failsWithin_orderbyItems.
    + destruct IHl as [x Hx|]; simpl; fw. unfold LimitClause_Stringify. fw. auto.
    + destruct IHoff as [x Hx|]; simpl; fw. unfold OffsetClause_Stringify. fw. auto.
Qed.

End Failures.

Lemma Stringify_no_panic (n : Node) (c : Compiler) :
  indexSafe n = true -> fst (Stringify n c) <> Panicked.
Proof.
  intros Hs Hp.
  assert (H : failsWithin (fun f => f <> None) (Stringify n)).
  { apply Stringify_failsWithin_all; try discriminate. now left. }
  apply (H c None); [|reflexivity]. now rewrite Hp.
Qed.

(** X3.  On a tree without nil (every expression, node and pointer that
    the code uses without a nil test is set, as in every tree of [Node]),
    rendering panics only at the two index expressions [s.Columns[0]] and
    [ce.results[i]]: it does not panic when no SELECT statement of the tree
    has an empty column list and no CASE expression of the tree has fewer
    results than conditions. *)
Theorem Stringify_panics_only_on_bad_index (n : Node) (c : Compiler) :
  indexSafe n = true -> fst (Stringify n c) <> Panicked.
Proof. apply Stringify_no_panic. Qed.

Lemma Stringify_panics_only_on_bad_index_witness :
  let stmt :=
    NSelectStmt
      (mkSelectStmt
         [mkLabeledColumn
            (NCaseExpr (Else (When (Case (column "a") (column "b"))
                                   (column "c") (column "d")) (column "e")))
            "x"]
         None (Some (NUnaryOperator (IsNull (column "a")))) None None None
         None None) in
  indexSafe stmt = true /\ fst (Stringify stmt exampleCompiler) <> Panicked.
Proof.
  intros stmt. split; [reflexivity|].
  exact (Stringify_panics_only_on_bad_index stmt exampleCompiler eq_refl).
Defined.

(** X4.  Whatever the tree and the dialect, an error returned by rendering
    is one of [ErrNoPrecedence], [ErrNoAssociativity], [ErrNonAssociative]
    and [ErrUnknownFromClauseItem]; [ErrZeroLength], [ErrUnknownInputKey]
    and [ErrUnboundPlaceholder] are never returned by [Stringify]. *)
Theorem Stringify_error_kinds (n : Node) (c : Compiler) (e : error) :
  fst (Stringify n c) = Err e ->
  isRenderError e = true
  /\ e <> ErrZeroLength /\ e <> ErrUnknownInputKey /\ e <> ErrUnboundPlaceholder.
Proof.
  intros He.
  assert (H : failsWithin
                (fun f => match f with
                          | Some e => isRenderError e = true
                          | None => True
                          end) (Stringify n)).
  { apply Stringify_failsWithin_all; try reflexivity. now right. }
  specialize (H c (Some e)). rewrite He in H. specialize (H eq_refl).
  split; [exact H|]. repeat split; intros ->; discriminate.
Qed.

Lemma Stringify_error_kinds_witness :
  fst (Stringify (NBinaryOperator (Lt (column "a") (column "b"))) exampleCompiler)
  = Err ErrNoAssociativity
  /\ isRenderError ErrNoAssociativity = true.
Proof.
  split; [reflexivity|].
  exact (proj1 (Stringify_error_kinds
                  (NBinaryOperator (Lt (column "a") (column "b")))
                  exampleCompiler ErrNoAssociativity eq_refl)).
Defined.

(** ** CASE builders *)

Lemma When_fold_fields (whens : list (Expr * Expr)) (ce : CaseExpr) :
  let built := fold_left (fun ce cr => When ce (fst cr) (snd cr)) whens ce in
  c_conds built = (c_conds ce ++ map fst whens)%list
  /\ c_results built = (c_results ce ++ map snd whens)%list
  /\ c_else_ built = c_else_ ce.
Proof.
  revert ce. induction whens as [|[cd rs] whens IH]; intros ce; simpl.
  - now rewrite !app_nil_r.
  - destruct (IH (When ce cd rs)) as (H1 & H2 & H3). simpl in *.
    rewrite H1, H2, H3, <- !app_assoc. auto.
Qed.

(** X5.  A CASE expression built by [Case], any number of [When] and
    possibly [Else] holds the conditions and the results in the order given,
    as many of the ones as of the others; so rendering it cannot index past
    the results, and it does not panic when its parts can be indexed
    safely. *)
Theorem Case_When_Else_fields
        (cond result : Expr) (whens : list (Expr * Expr)) (els : option Expr)
        (c : Compiler) :
  let built := fold_left (fun ce cr => When ce (fst cr) (snd cr)) whens
                         (Case cond result) in
  let ce := match els with Some e => Else built e | None => built end in
  c_conds ce = cond :: map fst whens
  /\ c_results ce = result :: map snd whens
  /\ c_else_ ce = els
  /\ List.length (c_conds ce) = List.length (c_results ce)
  /\ (indexSafe cond = true -> indexSafe result = true ->
      forallb (fun cr => indexSafe (fst cr) && indexSafe (snd cr)) whens = true ->
      optAll indexSafe els = true ->
      fst (Stringify (NCaseExpr ce) c) <> Panicked).
Proof.
  intros built ce.
  destruct (When_fold_fields whens (Case cond result)) as (H1 & H2 & H3).
  fold built in H1, H2, H3. simpl in H1, H2, H3.
  assert (Hc : c_conds ce = cond :: map fst whens) by (subst ce; now destruct els).
  assert (Hr : c_results ce = result :: map snd whens)
    by (subst ce; now destruct els).
  assert (He : c_else_ ce = els) by (subst ce; now destruct els).
  split; [exact Hc|]. split; [exact Hr|]. split; [exact He|].
  split; [rewrite Hc, Hr; simpl; now rewrite !length_map|].
  intros Sc Sr Sw Se. apply Stringify_no_panic. simpl.
  rewrite Hc, Hr, He. simpl. rewrite !length_map, Nat.leb_refl, Sc, Sr, Se.
  simpl. rewrite !andb_true_r. rewrite forallb_forall in Sw.
  apply andb_true_iff; split; apply forallb_forall; intros x Hx;
    apply in_map_iff in Hx; destruct Hx as (cr & <- & Hin);
    specialize (Sw cr Hin); apply andb_true_iff in Sw; tauto.
Qed.

Lemma Case_When_Else_fields_witness :
  let ce := Else (When (Case (column "a") (column "b")) (column "c") (column "d"))
                 (column "e") in
  c_conds ce = [column "a"; column "c"]
  /\ c_results ce = [column "b"; column "d"]
  /\ fst (Stringify (NCaseExpr ce) exampleCompiler) <> Panicked.
Proof.
  intros ce.
  destruct (Case_When_Else_fields (column "a") (column "b")
              [(column "c", column "d")] (Some (column "e")) exampleCompiler)
    as (H1 & H2 & _ & _ & H5).
  split; [exact H1|]. split; [exact H2|].
  exact (H5 eq_refl eq_refl eq_refl eq_refl).
Defined.

(** ** What the rewrite pass keeps *)

Lemma indexSafe_negate (e : Expr) (v : operator) :
  asOperator e = Some v -> indexSafe (negate v) = indexSafe e.
Proof.
  destruct e; simpl; try discriminate; intros [= <-]; simpl; try reflexivity.
  now destruct (isNot u).
Qed.

Lemma listSize_map_le {A} (sz : A -> nat) (f : A -> A) (l : list A) :
  (forall x, List.In x l -> (sz (f x) <= sz x)%nat) ->
  (listSize sz (map f l) <= listSize sz l)%nat.
Proof.
  unfold listSize. induction l as [|x l IH]; simpl; intros H; [lia|].
  pose proof (H x (or_introl eq_refl)).
  assert (list_sum (map sz (map f l)) <= list_sum (map sz l))%nat
    by (apply IH; intros y Hy; apply H; now right).
  lia.
Qed.

Lemma forallb_map_eq {A} (p : A -> bool) (f : A -> A) (l : list A) :
  (forall x, List.In x l -> p (f x) = p x) ->
  forallb p (map f l) = forallb p l.
Proof.
  induction l as [|x l IH]; simpl; intros H; [reflexivity|].
  rewrite (H x (or_introl eq_refl)), IH; [reflexivity|].
  intros y Hy; apply H; now right.
Qed.

Lemma forallb_map_true {A} (p : A -> bool) (f : A -> A) (l : list A) :
  (forall x, List.In x l -> p (f x) = true) ->
  forallb p (map f l) = true.
Proof.
  intros H. apply forallb_forall. intros y Hy.
  apply in_map_iff in Hy. destruct Hy as (x & <- & Hx). now apply H.
Qed.

Section Rewritten.

Variable c : Compiler.
Variable k : nat.

Hypothesis IHn : forall n, (size n <= k)%nat ->
  rewrittenFrom (size n) (indexSafe n)
    (size (Transform c n)) (indexSafe (Transform c n)) (canonical (Transform c n)).
Hypothesis IHf : forall f, (FromClauseItem_size f <= k)%nat ->
  rewrittenFrom (FromClauseItem_size f) (FromClauseItem_indexSafe f)
    (FromClauseItem_size (FromClauseItem_Transform c f))
    (FromClauseItem_indexSafe (FromClauseItem_Transform c f))
    (FromClauseItem_canonical (FromClauseItem_Transform c f)).
Hypothesis IHs : forall s, (SelectStmt_size s <= k)%nat ->
  rewrittenFrom (SelectStmt_size s) (SelectStmt_indexSafe s)
    (SelectStmt_size (SelectStmt_Transform c s))
    (SelectStmt_indexSafe (SelectStmt_Transform c s))
    (SelectStmt_canonical (SelectStmt_Transform c s)).

Ltac useN e := let H := fresh "Hn" in
  assert (H := IHn e); unfold rewrittenFrom in H;
  destruct H as (? & ? & ?); [simpl in *; lia|].
Ltac useF e := let H := fresh "Hf" in
  assert (H := IHf e); unfold rewrittenFrom in H;
  destruct H as (? & ? & ?); [simpl in *; lia|].
Ltac useS e := let H := fresh "Hs" in
  assert (H := IHs e); unfold rewrittenFrom in H;
  destruct H as (? & ? & ?); [simpl in *; lia|].

Lemma rewritten_list (l : list Node) :
  (listSize size l <= k)%nat ->
  rewrittenFrom (listSize size l) (forallb indexSafe l)
    (listSize size (map (Transform c) l))
    (forallb indexSafe (map (Transform c) l))
    (forallb canonical (map (Transform c) l)).
Proof.
  intros H.
  assert (Hall : forall x, List.In x l ->
            rewrittenFrom (size x) (indexSafe x) (size (Transform c x))
              (indexSafe (Transform c x)) (canonical (Transform c x))).
  { intros x Hx. apply IHn. pose proof (listSize_In size l x Hx). lia. }
  repeat split.
  - apply listSize_map_le. intros x Hx. apply (Hall x Hx).
  - apply forallb_map_eq. intros x Hx. apply (Hall x Hx).
  - apply forallb_map_true. intros x Hx. apply (Hall x Hx).
Qed.

Lemma rewritten_orderbyItems (l : list orderbyItem) :
  (listSize (fun o => S (size (o_expr o))) l <= k)%nat ->
  rewrittenFrom (listSize (fun o => S (size (o_expr o))) l)
    (forallb (fun o => indexSafe (o_expr o)) l)
    (listSize (fun o => S (size (o_expr o)))
       (map (orderbyItem_Transform Transform c) l))
    (forallb (fun o => indexSafe (o_expr o))
       (map (orderbyItem_Transform Transform c) l))
    (forallb (fun o => canonical (o_expr o))
       (map (orderbyItem_Transform Transform c) l)).
Proof.
  intros H.
  assert (Hall : forall x, List.In x l ->
            rewrittenFrom (size (o_expr x)) (indexSafe (o_expr x))
              (size (Transform c (o_expr x)))
              (indexSafe (Transform c (o_expr x)))
              (canonical (Transform c (o_expr x)))).
  { intros x Hx. apply IHn.
    pose proof (listSize_In (fun o => S (size (o_expr o))) l x Hx) as Hle.
    simpl in Hle. lia. }
  repeat split.
  - apply listSize_map_le. intros x Hx. simpl.
    apply le_n_S, (Hall x Hx).
  - apply forallb_map_eq. intros x Hx. apply (Hall x Hx).
  - apply forallb_map_true. intros x Hx. apply (Hall x Hx).
Qed.

Lemma rewritten_JoinClause (j : JoinClause) :
  (FromClauseItem_size (j_left j) + FromClauseItem_size (j_right j)
   + size (j_on j) <= k)%nat ->
  let j' := JoinClause_Transform Transform FromClauseItem_Transform c j in
  rewrittenFrom
    (FromClauseItem_size (j_left j) + FromClauseItem_size (j_right j)
     + size (j_on j))
    (FromClauseItem_indexSafe (j_left j) && FromClauseItem_indexSafe (j_right j)
     && indexSafe (j_on j))
    (FromClauseItem_size (j_left j') + FromClauseItem_size (j_right j')
     + size (j_on j'))
    (FromClauseItem_indexSafe (j_left j') && FromClauseItem_indexSafe (j_right j')
     && indexSafe (j_on j'))
    (FromClauseItem_canonical (j_left j') && FromClauseItem_canonical (j_right j')
     && canonical (j_on j')).
Proof.
  intros H j'. subst j'. simpl.
  useF (j_left j). useF (j_right j). useN (j_on j).
  repeat split; try lia; congruence || (repeat (apply andb_true_iff; split); auto).
Qed.

Ltac finish :=
  unfold rewrittenFrom; simpl;
  repeat split; try lia; try congruence;
  repeat (apply andb_true_iff; split); auto.

Lemma rewritten_FromClauseItem_step (f : FromClauseItem) :
  (FromClauseItem_size f <= S k)%nat ->
  rewrittenFrom (FromClauseItem_size f) (FromClauseItem_indexSafe f)
    (FromClauseItem_size (FromClauseItem_Transform c f))
    (FromClauseItem_indexSafe (FromClauseItem_Transform c f))
    (FromClauseItem_canonical (FromClauseItem_Transform c f)).
Proof.
  intros H. rewrite FromClauseItem_Transform_eq.
  destruct f as [t sq jc]; simpl in H.
  unfold FromClauseItem_Transform_body; simpl.
  destruct t as [t|]; [finish|].
  destruct sq as [l|]; simpl in H.
  - unfold LabeledSelectStmt_Transform; simpl. useS (ls_SelectStmt l). finish.
  - destruct jc as [j|]; simpl in H; [|finish].
    destruct (rewritten_JoinClause j) as (A & B & C); [lia|].
    simpl in A, B, C. unfold rewrittenFrom; simpl. repeat split; try lia; auto.
Qed.

Lemma rewritten_SelectStmt_step (s : SelectStmt) :
  (SelectStmt_size s <= S k)%nat ->
  rewrittenFrom (SelectStmt_size s) (SelectStmt_indexSafe s)
    (SelectStmt_size (SelectStmt_Transform c s))
    (SelectStmt_indexSafe (SelectStmt_Transform c s))
    (SelectStmt_canonical (SelectStmt_Transform c s)).
Proof.
  intros H. rewrite SelectStmt_Transform_eq.
  destruct s as [cols f w g h o l off]; simpl in H.
  unfold SelectStmt_Transform_body; simpl.
  unfold LabeledColumn_Transform. rewrite map_id.
  assert (Rf : rewrittenFrom (optSize FromClauseItem_size f)
                 (optAll FromClauseItem_indexSafe f)
                 (optSize FromClauseItem_size
                    (option_map (FromClause_Transform FromClauseItem_Transform c) f))
                 (optAll FromClauseItem_indexSafe
                    (option_map (FromClause_Transform FromClauseItem_Transform c) f))
                 (optAll FromClauseItem_canonical
                    (option_map (FromClause_Transform FromClauseItem_Transform c) f))).
  { destruct f as [f|]; simpl in *; [|finish]. apply IHf. lia. }
  assert (Rn : forall e : option Node, (optSize size e <= k)%nat ->
             rewrittenFrom (optSize size e) (optAll indexSafe e)
               (optSize size (option_map (Transform c) e))
               (optAll indexSafe (option_map (Transform c) e))
               (optAll canonical (option_map (Transform c) e))).
  { intros [e|] He; simpl in *; [|finish]. now apply IHn. }
  assert (Rg : rewrittenFrom (optSize (listSize size) g)
                 (optAll (forallb indexSafe) g)
                 (optSize (listSize size)
                    (option_map (GroupByClause_Transform Transform c) g))
                 (optAll (forallb indexSafe)
                    (option_map (GroupByClause_Transform Transform c) g))
                 (optAll (forallb canonical)
                    (option_map (GroupByClause_Transform Transform c) g))).
  { destruct g as [g|]; simpl in *; [|finish]. apply rewritten_list. lia. }
  assert (Ro : rewrittenFrom
                 (optSize (listSize (fun o => S (size (o_expr o)))) o)
                 (optAll (forallb (fun o => indexSafe (o_expr o))) o)
                 (optSize (listSize (fun o => S (size (o_expr o))))
                    (option_map (OrderByClause_Transform Transform c) o))
                 (optAll (forallb (fun o => indexSafe (o_expr o)))
                    (option_map (OrderByClause_Transform Transform c) o))
                 (optAll (forallb (fun o => canonical (o_expr o)))
                    (option_map (OrderByClause_Transform Transform c) o))).
  { destruct o as [o|]; simpl in *; [|finish]. apply rewritten_orderbyItems. lia. }
  destruct Rf as (F1 & F2 & F3), Rg as (G1 & G2 & G3), Ro as (O1 & O2 & O3).
  destruct (Rn w) as (W1 & W2 & W3); [lia|].
  destruct (Rn h) as (H1 & H2 & H3); [lia|].
  destruct (Rn l) as (L1 & L2 & L3); [lia|].
  destruct (Rn off) as (X1 & X2 & X3); [lia|].
  unfold WhereClause_Transform, HavingClause_Transform, LimitClause_Transform,
    OffsetClause_Transform.
  change (fun Expr_ : Expr => Transform c Expr_) with (Transform c).
  unfold Expr in *.
  unfold rewrittenFrom. split; [lia|]. split.
  - now rewrite F2, W2, G2, H2, O2, L2, X2.
  - now rewrite F3, W3, G3, H3, O3, L3, X3.
Qed.

Lemma rewritten_UnaryOperator_step (u : UnaryOperator) :
  (size (u_Expr u) <= k)%nat ->
  let r := UnaryOperator_Transform Transform c u in
  rewrittenFrom (S (size (u_Expr u))) (indexSafe (u_Expr u))
    (size r) (indexSafe r) (canonical r).
Proof.
  intros H r. subst r.
  destruct (isNot u && collapsible (u_Expr u)) eqn:Hc.
  - apply andb_true_iff in Hc. destruct Hc as [Hnot Hcol].
    unfold collapsible in Hcol.
    destruct (asOperator (u_Expr u)) as [v|] eqn:Hv; [|discriminate].
    rewrite (UnaryOperator_Transform_collapse _ _ _ _ Hnot Hv Hcol).
    pose proof (size_negate _ _ Hv) as Hsz.
    pose proof (indexSafe_negate _ _ Hv) as Hsafe.
    destruct (IHn (negate v)) as (A & B & C); [lia|].
    unfold rewrittenFrom. repeat split; try lia; congruence.
  - apply andb_false_iff in Hc.
    rewrite UnaryOperator_Transform_preserve by exact Hc.
    useN (u_Expr u). unfold rewrittenFrom; simpl.
    repeat split; try lia; try congruence.
    apply andb_true_iff; split; [|assumption].
    apply negb_true_iff, andb_false_iff.
    destruct Hc as [Hc|Hc]; [now left | right; now apply collapsible_Transform].
Qed.

Lemma rewritten_step (n : Node) :
  (size n <= S k)%nat ->
  rewrittenFrom (size n) (indexSafe n)
    (size (Transform c n)) (indexSafe (Transform c n)) (canonical (Transform c n)).
Proof.
  intros H. rewrite Transform_eq.
  destruct n; simpl in H |- *; try (now finish).
  - unfold CastExpr_Transform; simpl. useN (ce_expr ce). finish.
  - unfold FuncExpr_Transform; simpl.
    destruct (rewritten_list (f_args f)) as (A & B & C); [lia|]. finish.
  - unfold FromClause_Transform. useF FromClauseItem_. finish.
  - destruct (rewritten_JoinClause j) as (A & B & C); [lia|].
    simpl in A, B, C. unfold rewrittenFrom; simpl. repeat split; try lia; auto.
  - unfold LabeledSelectStmt_Transform; simpl. useS (ls_SelectStmt l). finish.
  - useF f. finish.
  - unfold Tuple_Transform.
    destruct (rewritten_list exprs) as (A & B & C); [lia|]. finish.
  - unfold CaseExpr_Transform; simpl.
    destruct (rewritten_list (c_conds ce)) as (A & B & C); [lia|].
    destruct (rewritten_list (c_results ce)) as (A' & B' & C'); [lia|].
    rewrite !length_map.
    destruct (c_else_ ce) as [e|]; simpl in *.
    + useN e. unfold rewrittenFrom; simpl. repeat split; try lia.
      * now rewrite B, B', H1.
      * now rewrite C, C', H2.
    + unfold rewrittenFrom; simpl. repeat split; try lia.
      * now rewrite B, B'.
      * now rewrite C, C'.
  - unfold WhereClause_Transform. useN n. finish.
  - unfold GroupByClause_Transform.
    destruct (rewritten_list exprs) as (A & B & C); [lia|]. finish.
  - unfold HavingClause_Transform. useN n. finish.
  - unfold orderbyItem_Transform; simpl. useN (o_expr o). finish.
  - unfold OrderByClause_Transform.
    destruct (rewritten_orderbyItems items) as (A & B & C); [lia|]. finish.
  - unfold LimitClause_Transform. useN n. finish.
  - unfold OffsetClause_Transform. useN n. finish.
  - useS s. finish.
  - apply rewritten_UnaryOperator_step. lia.
  - unfold BinaryOperator_Transform; simpl.
    useN (b_Left b). useN (b_Right b). finish.
  - unfold TernaryOperator_Transform; simpl.
    useN (t_Expr1 t). useN (t_Expr2 t). useN (t_Expr3 t). finish.
Qed.

End Rewritten.

Lemma rewritten_sized (c : Compiler) (k : nat) :
  (forall n, (size n <= k)%nat ->
     rewrittenFrom (size n) (indexSafe n)
       (size (Transform c n)) (indexSafe (Transform c n))
       (canonical (Transform c n)))
  /\ (forall f, (FromClauseItem_size f <= k)%nat ->
     rewrittenFrom (FromClauseItem_size f) (FromClauseItem_indexSafe f)
       (FromClauseItem_size (FromClauseItem_Transform c f))
       (FromClauseItem_indexSafe (FromClauseItem_Transform c f))
       (FromClauseItem_canonical (FromClauseItem_Transform c f)))
  /\ (forall s, (SelectStmt_size s <= k)%nat ->
     rewrittenFrom (SelectStmt_size s) (SelectStmt_indexSafe s)
       (SelectStmt_size (SelectStmt_Transform c s))
       (SelectStmt_indexSafe (SelectStmt_Transform c s))
       (SelectStmt_canonical (SelectStmt_Transform c s))).
Proof.
  induction k as [|k (IHn & IHf & IHs)].
  - split; [|split].
    + intros n H. pose proof (size_pos n). lia.
    + intros f H. pose proof (FromClauseItem_size_pos f). lia.
    + intros s H. pose proof (SelectStmt_size_pos s). lia.
  - split; [|split].
    + now apply rewritten_step.
    + now apply rewritten_FromClauseItem_step.
    + now apply rewritten_SelectStmt_step.
Qed.

Lemma map_fixed {A} (f : A -> A) (l : list A) :
  Forall (fun x => f x = x) l -> map f l = l.
Proof. induction 1; simpl; congruence. Qed.

Section Fixed.

Variable c : Compiler.

Lemma fixed_list (l : list Node) :
  list_all (fun n => canonical n = true -> Transform c n = n) l ->
  forallb canonical l = true ->
  map (Transform c) l = l.
Proof.
  intros IH Hc. apply map_fixed.
  rewrite forallb_forall in Hc. apply list_all_Forall in IH.
  rewrite Forall_forall in *. auto.
Qed.

Lemma fixed_orderbyItems (l : list orderbyItem) :
  list_all (orderbyItemOf_all (fun n => canonical n = true -> Transform c n = n)) l ->
  forallb (fun o => canonical (o_expr o)) l = true ->
  map (orderbyItem_Transform Transform c) l = l.
Proof.
  intros IH Hc. apply map_fixed.
  induction IH as [|o Ho l Hl IHl]; constructor; simpl in Hc;
    apply andb_true_iff in Hc; destruct Hc as [Ho' Hl'].
  - destruct Ho. unfold orderbyItem_Transform; simpl in *. f_equal. auto.
  - auto.
Qed.

Lemma Transform_fixed_all :
  (forall n, canonical n = true -> Transform c n = n)
  /\ (forall f, FromClauseItem_canonical f = true -> FromClauseItem_Transform c f = f)
  /\ (forall s, SelectStmt_canonical s = true -> SelectStmt_Transform c s = s).
Proof.
  apply Node_mutind.
  - intros s _. now rewrite Transform_eq.
  - intros ce IH Hc. destruct IH as [e He t]. rewrite Transform_eq; simpl in *.
    unfold CastExpr_Transform; simpl. now rewrite He.
  - intros f IH Hc. destruct IH as [name args Hargs omit].
    rewrite Transform_eq; simpl in *. unfold FuncExpr_Transform; simpl.
    now rewrite (fixed_list _ Hargs Hc).
  - intros f IH Hc. rewrite Transform_eq; simpl in *.
    unfold FromClause_Transform. now rewrite IH.
  - intros j IH Hc. destruct IH as [jt l Hl r Hr o Ho].
    rewrite Transform_eq; simpl in *.
    apply andb_true_iff in Hc; destruct Hc as [Hc Hc3].
    apply andb_true_iff in Hc; destruct Hc as [Hc1 Hc2].
    unfold JoinClause_Transform; simpl. now rewrite Hl, Hr, Ho.
  - intros l IH Hc. destruct IH as [s Hs lbl]. rewrite Transform_eq; simpl in *.
    unfold LabeledSelectStmt_Transform; simpl. now rewrite Hs.
  - intros col _. now rewrite Transform_eq.
  - intros l IH _. now rewrite Transform_eq.
  - intros t _. now rewrite Transform_eq.
  - intros l _. now rewrite Transform_eq.
  - intros f IH Hc. rewrite Transform_eq; simpl in *. now rewrite IH.
  - intros exprs IH Hc. rewrite Transform_eq; simpl in *.
    unfold Tuple_Transform. now rewrite (fixed_list _ IH Hc).
  - intros ce IH Hc. destruct IH as [conds Hcs results Hrs els He].
    rewrite Transform_eq; simpl in *.
    apply andb_true_iff in Hc; destruct Hc as [Hc Hc3].
    apply andb_true_iff in Hc; destruct Hc as [Hc1 Hc2].
    unfold CaseExpr_Transform; simpl.
    rewrite (fixed_list _ Hcs Hc1), (fixed_list _ Hrs Hc2).
    destruct He as [e He|]; simpl in *; [now rewrite He | reflexivity].
  - intros p _. now rewrite Transform_eq.
  - intros e IH Hc. rewrite Transform_eq; simpl in *.
    unfold WhereClause_Transform. now rewrite IH.
  - intros exprs IH Hc. rewrite Transform_eq; simpl in *.
    unfold GroupByClause_Transform. now rewrite (fixed_list _ IH Hc).
  - intros e IH Hc. rewrite Transform_eq; simpl in *.
    unfold HavingClause_Transform. now rewrite IH.
  - intros o IH Hc. destruct IH as [e He d ns nl]. rewrite Transform_eq; simpl in *.
    unfold orderbyItem_Transform; simpl. now rewrite He.
  - intros items IH Hc. rewrite Transform_eq; simpl in *.
    unfold OrderByClause_Transform. now rewrite (fixed_orderbyItems _ IH Hc).
  - intros e IH Hc. rewrite Transform_eq; simpl in *.
    unfold LimitClause_Transform. now rewrite IH.
  - intros e IH Hc. rewrite Transform_eq; simpl in *.
    unfold OffsetClause_Transform. now rewrite IH.
  - intros s IH Hc. rewrite Transform_eq; simpl in *. now rewrite IH.
  - intros u IH Hc. destruct IH as [ty sym nty nsym e He cp ca].
    rewrite Transform_eq; simpl in *.
    apply andb_true_iff in Hc; destruct Hc as [Hc1 Hc2].
    apply negb_true_iff, andb_false_iff in Hc1.
    rewrite UnaryOperator_Transform_preserve by exact Hc1. simpl.
    unfold UnaryOperator_setExpr; simpl. now rewrite He.
  - intros b IH Hc. destruct IH as [ty sym nty nsym l Hl r Hr cp ca ss].
    rewrite Transform_eq; simpl in *.
    apply andb_true_iff in Hc; destruct Hc as [Hc1 Hc2].
    unfold BinaryOperator_Transform; simpl. now rewrite Hl, Hr.
  - intros t IH Hc.
    destruct IH as [ty s1 s2 nty ns1 ns2 e1 H1 e2 H2 e3 H3 cp ca].
    rewrite Transform_eq; simpl in *.
    apply andb_true_iff in Hc; destruct Hc as [Hc Hc3].
    apply andb_true_iff in Hc; destruct Hc as [Hc1 Hc2].
    unfold TernaryOperator_Transform; simpl. now rewrite H1, H2, H3.
  - intros t sq IHsq jc IHjc Hc. rewrite FromClauseItem_Transform_eq.
    unfold FromClauseItem_Transform_body; simpl in *.
    destruct t as [t|]; [reflexivity|].
    destruct IHsq as [l Hl|].
    + destruct Hl as [s Hs lbl].
      unfold LabeledSelectStmt_Transform; simpl in *. now rewrite Hs.
    + destruct IHjc as [j Hj|]; [|reflexivity].
      destruct Hj as [jt l Hl r Hr o Ho]. simpl in *.
      apply andb_true_iff in Hc; destruct Hc as [Hc Hc3].
      apply andb_true_iff in Hc; destruct Hc as [Hc1 Hc2].
      unfold JoinClause_Transform; simpl. now rewrite Hl, Hr, Ho.
  - intros cols IHc f IHf w IHw g IHg h IHh o IHo l IHl off IHoff Hc.
    rewrite SelectStmt_Transform_eq. unfold SelectStmt_Transform_body; simpl in *.
    repeat (apply andb_true_iff in Hc; destruct Hc as [Hc ?]).
    unfold LabeledColumn_Transform. rewrite map_id.
    f_equal.
    + destruct IHf as [x Hx|]; simpl in *; [|reflexivity].
      unfold FromClause_Transform. now rewrite Hx.
    + destruct IHw as [x Hx|]; simpl in *; [|reflexivity].
      unfold WhereClause_Transform. now rewrite Hx.
    + destruct IHg as [x Hx|]; simpl in *; [|reflexivity].
      unfold GroupByClause_Transform. now rewrite (fixed_list _ Hx).
    + destruct IHh as [x Hx|]; simpl in *; [|reflexivity].
      unfold HavingClause_Transform. now rewrite Hx.
    + destruct IHo as [x Hx|]; simpl in *; [|reflexivity].
      unfold OrderByClause_Transform. now rewrite (fixed_orderbyItems _ Hx).
    + destruct IHl as [x Hx|]; simpl in *; [|reflexivity].
      unfold LimitClause_Transform. now rewrite Hx.
    + destruct IHoff as [x Hx|]; simpl in *; [|reflexivity].
      unfold OffsetClause_Transform. now rewrite Hx.
Qed.

End Fixed.

(** X6.  The result of the rewrite pass is canonical: at no place that the
    pass visits is a logical NOT left over a negatable operator.  And the
    pass leaves a tree as it is exactly when the tree is canonical
    already. *)
Theorem Transform_canonical (c : Compiler) (n : Node) :
  canonical (Transform c n) = true
  /\ (Transform c n = n <-> canonical n = true).
Proof.
  assert (Hc : canonical (Transform c n) = true).
  { apply (proj1 (rewritten_sized c (size n))). lia. }
  split; [exact Hc|]. split.
  - intros H. now rewrite H in Hc.
  - apply Transform_fixed_all.
Qed.

(** X7.  The rewrite pass never makes a tree larger: the result has at most
    as many nodes as the tree it was given. *)
Theorem Transform_size (c : Compiler) (n : Node) :
  (size (Transform c n) <= size n)%nat.
Proof. apply (proj1 (rewritten_sized c (size n))). lia. Qed.

(** X8.  The rewrite pass neither brings in nor removes an empty select
    list or a CASE with too few results; so, on a tree without nil (every
    expression, node and pointer that the code uses without a nil test is
    set), a tree that has neither does not panic when it is rendered after
    it has been rewritten. *)
Theorem Transform_indexSafe (c c' : Compiler) (n : Node) :
  indexSafe (Transform c n) = indexSafe n
  /\ (indexSafe n = true -> fst (Stringify (Transform c n) c') <> Panicked).
Proof.
  assert (H : indexSafe (Transform c n) = indexSafe n).
  { apply (proj1 (rewritten_sized c (size n))). lia. }
  split; [exact H|]. intros Hs. apply Stringify_no_panic. congruence.
Qed.

Lemma Transform_indexSafe_witness :
  let n := NWhereClause (NUnaryOperator (Not (NUnaryOperator (IsNull
             (NCaseExpr (Case (column "a") (column "b"))))))) in
  indexSafe n = true
  /\ fst (Stringify (Transform exampleCompiler n) exampleCompiler) <> Panicked.
Proof.
  intros n. split; [reflexivity|].
  exact (proj2 (Transform_indexSafe exampleCompiler exampleCompiler n) eq_refl).
Defined.

Lemma Transform_Nots_step (c : Compiler) (k : nat) (P : Expr) :
  Transform c (Nots (S (S k)) P) = Transform c (Nots k P).
Proof. simpl. apply Transform_Not_Not. Qed.

(** X10.  A stack of logical NOTs collapses by parity: an even number of
    NOTs over [P] rewrites to the rewrite of [P], an odd number to the
    rewrite of a single NOT over [P]. *)
Theorem Transform_Nots_parity (c : Compiler) (k : nat) (P : Expr) :
  Transform c (Nots (2 * k) P) = Transform c P
  /\ Transform c (Nots (2 * k + 1) P) = Transform c (NUnaryOperator (Not P)).
Proof.
  induction k as [|k [IH0 IH1]].
  - split; reflexivity.
  - replace (2 * S k)%nat with (S (S (2 * k))) by lia.
    replace (S (S (2 * k)) + 1)%nat with (S (S (2 * k + 1))) by lia.
    now rewrite !Transform_Nots_step.
Qed.

(** ** Negation, further *)

(** X11.  Negating twice gives the operator back: for an operator [op] that
    is not a logical NOT and whose negation [op'] is not one either, the
    negation of [op'] is [op] again, except that a binary operator comes
    back with its space-suppression flag unset. *)
Theorem negate_negate (op op' : operator) :
  isLogicalNot op = false ->
  asOperator (negate op) = Some op' ->
  isLogicalNot op' = false ->
  negate op' = operatorExpr (clearSuppressSpace op).
Proof.
  destruct op as [u|b|t]; simpl.
  - intros Hn. rewrite Hn. intros [= <-]. simpl. intros Hn'.
    unfold isNot in Hn'. simpl in Hn'. unfold isNot at 1. simpl.
    rewrite Hn'. now destruct u.
  - intros _ [= <-] _. reflexivity.
  - intros _ [= <-] _. simpl. now destruct t.
Qed.

Lemma negate_negate_witness :
  negate (opBinary (NotEq (column "a") (column "b")))
  = NBinaryOperator (Eq (column "a") (column "b")).
Proof.
  exact (negate_negate (opBinary (Eq (column "a") (column "b")))
           (opBinary (NotEq (column "a") (column "b")))
           eq_refl eq_refl eq_refl).
Defined.

Lemma Transform_NOT_unary (c : Compiler) (u : UnaryOperator) :
  isNot u = false -> negatable u = true -> u_NegatedType u <> OpNot ->
  Transform c (NUnaryOperator (Not (NUnaryOperator u)))
  = NUnaryOperator
      {| u_Type := u_NegatedType u; u_Symbol := u_NegatedSymbol u;
         u_NegatedType := u_Type u; u_NegatedSymbol := u_Symbol u;
         u_Expr := Transform c (u_Expr u);
         u_CustomPrecedence := u_CustomPrecedence u;
         u_CustomAssociativity := u_CustomAssociativity u |}.
Proof.
  intros Hn Hneg Hnt. rewrite Transform_unary.
  rewrite (UnaryOperator_Transform_collapse Transform c _ (opUnary u))
    by (reflexivity || exact Hneg).
  simpl. rewrite Hn. rewrite Transform_unary.
  rewrite UnaryOperator_Transform_preserve; [reflexivity|].
  left. unfold isNot; simpl. now apply N.eqb_neq.
Qed.

Lemma Transform_NOT_binary (c : Compiler) (b : BinaryOperator) :
  negatable b = true ->
  Transform c (NUnaryOperator (Not (NBinaryOperator b)))
  = NBinaryOperator
      {| b_Type := b_NegatedType b; b_Symbol := b_NegatedSymbol b;
         b_NegatedType := b_Type b; b_NegatedSymbol := b_Symbol b;
         b_Left := Transform c (b_Left b);
         b_Right := Transform c (b_Right b);
         b_CustomPrecedence := b_CustomPrecedence b;
         b_CustomAssociativity := b_CustomAssociativity b;
         b_SuppressSpace := false |}.
Proof.
  intros Hneg. rewrite Transform_unary.
  rewrite (UnaryOperator_Transform_collapse Transform c _ (opBinary b))
    by (reflexivity || exact Hneg).
  simpl. now rewrite Transform_eq.
Qed.

Lemma Transform_NOT_ternary (c : Compiler) (t : TernaryOperator) :
  negatable t = true ->
  Transform c (NUnaryOperator (Not (NTernaryOperator t)))
  = NTernaryOperator
      {| t_Type := t_NegatedType t;
         t_Symbol1 := t_NegatedSymbol1 t; t_Symbol2 := t_NegatedSymbol2 t;
         t_NegatedType := t_Type t;
         t_NegatedSymbol1 := t_Symbol1 t; t_NegatedSymbol2 := t_Symbol2 t;
         t_Expr1 := Transform c (t_Expr1 t);
         t_Expr2 := Transform c (t_Expr2 t);
         t_Expr3 := Transform c (t_Expr3 t);
         t_CustomPrecedence := t_CustomPrecedence t;
         t_CustomAssociativity := t_CustomAssociativity t |}.
Proof.
  intros Hneg. rewrite Transform_unary.
  rewrite (UnaryOperator_Transform_collapse Transform c _ (opTernary t))
    by (reflexivity || exact Hneg).
  simpl. now rewrite Transform_eq.
Qed.

Lemma Transform_NOT_kept (c : Compiler) (e : Expr) :
  collapsible e = false ->
  Transform c (NUnaryOperator (Not e)) = NUnaryOperator (Not (Transform c e)).
Proof.
  intros H. rewrite Transform_unary.
  rewrite UnaryOperator_Transform_preserve by (now right). reflexivity.
Qed.

(** X12.  A logical NOT over a negatable binary operator rewrites to the
    counterpart operator over the rewritten operands, with the custom
    precedence and associativity kept and with the space-suppression flag
    unset: the symbol of the result is written with spaces around it, also
    when that of the original was not. *)
Theorem Transform_NOT_binary_spaced (c : Compiler) (b : BinaryOperator) :
  negatable b = true ->
  exists b',
    Transform c (NUnaryOperator (Not (NBinaryOperator b))) = NBinaryOperator b'
    /\ b_Type b' = b_NegatedType b
    /\ b_Symbol b' = b_NegatedSymbol b
    /\ b_Left b' = Transform c (b_Left b)
    /\ b_Right b' = Transform c (b_Right b)
    /\ b_CustomPrecedence b' = b_CustomPrecedence b
    /\ b_CustomAssociativity b' = b_CustomAssociativity b
    /\ b_SuppressSpace b' = false
    /\ binarySymbolText b' = (" " ++ b_NegatedSymbol b ++ " ")%string.
Proof.
  intros Hneg. eexists. split; [now apply Transform_NOT_binary|].
  repeat split.
Qed.

Lemma Transform_NOT_binary_spaced_witness :
  let glued :=
    {| b_Type := OpEq; b_Symbol := "="; b_NegatedType := OpNotEq;
       b_NegatedSymbol := "<>"; b_Left := column "a"; b_Right := column "b";
       b_CustomPrecedence := 0; b_CustomAssociativity := 0;
       b_SuppressSpace := true |} in
  binarySymbolText glued = "="%string
  /\ exists b',
      Transform exampleCompiler (NUnaryOperator (Not (NBinaryOperator glued)))
      = NBinaryOperator b'
      /\ binarySymbolText b' = " <> "%string.
Proof.
  intros glued. split; [reflexivity|].
  destruct (Transform_NOT_binary_spaced exampleCompiler glued eq_refl)
    as (b' & H1 & _ & _ & _ & _ & _ & _ & _ & H9).
  exists b'. split; [exact H1 | exact H9].
Defined.

(** X13.  What the rewrite pass does to a logical NOT over each built-in
    operator: over a member of a negated pair (IS NULL, IS TRUE, IS FALSE,
    =, IN, LIKE, ILIKE, BETWEEN and their counterparts) the result is the
    other member of the pair over the rewritten operands; over AND, OR, the
    arithmetic operators and the comparisons [<], [<=], [>], [>=] the NOT
    is kept. *)
Theorem Transform_NOT_builtin (c : Compiler) (x y z : Expr) :
  let T := Transform c in
  let NOT e := NUnaryOperator (Not e) in
  (T (NOT (NUnaryOperator (IsNull x))) = NUnaryOperator (IsNotNull (T x))
   /\ T (NOT (NUnaryOperator (IsNotNull x))) = NUnaryOperator (IsNull (T x))
   /\ T (NOT (NUnaryOperator (IsTrue x))) = NUnaryOperator (IsNotTrue (T x))
   /\ T (NOT (NUnaryOperator (IsNotTrue x))) = NUnaryOperator (IsTrue (T x))
   /\ T (NOT (NUnaryOperator (IsFalse x))) = NUnaryOperator (IsNotFalse (T x))
   /\ T (NOT (NUnaryOperator (IsNotFalse x))) = NUnaryOperator (IsFalse (T x)))
  /\ (T (NOT (NBinaryOperator (Eq x y))) = NBinaryOperator (NotEq (T x) (T y))
      /\ T (NOT (NBinaryOperator (NotEq x y))) = NBinaryOperator (Eq (T x) (T y))
      /\ T (NOT (NBinaryOperator (In x y))) = NBinaryOperator (NotIn (T x) (T y))
      /\ T (NOT (NBinaryOperator (NotIn x y))) = NBinaryOperator (In (T x) (T y))
      /\ T (NOT (NBinaryOperator (Like x y))) = NBinaryOperator (NotLike (T x) (T y))
      /\ T (NOT (NBinaryOperator (NotLike x y))) = NBinaryOperator (Like (T x) (T y))
      /\ T (NOT (NBinaryOperator (ILike x y)))
         = NBinaryOperator (NotILike (T x) (T y))
      /\ T (NOT (NBinaryOperator (NotILike x y)))
         = NBinaryOperator (ILike (T x) (T y)))
  /\ (T (NOT (NTernaryOperator (Between x y z)))
      = NTernaryOperator (NotBetween (T x) (T y) (T z))
      /\ T (NOT (NTernaryOperator (NotBetween x y z)))
         = NTernaryOperator (Between (T x) (T y) (T z)))
  /\ (T (NOT (NBinaryOperator (And x y))) = NOT (NBinaryOperator (And (T x) (T y)))
      /\ T (NOT (NBinaryOperator (Or x y))) = NOT (NBinaryOperator (Or (T x) (T y)))
      /\ T (NOT (NBinaryOperator (Add x y))) = NOT (NBinaryOperator (Add (T x) (T y)))
      /\ T (NOT (NBinaryOperator (Sub x y))) = NOT (NBinaryOperator (Sub (T x) (T y)))
      /\ T (NOT (NBinaryOperator (Mul x y))) = NOT (NBinaryOperator (Mul (T x) (T y)))
      /\ T (NOT (NBinaryOperator (Div x y))) = NOT (NBinaryOperator (Div (T x) (T y)))
      /\ T (NOT (NBinaryOperator (Mod x y))) = NOT (NBinaryOperator (Mod (T x) (T y)))
      /\ T (NOT (NBinaryOperator (Lt x y))) = NOT (NBinaryOperator (Lt (T x) (T y)))
      /\ T (NOT (NBinaryOperator (Lte x y))) = NOT (NBinaryOperator (Lte (T x) (T y)))
      /\ T (NOT (NBinaryOperator (Gt x y))) = NOT (NBinaryOperator (Gt (T x) (T y)))
      /\ T (NOT (NBinaryOperator (Gte x y)))
         = NOT (NBinaryOperator (Gte (T x) (T y)))).
Proof.
  intros T NOT. subst T NOT.
  split; [|split; [|split]].
  - repeat split; (rewrite Transform_NOT_unary; [reflexivity..|discriminate]).
  - repeat split; now rewrite Transform_NOT_binary.
  - repeat split; now rewrite Transform_NOT_ternary.
  - repeat split; (rewrite Transform_NOT_kept by reflexivity;
                   now rewrite (Transform_eq c (NBinaryOperator _))).
Qed.

(** ** Rendering of operators, further *)

(** X14.  Whatever the associativity: a child operator whose resolved
    precedence is strictly lower than that of its parent is rendered in
    parentheses, and one whose precedence is strictly higher is rendered
    without, under a unary, a binary and a ternary parent alike. *)
Theorem precedence_decides_off_ties
        (e : Expr) (op : operator) (c : Compiler) (childPrec ownPrec : N) :
  asOperator e = Some op ->
  resolveOperatorPrecedence op c = Ok childPrec ->
  childPrec <> ownPrec ->
  let wrap := childPrec <? ownPrec in
  (forall assoc target,
      BinaryOperator_handleSide Stringify assoc ownPrec e target c
      = renderChild wrap e c)
  /\ TernaryOperator_handleExpr Stringify ownPrec e c = renderChild wrap e c
  /\ (forall (u : UnaryOperator) assoc,
         u_Expr u = e ->
         resolveOperatorAssociativity (opUnary u) c = Ok assoc ->
         assoc <> NonAssociative ->
         resolveOperatorPrecedence (opUnary u) c = Ok ownPrec ->
         Stringify (NUnaryOperator u) c
         = UnaryOperator_write Stringify u assoc e wrap c).
Proof.
  intros Ho Hr Hne wrap. subst wrap.
  split; [|split].
  - intros assoc target. unfold BinaryOperator_handleSide.
    rewrite Ho. unfold bind, query. rewrite Hr.
    replace (childPrec =? ownPrec) with false
      by (symmetry; now apply N.eqb_neq).
    rewrite andb_false_l, orb_false_r.
    replace (childPrec <=? ownPrec) with (childPrec <? ownPrec).
    + now destruct (assoc =? NonAssociative), (childPrec <? ownPrec).
    + destruct (N.ltb_spec childPrec ownPrec), (N.leb_spec childPrec ownPrec);
        try reflexivity; lia.
  - unfold TernaryOperator_handleExpr.
    rewrite Ho. unfold bind, query. rewrite Hr.
    replace (childPrec <=? ownPrec) with (childPrec <? ownPrec).
    + now destruct (childPrec <? ownPrec).
    + destruct (N.ltb_spec childPrec ownPrec), (N.leb_spec childPrec ownPrec);
        try reflexivity; lia.
  - intros u assoc <- Ha Hna Hp.
    apply (UnaryOperator_Stringify_child u c assoc ownPrec _ Ha Hna Hp).
    unfold childWrap. now rewrite Ho, Hr.
Qed.

Lemma precedence_decides_off_ties_witness :
  let e := NBinaryOperator (Or (column "a") (column "b")) in
  BinaryOperator_handleSide Stringify NonAssociative 4 e LeftAssociative
    exampleCompiler
  = renderChild true e exampleCompiler
  /\ TernaryOperator_handleExpr Stringify 4 e exampleCompiler
     = renderChild true e exampleCompiler.
Proof.
  intros e.
  destruct (precedence_decides_off_ties e (opBinary (Or (column "a") (column "b")))
              exampleCompiler 1 4 eq_refl eq_refl) as (H1 & H2 & _).
  - discriminate.
  - split; [apply H1 | exact H2].
Defined.

(** X15.  An operator that cannot resolve its own associativity or its own
    precedence fails before it writes anything: the error is returned with
    the output context as it was.  Associativity is resolved first by a
    unary and a binary operator and never by a ternary one; a unary
    operator also resolves the precedence of its operand before it writes
    its prefix symbol. *)
Theorem operator_fails_before_writing (c : Compiler) (e : error) :
  (forall u, resolveOperatorAssociativity (opUnary u) c = Err e ->
             Stringify (NUnaryOperator u) c = (Err e, c))
  /\ (forall b, resolveOperatorAssociativity (opBinary b) c = Err e ->
                Stringify (NBinaryOperator b) c = (Err e, c))
  /\ (forall u assoc,
         resolveOperatorAssociativity (opUnary u) c = Ok assoc ->
         assoc <> NonAssociative ->
         resolveOperatorPrecedence (opUnary u) c = Err e ->
         Stringify (NUnaryOperator u) c = (Err e, c))
  /\ (forall b assoc,
         resolveOperatorAssociativity (opBinary b) c = Ok assoc ->
         resolveOperatorPrecedence (opBinary b) c = Err e ->
         Stringify (NBinaryOperator b) c = (Err e, c))
  /\ (forall t, resolveOperatorPrecedence (opTernary t) c = Err e ->
                Stringify (NTernaryOperator t) c = (Err e, c))
  /\ (forall u assoc ownPrec v,
         resolveOperatorAssociativity (opUnary u) c = Ok assoc ->
         assoc <> NonAssociative ->
         resolveOperatorPrecedence (opUnary u) c = Ok ownPrec ->
         asOperator (u_Expr u) = Some v ->
         resolveOperatorPrecedence v c = Err e ->
         Stringify (NUnaryOperator u) c = (Err e, c)).
Proof.
  repeat split.
  - intros u Ha.
    change (Stringify (NUnaryOperator u)) with (UnaryOperator_Stringify Stringify u).
    unfold UnaryOperator_Stringify, bind, query. now rewrite Ha.
  - intros b Ha.
    change (Stringify (NBinaryOperator b)) with (BinaryOperator_Stringify Stringify b).
    unfold BinaryOperator_Stringify, bind, query. now rewrite Ha.
  - intros u assoc Ha Hna Hp.
    change (Stringify (NUnaryOperator u)) with (UnaryOperator_Stringify Stringify u).
    unfold UnaryOperator_Stringify, bind, query. rewrite Ha.
    apply N.eqb_neq in Hna. now rewrite Hna, Hp.
  - intros b assoc Ha Hp.
    change (Stringify (NBinaryOperator b)) with (BinaryOperator_Stringify Stringify b).
    unfold BinaryOperator_Stringify, bind, query. now rewrite Ha, Hp.
  - intros t Hp.
    change (Stringify (NTernaryOperator t))
      with (TernaryOperator_Stringify Stringify t).
    unfold TernaryOperator_Stringify, bind, query. now rewrite Hp.
  - intros u assoc ownPrec v Ha Hna Hp Hv Hvp.
    change (Stringify (NUnaryOperator u)) with (UnaryOperator_Stringify Stringify u).
    unfold UnaryOperator_Stringify, bind, query. rewrite Ha.
    apply N.eqb_neq in Hna. now rewrite Hna, Hp, Hv, Hvp.
Qed.

Lemma operator_fails_before_writing_witness :
  Stringify (NBinaryOperator (Lt (column "a") (column "b"))) exampleCompiler
  = (Err ErrNoAssociativity, exampleCompiler)
  /\ Stringify (NTernaryOperator (NotBetween (column "a") (column "b") (column "c")))
       exampleCompiler
     = (Err ErrNoPrecedence, exampleCompiler)
  /\ Stringify (NUnaryOperator (Not (NBinaryOperator (Lt (column "a") (column "b")))))
       exampleCompiler
     = (Err ErrNoPrecedence, exampleCompiler).
Proof.
  split; [|split].
  - exact (proj1 (proj2 (operator_fails_before_writing exampleCompiler
                           ErrNoAssociativity))
             (Lt (column "a") (column "b")) eq_refl).
  - exact (proj1 (proj2 (proj2 (proj2 (proj2
             (operator_fails_before_writing exampleCompiler ErrNoPrecedence)))))
             (NotBetween (column "a") (column "b") (column "c")) eq_refl).
  - refine (proj2 (proj2 (proj2 (proj2 (proj2
             (operator_fails_before_writing exampleCompiler ErrNoPrecedence)))))
             (Not (NBinaryOperator (Lt (column "a") (column "b"))))
             RightAssociative 3 (opBinary (Lt (column "a") (column "b")))
             eq_refl _ eq_refl eq_refl eq_refl).
    discriminate.
Defined.

(** ** FROM items *)

(** X16.  Of the three alternatives of a FROM item the first that is set, in
    the order table, subquery, join, is the one rendered and the one the
    rewrite pass rewrites; the alternatives after it are ignored by both and
    kept.  With a table set the item renders as that table and is left as it
    is; with a subquery first, the item renders as the subquery, its
    rewrite holds the rewritten subquery (the rewritten SELECT under the
    same label) and renders as that; with a join first, the item renders as
    the join, its rewrite holds the rewritten join (both sides and the ON
    expression rewritten) and renders as that; with nothing set rendering
    fails with [ErrUnknownFromClauseItem], writing nothing, and the rewrite
    leaves the item as it is. *)
Theorem FromClauseItem_alternatives (c c' : Compiler) (f : FromClauseItem) :
  let f' := FromClauseItem_Transform c f in
  (forall t, fci_TableRef f = Some t ->
             f' = f
             /\ FromClauseItem_Stringify f c' = Stringify (NLabeledTable t) c')
  /\ (forall l, fci_TableRef f = None -> fci_Subquery f = Some l ->
       exists l',
         Transform c (NLabeledSelectStmt l) = NLabeledSelectStmt l'
         /\ ls_SelectStmt l' = SelectStmt_Transform c (ls_SelectStmt l)
         /\ ls_Label l' = ls_Label l
         /\ f' = mkFromClauseItem None (Some l') (fci_JoinClause f)
         /\ FromClauseItem_Stringify f c' = Stringify (NLabeledSelectStmt l) c'
         /\ FromClauseItem_Stringify f' c' = Stringify (NLabeledSelectStmt l') c')
  /\ (forall j, fci_TableRef f = None -> fci_Subquery f = None ->
                fci_JoinClause f = Some j ->
       exists j',
         Transform c (NJoinClause j) = NJoinClause j'
         /\ j_joinType j' = j_joinType j
         /\ j_left j' = FromClauseItem_Transform c (j_left j)
         /\ j_right j' = FromClauseItem_Transform c (j_right j)
         /\ j_on j' = Transform c (j_on j)
         /\ f' = mkFromClauseItem None None (Some j')
         /\ FromClauseItem_Stringify f c' = Stringify (NJoinClause j) c'
         /\ FromClauseItem_Stringify f' c' = Stringify (NJoinClause j') c')
  /\ (fci_TableRef f = None -> fci_Subquery f = None -> fci_JoinClause f = None ->
      f' = f
      /\ FromClauseItem_Stringify f c' = (Err ErrUnknownFromClauseItem, c')).
Proof.
  intros f'. subst f'. rewrite FromClauseItem_Transform_eq.
  destruct f as [tr sq jc]; unfold FromClauseItem_Transform_body; simpl.
  split; [|split; [|split]].
  - intros t ->. split; reflexivity.
  - intros l -> ->. eexists. rewrite Transform_eq. simpl.
    split; [reflexivity|]. repeat split.
  - intros j -> -> ->. eexists. rewrite Transform_eq. simpl.
    split; [reflexivity|]. repeat split.
  - intros -> -> ->. split; reflexivity.
Qed.

Lemma FromClauseItem_alternatives_witness :
  let table := mkLabeledTable "" "t" "x" in
  let none := mkFromClauseItem None None None in
  let broken := mkJoinClause "JOIN" none none (column "a") in
  let sub := mkLabeledSelectStmt
               (mkSelectStmt [] None None None None None None None) "y" in
  let both := mkFromClauseItem (Some table) (Some sub) (Some broken) in
  FromClauseItem_Transform exampleCompiler both = both
  /\ FromClauseItem_Stringify both exampleCompiler
     = Stringify (NLabeledTable table) exampleCompiler
  /\ fst (FromClauseItem_Stringify both exampleCompiler) = Ok tt
  /\ FromClauseItem_Stringify none exampleCompiler
     = (Err ErrUnknownFromClauseItem, exampleCompiler).
Proof.
  intros table none broken sub both.
  destruct (FromClauseItem_alternatives exampleCompiler exampleCompiler both)
    as (Ht & _).
  destruct (FromClauseItem_alternatives exampleCompiler exampleCompiler none)
    as (_ & _ & _ & Hn).
  destruct (Ht table eq_refl) as [H1 H2].
  destruct (Hn eq_refl eq_refl eq_refl) as [_ H3].
  split; [exact H1|]. split; [exact H2|]. split; [reflexivity | exact H3].
Defined.

(** ** What the outcome of rendering depends on *)

Lemma sameDialect_refl (c : Compiler) : sameDialect c c.
Proof. repeat split. Qed.

Lemma sameDialect_sym (c c' : Compiler) : sameDialect c c' -> sameDialect c' c.
Proof. intros (H1 & H2 & H3 & H4). repeat split; congruence. Qed.

Lemma sameDialect_trans (c1 c2 c3 : Compiler) :
  sameDialect c1 c2 -> sameDialect c2 c3 -> sameDialect c1 c3.
Proof.
  intros (H1 & H2 & H3 & H4) (K1 & K2 & K3 & K4). repeat split; congruence.
Qed.

Lemma steady_ret {A} (a : A) : steady (ret a).
Proof. intros c1 c2 H. split; [reflexivity | exact H]. Qed.

Lemma steady_fail {A} (e : error) : steady (@fail A e).
Proof. intros c1 c2 H. split; [reflexivity | exact H]. Qed.

Lemma steady_panic {A} : steady (@panic A).
Proof. intros c1 c2 H. split; [reflexivity | exact H]. Qed.

Lemma steady_WriteVerbatim (s : string) : steady (exec (WriteVerbatim s)).
Proof. intros c1 c2 H. split; [reflexivity | exact H]. Qed.

Lemma steady_WriteIdentifier (s : string) : steady (exec (WriteIdentifier s)).
Proof. intros c1 c2 H. split; [reflexivity | exact H]. Qed.

Lemma steady_resolveOperatorPrecedence (op : operator) :
  steady (query (resolveOperatorPrecedence op)).
Proof.
  intros c1 c2 H. split; [|exact H]. destruct H as (Hp & _).
  unfold query, resolveOperatorPrecedence, Compiler_precedence; cbn [fst].
  now rewrite Hp.
Qed.

Lemma steady_resolveOperatorAssociativity (op : operator) :
  steady (query (resolveOperatorAssociativity op)).
Proof.
  intros c1 c2 H. split; [|exact H]. destruct H as (_ & Ha & _).
  unfold query, resolveOperatorAssociativity, Compiler_associativity; cbn [fst].
  now rewrite Ha.
Qed.

(** The position that [insertPlaceholder] returns depends on the bindings,
    the outcome of rendering the placeholder does not. *)
Lemma steady_Placeholder_Stringify (p : string) : steady (Placeholder_Stringify p).
Proof.
  intros c1 c2 H. unfold Placeholder_Stringify, bind, call, read, exec.
  unfold insertPlaceholder.
  destruct (lookupBinding p (bindings c1)), (lookupBinding p (bindings c2));
    split; try reflexivity; exact H.
Qed.

Lemma steady_bind {A B} (m : M A) (k : A -> M B) :
  steady m -> (forall a, steady (k a)) -> steady (bind m k).
Proof.
  intros Hm Hk c1 c2 H. unfold bind.
  destruct (Hm c1 c2 H) as [Hf Hd2].
  destruct (Hm c1 c1 (sameDialect_refl c1)) as [_ Hd1].
  destruct (m c1) as [r1 c1'], (m c2) as [r2 c2']; cbn [fst snd] in *.
  subst r2. destruct r1 as [a|e|]; cbn [fst snd].
  - assert (H12 : sameDialect c1' c2')
      by (eapply sameDialect_trans; [apply sameDialect_sym; exact Hd1 | exact Hd2]).
    destruct (Hk a c1' c2' H12) as [Kf Kd]. split; [exact Kf|].
    eapply sameDialect_trans; [exact Hd1 | exact Kd].
  - split; [reflexivity | exact Hd2].
  - split; [reflexivity | exact Hd2].
Qed.

Lemma steady_when (b : bool) (m : M unit) : steady m -> steady (when_ b m).
Proof. destruct b; simpl; auto using @steady_ret. Qed.

Lemma steady_forEach {A} (body : A -> M unit) (l : list A) :
  Forall (fun x => steady (body x)) l -> steady (forEach body l).
Proof.
  induction 1 as [|x l Hx Hl IH]; simpl.
  - apply steady_ret.
  - apply steady_bind; auto.
Qed.

Ltac steady_step :=
  match goal with
  | |- steady (bind _ _) => apply steady_bind; [|intros]
  | |- steady (when_ _ _) => apply steady_when
  | |- steady (exec (WriteVerbatim _)) => apply steady_WriteVerbatim
  | |- steady (exec (WriteIdentifier _)) => apply steady_WriteIdentifier
  | |- steady (ret _) => apply steady_ret
  | |- steady (fail _) => apply steady_fail
  | |- steady panic => apply steady_panic
  | |- steady (query (resolveOperatorPrecedence _)) =>
      apply steady_resolveOperatorPrecedence
  | |- steady (query (resolveOperatorAssociativity _)) =>
      apply steady_resolveOperatorAssociativity
  | |- steady (if ?b then _ else _) => destruct b
  | |- steady (match ?x with _ => _ end) => destruct x
  | _ => assumption
  end.

Ltac steady_tac := repeat steady_step.

Lemma steady_stringifyCommaSeparated {A} (str : A -> M unit) (l : list A) :
  Forall (fun x => steady (str x)) l -> steady (stringifyCommaSeparated str l).
Proof.
  intros H. unfold stringifyCommaSeparated.
  destruct H as [|x l Hx Hl]; [apply steady_ret|].
  apply steady_bind; [exact Hx|intros _].
  apply steady_forEach.
  eapply Forall_impl; [|exact Hl]. intros a Ha; simpl. steady_tac.
Qed.

Lemma steady_CaseExpr_whens (str : Node -> M unit) (conds results : list Node) :
  Forall (fun x => steady (str x)) conds ->
  Forall (fun x => steady (str x)) results ->
  steady (CaseExpr_whens str conds (map str results)).
Proof.
  intros Hc. revert results.
  induction Hc as [|x conds Hx Hc IH]; intros results Hr; simpl.
  - apply steady_ret.
  - destruct Hr as [|y results Hy Hr]; simpl; steady_tac. now apply IH.
Qed.

Lemma steady_stringifyParen (str : Node -> M unit) (e : Node) :
  steady (str e) -> steady (stringifyParen str e).
Proof. intros H. unfold stringifyParen. steady_tac. Qed.

Lemma steady_orderbyItem_Stringify (str : Node -> M unit) (o : orderbyItem) :
  steady (str (o_expr o)) -> steady (orderbyItem_Stringify str o).
Proof. intros H. unfold orderbyItem_Stringify. steady_tac. Qed.

Lemma steady_LabeledColumn_Stringify (str : Node -> M unit) (l : LabeledColumn) :
  steady (str (lc_Expr l)) -> steady (LabeledColumn_Stringify str l).
Proof. intros H. unfold LabeledColumn_Stringify. steady_tac. Qed.

Lemma steady_JoinClause_Stringify str strF (j : JoinClause) :
  steady (strF (j_left j)) -> steady (strF (j_right j)) ->
  steady (str (j_on j)) -> steady (JoinClause_Stringify str strF j).
Proof. intros H1 H2 H3. unfold JoinClause_Stringify. steady_tac. Qed.

Lemma steady_orderbyItems (items : list orderbyItem) str :
  list_all (orderbyItemOf_all (fun n => steady (str n))) items ->
  Forall (fun o => steady (orderbyItem_Stringify str o)) items.
Proof.
  induction 1 as [|o Ho l Hl IH]; constructor; auto.
  destruct Ho. now apply steady_orderbyItem_Stringify.
Qed.

Lemma steady_LabeledColumns (cols : list LabeledColumn) str :
  list_all (LabeledColumnOf_all (fun n => steady (str n))) cols ->
  Forall (fun l => steady (LabeledColumn_Stringify str l)) cols.
Proof.
  induction 1 as [|o Ho l Hl IH]; constructor; auto.
  destruct Ho. now apply steady_LabeledColumn_Stringify.
Qed.

(** Whether rendering succeeds, fails or panics is decided by the tree and
    the dialect, and rendering leaves the dialect as it is. *)
Lemma Stringify_steady_all :
  (forall n, steady (Stringify n))
  /\ (forall f, steady (FromClauseItem_Stringify f))
  /\ (forall s, steady (SelectStmt_Stringify s)).
Proof.
  apply Node_mutind; intros; simpl.
  - unfold SQLType_Stringify. steady_tac.
  - destruct H. unfold CastExpr_Stringify, SQLType_Stringify; simpl. steady_tac.
  - destruct H as [name args Hargs omit]. unfold FuncExpr_Stringify; simpl.
    apply list_all_Forall in Hargs.
    destruct Hargs as [|a args Ha Hargs]; steady_tac.
    apply steady_forEach. eapply Forall_impl; [|exact Hargs].
    intros x Hx; simpl. steady_tac.
  - unfold FromClause_Stringify. steady_tac.
  - destruct H. now apply steady_JoinClause_Stringify.
  - destruct H. unfold LabeledSelectStmt_Stringify; simpl. steady_tac.
  - unfold Column_Stringify. steady_tac.
  - destruct H. now apply steady_LabeledColumn_Stringify.
  - unfold Table_Stringify. steady_tac.
  - unfold LabeledTable_Stringify. steady_tac.
  - assumption.
  - unfold Tuple_Stringify. steady_tac.
    apply steady_stringifyCommaSeparated. now apply list_all_Forall.
  - destruct H as [conds Hc results Hr els He]. unfold CaseExpr_Stringify; simpl.
    apply steady_bind; [steady_tac|intros _].
    apply steady_bind; [|intros _].
    + apply steady_CaseExpr_whens; now apply list_all_Forall.
    + destruct He; steady_tac.
  - apply steady_Placeholder_Stringify.
  - unfold WhereClause_Stringify. steady_tac.
  - unfold GroupByClause_Stringify. steady_tac.
    apply steady_stringifyCommaSeparated. now apply list_all_Forall.
  - unfold HavingClause_Stringify. steady_tac.
  - destruct H. now apply steady_orderbyItem_Stringify.
  - unfold OrderByClause_Stringify. steady_tac.
    apply steady_stringifyCommaSeparated. now apply steady_orderbyItems.
  - unfold LimitClause_Stringify. steady_tac.
  - unfold OffsetClause_Stringify. steady_tac.
  - assumption.
  - destruct H.
    unfold UnaryOperator_Stringify, UnaryOperator_write, stringifyParen; simpl.
    steady_tac.
  - destruct H.
    unfold BinaryOperator_Stringify, BinaryOperator_handleSide, stringifyParen;
      simpl.
    steady_tac.
  - destruct H.
    unfold TernaryOperator_Stringify, TernaryOperator_handleExpr, stringifyParen;
      simpl.
    steady_tac.
  - unfold FromClauseItem_Stringify_body; simpl.
    destruct TableRef as [t|]; [unfold LabeledTable_Stringify; steady_tac|].
    destruct H as [l Hl|].
    + destruct Hl. unfold LabeledSelectStmt_Stringify; simpl. steady_tac.
    + destruct H0 as [j Hj|]; [|steady_tac]. destruct Hj.
      now apply steady_JoinClause_Stringify.
  - unfold SelectStmt_Stringify_body; simpl.
    apply steady_LabeledColumns in H.
    apply steady_bind; [steady_tac|intros _].
    destruct H as [|col0 rest Hcol0 Hrest]; [apply steady_panic|].
    apply steady_bind; [exact Hcol0|intros _].
    apply steady_bind; [|intros _].
    { apply steady_forEach. eapply Forall_impl; [|exact Hrest].
      intros x Hx; simpl. steady_tac. }
    repeat (apply steady_bind; [|intros _]).
    + destruct H0 as [f Hf|]; simpl; steady_tac. unfold FromClause_Stringify.
      steady_tac.
    + destruct H1 as [w Hw|]; simpl; steady_tac. unfold WhereClause_Stringify.
      steady_tac.
    + destruct H2 as [g Hg|]; simpl; steady_tac. unfold GroupByClause_Stringify.
      steady_tac. apply steady_stringifyCommaSeparated. now apply list_all_Forall.
    + destruct H3 as [h Hh|]; simpl; steady_tac. unfold HavingClause_Stringify.
      steady_tac.
    + destruct H4 as [o Ho|]; simpl; steady_tac. unfold OrderByClause_Stringify.
      steady_tac. apply steady_stringifyCommaSeparated.
      now apply steady_orderbyItems.
    + destruct H5 as [l Hl|]; simpl; steady_tac. unfold LimitClause_Stringify.
      steady_tac.
    + destruct H6 as [o Ho|]; simpl; steady_tac. unfold OffsetClause_Stringify.
      steady_tac.
Qed.

Lemma Stringify_steady (n : Node) : steady (Stringify n).
Proof. apply Stringify_steady_all. Qed.

(** ** CASE expressions *)

(** A step that succeeds in the dialect of [c0] succeeds from every context
    of that dialect, and the rendering goes on in that dialect. *)
Lemma bind_okFrom {B} (m : M unit) (k : unit -> M B) (c0 c : Compiler) :
  steady m -> fst (m c0) = Ok tt -> sameDialect c0 c ->
  exists c1, bind m k c = k tt c1 /\ sameDialect c0 c1.
Proof.
  intros Hs Hok Hd. destruct (Hs c0 c Hd) as [Hf Hd1]. unfold bind.
  destruct (m c) as [r c1]; cbn [fst snd] in *.
  rewrite Hok in Hf. subst r. now exists c1.
Qed.

Lemma CaseExpr_whens_outcome (conds results : list Expr) (c0 : Compiler) :
  Forall (fun e => fst (Stringify e c0) = Ok tt) conds ->
  Forall (fun e => fst (Stringify e c0) = Ok tt)
         (firstn (List.length conds) results) ->
  forall c, sameDialect c0 c ->
    exists c1,
      CaseExpr_whens Stringify conds (map Stringify results) c
      = ((if (List.length conds <=? List.length results)%nat
          then Ok tt else Panicked), c1)
      /\ sameDialect c0 c1.
Proof.
  intros Hc. revert results.
  induction Hc as [|cond conds Hcond Hc IH]; intros results Hr c Hd; simpl.
  - now exists c.
  - destruct (bind_okFrom (exec (WriteVerbatim " WHEN "))
                (fun _ => Stringify cond ;;
                          exec (WriteVerbatim " THEN ") ;;
                          match map Stringify results with
                          | [] => panic
                          | res :: results' =>
                              res ;; CaseExpr_whens Stringify conds results'
                          end)
                c0 c (steady_WriteVerbatim _) eq_refl Hd) as (c1 & -> & Hd1).
    destruct (bind_okFrom (Stringify cond)
                (fun _ => exec (WriteVerbatim " THEN ") ;;
                          match map Stringify results with
                          | [] => panic
                          | res :: results' =>
                              res ;; CaseExpr_whens Stringify conds results'
                          end)
                c0 c1 (Stringify_steady cond) Hcond Hd1) as (c2 & -> & Hd2).
    destruct (bind_okFrom (exec (WriteVerbatim " THEN "))
                (fun _ => match map Stringify results with
                          | [] => panic
                          | res :: results' =>
                              res ;; CaseExpr_whens Stringify conds results'
                          end)
                c0 c2 (steady_WriteVerbatim _) eq_refl Hd2) as (c3 & -> & Hd3).
    destruct results as [|res results]; simpl in *.
    + now exists c3.
    + inversion Hr as [|? ? Hres Hr']; subst.
      destruct (bind_okFrom (Stringify res)
                  (fun _ => CaseExpr_whens Stringify conds (map Stringify results))
                  c0 c3 (Stringify_steady res) Hres Hd3) as (c4 & -> & Hd4).
      apply IH; assumption.
Qed.

Lemma bind_ext {A B} (m : M A) (k k' : A -> M B) (c : Compiler) :
  (forall a c', k a c' = k' a c') -> bind m k c = bind m k' c.
Proof. intros H. unfold bind. destruct (m c) as [[a|e|] c1]; auto. Qed.

(** The results beyond the number of conditions are not looked at. *)
Lemma CaseExpr_whens_firstn (conds results : list Expr) (c : Compiler) :
  CaseExpr_whens Stringify conds
    (map Stringify (firstn (List.length conds) results)) c
  = CaseExpr_whens Stringify conds (map Stringify results) c.
Proof.
  revert results c. induction conds as [|cond conds IH]; intros results c; simpl.
  - reflexivity.
  - apply bind_ext; intros _ c1. apply bind_ext; intros _ c2.
    apply bind_ext; intros _ c3.
    destruct results as [|res results]; simpl; [reflexivity|].
    apply bind_ext; intros _ c4. apply IH.
Qed.

(** X17.  The results of a CASE expression beyond the number of its
    conditions are never rendered: the CASE renders as the one cut down to
    as many results as conditions.  When every condition, every result
    that has a condition and the ELSE part render successfully in the
    dialect of the context, rendering the CASE panics exactly when it has
    fewer results than conditions, and succeeds exactly when it has at
    least as many. *)
Theorem CaseExpr_panics_iff_short (ce : CaseExpr) (c : Compiler) :
  Stringify (NCaseExpr ce) c
  = Stringify
      (NCaseExpr
         {| c_conds := c_conds ce;
            c_results := firstn (List.length (c_conds ce)) (c_results ce);
            c_else_ := c_else_ ce |}) c
  /\ (Forall (fun e => fst (Stringify e c) = Ok tt) (c_conds ce) ->
      Forall (fun e => fst (Stringify e c) = Ok tt)
             (firstn (List.length (c_conds ce)) (c_results ce)) ->
      (forall e, c_else_ ce = Some e -> fst (Stringify e c) = Ok tt) ->
      (fst (Stringify (NCaseExpr ce) c) = Panicked
       <-> (List.length (c_results ce) < List.length (c_conds ce))%nat)
      /\ (fst (Stringify (NCaseExpr ce) c) = Ok tt
          <-> (List.length (c_conds ce) <= List.length (c_results ce))%nat)).
Proof.
  split.
  - change (CaseExpr_Stringify Stringify ce c
            = CaseExpr_Stringify Stringify
                {| c_conds := c_conds ce;
                   c_results := firstn (List.length (c_conds ce)) (c_results ce);
                   c_else_ := c_else_ ce |} c).
    unfold CaseExpr_Stringify; simpl.
    apply bind_ext; intros _ c1. unfold bind.
    now rewrite CaseExpr_whens_firstn.
  - intros Hc Hr He.
    assert (Hout : fst (Stringify (NCaseExpr ce) c)
                   = if (List.length (c_conds ce) <=? List.length (c_results ce))%nat
                     then Ok tt else Panicked).
    { change (Stringify (NCaseExpr ce)) with (CaseExpr_Stringify Stringify ce).
      unfold CaseExpr_Stringify.
      destruct (bind_okFrom (exec (WriteVerbatim "CASE"))
                  (fun _ =>
                     CaseExpr_whens Stringify (c_conds ce)
                       (map Stringify (c_results ce)) ;;
                     match c_else_ ce with
                     | Some else_ =>
                         exec (WriteVerbatim " ELSE ") ;; Stringify else_
                     | None => ret tt
                     end ;;
                     exec (WriteVerbatim " END"))
                  c c (steady_WriteVerbatim _) eq_refl (sameDialect_refl c))
        as (c1 & -> & Hd1).
      destruct (CaseExpr_whens_outcome _ _ c Hc Hr c1 Hd1) as (c2 & Hw & Hd2).
      unfold bind at 1. rewrite Hw.
      destruct (_ <=? _)%nat; [|reflexivity].
      destruct (c_else_ ce) as [e|] eqn:Hee; [|reflexivity].
      unfold bind at 1.
      destruct (bind_okFrom (exec (WriteVerbatim " ELSE "))
                  (fun _ => Stringify e)
                  c c2 (steady_WriteVerbatim _) eq_refl Hd2) as (c3 & -> & Hd3).
      destruct (Stringify_steady e c c3 Hd3) as [Hf _].
      rewrite (He e eq_refl) in Hf.
      destruct (Stringify e c3) as [r c4]; cbn [fst] in Hf. subst r. reflexivity. }
    rewrite Hout.
    destruct (Nat.leb_spec (List.length (c_conds ce)) (List.length (c_results ce)));
      split; split; intros; try discriminate; try reflexivity; lia.
Qed.

Lemma CaseExpr_panics_iff_short_witness :
  let short := {| c_conds := [column "a";
                              NBinaryOperator (Eq (column "b") (column "c"))];
                  c_results := [column "x"];
                  c_else_ := None |} in
  (List.length (c_results short) < List.length (c_conds short))%nat
  /\ fst (Stringify (NCaseExpr short) exampleCompiler) = Panicked.
Proof.
  intros short. split; [simpl; lia|].
  apply (proj1 (proj2 (CaseExpr_panics_iff_short short exampleCompiler)
                  ltac:(repeat constructor)
                  ltac:(repeat constructor)
                  ltac:(discriminate))).
  simpl. lia.
Defined.

(** X19.  Whether rendering a node succeeds, fails with an error or panics
    is decided by the node and the dialect alone: from two contexts with
    the same precedence table, associativity table, quoting rule and
    placeholder rule the outcome is the same, whatever text has been
    written and whatever placeholders have been bound in each. *)
Theorem Stringify_outcome_by_dialect (n : Node) (c1 c2 : Compiler) :
  sameDialect c1 c2 -> fst (Stringify n c1) = fst (Stringify n c2).
Proof. intros H. exact (proj1 (Stringify_steady n c1 c2 H)). Qed.

Lemma Stringify_outcome_by_dialect_witness :
  let n := NBinaryOperator (Lt (column "a") (NPlaceholder "x")) in
  let c2 := snd (Stringify (NPlaceholder "y")
                   (WriteVerbatim "SELECT " exampleCompiler)) in
  fst (Stringify n exampleCompiler) = fst (Stringify n c2).
Proof.
  intros n c2.
  apply (Stringify_outcome_by_dialect n exampleCompiler c2).
  repeat split.
Defined.

(** ** The output context *)

(** X18.  Rendering a node, whether it succeeds, fails or panics, leaves the
    dialect of the output context as it was, keeps every placeholder
    binding made before at its position, and keeps the text written before
    as a prefix of the buffer. *)
Theorem Stringify_extends (n : Node) (c c' : Compiler) (r : result unit) :
  Stringify n c = (r, c') ->
  precedenceTable c' = precedenceTable c
  /\ associativityTable c' = associativityTable c
  /\ quoteIdentifier c' = quoteIdentifier c
  /\ placeholderRule c' = placeholderRule c
  /\ (forall name pos, lookupBinding name (bindings c) = Some pos ->
                       lookupBinding name (bindings c') = Some pos)
  /\ exists s, buf c' = (buf c ++ s)%string.
Proof.
  intros H.
  destruct (proj1 Stringify_monotone_all n c r c' H)
    as ((Hp & Ha & Hq & Hr) & Hk & Hs).
  repeat split; assumption.
Qed.

Lemma Stringify_extends_witness :
  let n := NBinaryOperator (Eq (column "a") (NPlaceholder "x")) in
  let c' := snd (Stringify n exampleCompiler) in
  precedenceTable c' = precedenceTable exampleCompiler
  /\ exists s, buf c' = (buf exampleCompiler ++ s)%string.
Proof.
  intros n c'.
  destruct (Stringify_extends n exampleCompiler c'
              (fst (Stringify n exampleCompiler)) (surjective_pairing _))
    as (H1 & _ & _ & _ & _ & H6).
  split; [exact H1 | exact H6].
Defined.
